(** * 3ml block parser (src/block_parser.py)

    A shallow embedding of the line-oriented block parser and of the
    object graph it builds, followed by the properties of the parser.

    Conventions of the embedding.

    - A Python [str] is a [string]; each [ascii] stands for the code
      point of the same number, so the strings of the model are the
      Python strings over code points 0..255.  The character classes
      below are CPython's, restricted to that range.
    - A Python [int] is a [Z].
    - Objects live in a heap, a list of nodes addressed by position; a
      reference is an index ([loc]).  Creating an object appends a node
      to the heap, so object identity is the index.  The open-context
      stack holds references, and appending to [stack[-1].children]
      updates the heap cell the reference points to: the tree and the
      stack share nodes exactly as in the source.
    - The stack is kept top first: Python's [stack[-1]] is the head of
      the list, [stack[0]] (the Document) is its last element and
      [stack[1:]] is [tail (rev stack)].
    - Exceptions are values of type [exn]; a computation returns a
      [result].
    - [parse_blocks] takes the heap it starts in and returns the heap it
      leaves, so that what a call does can be compared across heaps;
      [parse_tree] is the value the caller reads from the returned
      reference. *)

From Stdlib Require Import ZArith Ascii String DecimalString.
From stdpp Require Import base option list strings gmap.

#[local] Set Warnings "-register-all".

(** ** Strings *)

Module Str.

Definition code (c : ascii) : N := N_of_ascii c.

Definition between (lo hi : N) (n : N) : bool :=
  ((lo <=? n) && (n <=? hi))%N.

(** [str.isspace] on one character: TAB..CR, FS..US, SPACE, NEL, NBSP. *)
Definition isspace (c : ascii) : bool :=
  between 9 13 (code c) || between 28 32 (code c)
  || (code c =? 133)%N || (code c =? 160)%N.

(** The line boundaries of [str.splitlines]: LF, VT, FF, CR, FS, GS,
    RS and NEL. *)
Definition islinebreak (c : ascii) : bool :=
  between 10 13 (code c) || between 28 30 (code c) || (code c =? 133)%N.

(** The characters accepted by [int()]: the decimal digits. *)
Definition isdecimal (c : ascii) : bool := between 48 57 (code c).

(** [str.isdigit] on one character: the decimal digits and the
    superscripts two, three and one (U+00B2, U+00B3, U+00B9). *)
Definition isdigit_char (c : ascii) : bool :=
  isdecimal c || (code c =? 178)%N || (code c =? 179)%N || (code c =? 185)%N.

Definition is_empty (s : string) : bool :=
  match s with EmptyString => true | String _ _ => false end.

Fixpoint all (p : ascii → bool) (s : string) : bool :=
  match s with
  | EmptyString => true
  | String c r => p c && all p r
  end.

(** [s.isdigit()]: at least one character, all of them digits. *)
Definition isdigit (s : string) : bool := negb (is_empty s) && all isdigit_char s.

(** [s[k:]] *)
Fixpoint slice_from (k : nat) (s : string) : string :=
  match k, s with
  | O, _ => s
  | S _, EmptyString => EmptyString
  | S k', String _ r => slice_from k' r
  end.

(** [s.startswith(p)] *)
Fixpoint startswith (p s : string) : bool :=
  match p, s with
  | EmptyString, _ => true
  | String _ _, EmptyString => false
  | String a p', String b s' => Ascii.eqb a b && startswith p' s'
  end.

Fixpoint lstrip (s : string) : string :=
  match s with
  | EmptyString => EmptyString
  | String c r => if isspace c then lstrip r else s
  end.

Fixpoint rstrip (s : string) : string :=
  match s with
  | EmptyString => EmptyString
  | String c r =>
      match rstrip r with
      | EmptyString => if isspace c then EmptyString else String c EmptyString
      | r' => String c r'
      end
  end.

Definition strip (s : string) : string := lstrip (rstrip s).

(** The longest prefix without white space, and what follows it. *)
Fixpoint span_word (s : string) : string * string :=
  match s with
  | EmptyString => (EmptyString, EmptyString)
  | String c r =>
      if isspace c then (EmptyString, s)
      else let '(w, rest) := span_word r in (String c w, rest)
  end.

(** [s.split(maxsplit=1)]: skip leading white space, take one word,
    skip the white space after it, and keep what remains (if anything)
    as the second part. *)
Definition split1 (s : string) : list string :=
  match lstrip s with
  | EmptyString => []
  | s' =>
      let '(w, rest) := span_word s' in
      match lstrip rest with
      | EmptyString => [w]
      | rest' => [w; rest']
      end
  end.

(** [s.splitlines()].  [cur] is the line read so far.  CR LF is one
    boundary; a boundary at the very end opens no further line. *)
Fixpoint splitlines_from (cur s : string) : list string :=
  match s with
  | EmptyString => if is_empty cur then [] else [cur]
  | String c r =>
      if islinebreak c then
        cur ::
          match r with
          | String c' r' =>
              if (code c =? 13)%N && (code c' =? 10)%N
              then splitlines_from EmptyString r'
              else splitlines_from EmptyString r
          | EmptyString => splitlines_from EmptyString r
          end
      else splitlines_from (cur +:+ String c EmptyString) r
  end.

Definition splitlines (s : string) : list string := splitlines_from EmptyString s.

Fixpoint int_from (acc : Z) (s : string) : option Z :=
  match s with
  | EmptyString => Some acc
  | String c r =>
      if isdecimal c then int_from (10 * acc + (Z.of_N (code c) - 48))%Z r
      else None
  end.

(** [sys.int_info.default_max_str_digits]: the most digits that [int()]
    takes from a string, as the interpreter is configured by default. *)
Definition max_str_digits : Z := 4300.

(** [int(s)] for a string without sign, white space or underscore (the
    parser calls it after [isdigit] only); [None] is [ValueError].  A
    string of more than [max_str_digits] digits is refused, whatever
    its value is (leading zeros count). *)
Definition int (s : string) : option Z :=
  if is_empty s then None
  else if (max_str_digits <? Z.of_nat (String.length s))%Z then None
  else int_from 0%Z s.

(** [str(n)], as an f-string renders an integer. *)
Definition of_int (n : Z) : string := NilZero.string_of_int (Z.to_int n).

End Str.

(** ** Document model *)

(** A reference to a node: its position in the heap. *)
Abbreviation loc := nat (only parsing).

(** The fields a node class adds to [Node.children].  The classes
    Section, Definition and Theorem carry a trailing underscore, their
    bare names being commands of the prover. *)
Inductive Variant : Type :=
  | Document (metadata : gmap string string)
  | Section_ (level : Z) (title : string)
  | Paragraph (text : string)
  | ListBlock (items : list string)
  | Definition_ (title : string)
  | Theorem_ (title : string).

Record Node : Type := mkNode { children : list loc; variant : Variant }.

Abbreviation heap := (list Node) (only parsing).

Definition is_Document (v : Variant) : bool :=
  match v with Document _ => true | _ => false end.
Definition is_Section (v : Variant) : bool :=
  match v with Section_ _ _ => true | _ => false end.
Definition is_Paragraph (v : Variant) : bool :=
  match v with Paragraph _ => true | _ => false end.
Definition is_ListBlock (v : Variant) : bool :=
  match v with ListBlock _ => true | _ => false end.
(** [isinstance(node, (Definition, Theorem, ListBlock))] *)
Definition is_container (v : Variant) : bool :=
  match v with Definition_ _ | Theorem_ _ | ListBlock _ => true | _ => false end.

(** ** Exceptions and results *)

(** [ParseError] carries its message.  [ValueError] is what [int()]
    raises and [IndexError] what indexing an empty list raises.
    [Dangling] is no Python exception: it marks a reference that points
    outside the heap, which Python cannot produce;
    [parse_blocks_never_stuck] shows that the parser never meets it. *)
Inductive exn : Type :=
  | ParseError (msg : string)
  | ValueError
  | IndexError
  | Dangling.

Inductive result (A : Type) : Type :=
  | Ok (a : A)
  | Raise (e : exn).
Arguments Ok {A} a.
Arguments Raise {A} e.

Definition bind {A B : Type} (r : result A) (k : A → result B) : result B :=
  match r with
  | Ok a => k a
  | Raise e => Raise e
  end.

Notation "x ←' r ; k" := (bind r (λ x, k))
  (at level 20, r at level 100, k at level 200, right associativity,
   format "'[v' x  ←'  r ; '/' k ']'").
Notation "' p ←' r ; k" := (bind r (λ x, match x with p => k end))
  (at level 20, p pattern, r at level 100, k at level 200, right associativity).

(** ** Heap and stack primitives *)

Record State : Type := mkState { objects : heap; stack : list loc }.

(** Read the object behind a reference. *)
Definition deref (σ : heap) (r : loc) : result Node :=
  match σ !! r with
  | Some n => Ok n
  | None => Raise Dangling
  end.

(** [stack[-1]] *)
Definition top (stk : list loc) : result loc :=
  match stk with
  | r :: _ => Ok r
  | [] => Raise IndexError
  end.

(** [parent.children.append(child)] *)
Definition append_child (σ : heap) (parent child : loc) : result heap :=
  n ←' deref σ parent;
  Ok (<[parent := mkNode (children n ++ [child]) (variant n)]> σ).

(** [node = V(...); stack[-1].children.append(node); stack.append(node)] *)
Definition open_node (v : Variant) (st : State) : result State :=
  let node := length (objects st) in
  let σ := objects st ++ [mkNode [] v] in
  parent ←' top (stack st);
  σ' ←' append_child σ parent node;
  Ok (mkState σ' (node :: stack st)).

(** ** Command handling *)

(** Lines 49-51: the command word (without the marker) and the argument
    of a directive line. *)
Definition directive (line : string) : result (string * string) :=
  let parts := Str.split1 line in
  match parts with
  | [] => Raise IndexError
  | p0 :: more =>
      let cmd := Str.slice_from 1 p0 in
      let arg := match more with a :: _ => a | [] => EmptyString end in
      Ok (cmd, arg)
  end.

(** Line 68-69: [while len(stack) > 1 and isinstance(stack[-1], Section)
    and stack[-1].level >= level: stack.pop()]. *)
Fixpoint pop_sections (σ : heap) (level : Z) (stk : list loc) : result (list loc) :=
  match stk with
  | r :: rest =>
      match rest with
      | [] => Ok stk
      | _ :: _ =>
          n ←' deref σ r;
          match variant n with
          | Section_ l _ =>
              if (level <=? l)%Z then pop_sections σ level rest else Ok stk
          | _ => Ok stk
          end
      end
  | [] => Ok stk
  end.

Definition line_prefix (lineno : Z) : string :=
  "Line " +:+ Str.of_int lineno +:+ ": ".

Definition _handle_command (line : string) (lineno : Z) (st : State) : result State :=
  '(cmd, arg) ←' directive line;
  current ←' top (stack st);
  if String.eqb cmd "end" then
    if (length (stack st) =? 1)%nat then
      Raise (ParseError (line_prefix lineno +:+ "unexpected #end"))
    else
      n ←' deref (objects st) current;
      if is_Section (variant n) then
        Raise (ParseError (line_prefix lineno +:+ "sections do not use #end"))
      else Ok (mkState (objects st) (tail (stack st)))
  else if Str.startswith "s" cmd && Str.isdigit (Str.slice_from 1 cmd) then
    match Str.int (Str.slice_from 1 cmd) with
    | None => Raise ValueError
    | Some level =>
        stk ←' pop_sections (objects st) level (stack st);
        open_node (Section_ level arg) (mkState (objects st) stk)
    end
  else if String.eqb cmd "list" then open_node (ListBlock []) st
  else if String.eqb cmd "def" then open_node (Definition_ arg) st
  else if String.eqb cmd "thm" then open_node (Theorem_ arg) st
  else
    n ←' deref (objects st) current;
    match variant n with
    | Document metadata =>
        Ok (mkState
              (<[current := mkNode (children n) (Document (<[cmd := arg]> metadata))]>
                 (objects st))
              (stack st))
    | _ => Raise (ParseError (line_prefix lineno +:+ "unknown command #" +:+ cmd))
    end.

(** ** Text handling *)

Definition _handle_text (line : string) (lineno : Z) (st : State) : result State :=
  if Str.is_empty (Str.strip line) then Ok st
  else
    current ←' top (stack st);
    n ←' deref (objects st) current;
    match variant n with
    | ListBlock items =>
        if negb (Str.startswith "- " line) then
          Raise (ParseError (line_prefix lineno +:+ "list items must start with '- '"))
        else
          Ok (mkState
                (<[current := mkNode (children n)
                                (ListBlock (items ++ [Str.slice_from 2 line]))]>
                   (objects st))
                (stack st))
    | _ =>
        let node := length (objects st) in
        σ ←' append_child (objects st ++ [mkNode [] (Paragraph line)]) current node;
        Ok (mkState σ (stack st))
    end.

(** ** Block parser *)

(** The body of the loop of [parse_blocks] for one line. *)
Definition step (raw : string) (lineno : Z) (st : State) : result State :=
  let line := Str.rstrip raw in
  if Str.startswith "#" line then _handle_command line lineno st
  else _handle_text line lineno st.

(** [for lineno, line in enumerate(lines, lineno): ...] *)
Fixpoint run_lines (lines : list string) (lineno : Z) (st : State) : result State :=
  match lines with
  | [] => Ok st
  | raw :: rest =>
      st' ←' step raw lineno st;
      run_lines rest (lineno + 1) st'
  end.

(** Lines 133-135: the first open explicit block raises. *)
Fixpoint check_closed (σ : heap) (open : list loc) : result unit :=
  match open with
  | [] => Ok tt
  | r :: rest =>
      n ←' deref σ r;
      if is_container (variant n) then
        Raise (ParseError "Unclosed block at end of file")
      else check_closed σ rest
  end.

(** The state before the first line: a fresh Document, alone on the
    stack.  [h] is the heap the call starts in. *)
Definition initial (h : heap) : State :=
  mkState (h ++ [mkNode [] (Document ∅)]) [length h].

(** [parse_blocks(source)], run in heap [h]: the reference it returns
    and the heap it leaves. *)
Definition parse_blocks (source : string) (h : heap) : result (loc * heap) :=
  let lines := Str.splitlines source in
  let doc := length h in
  st ←' run_lines lines 1 (initial h);
  _ ←' check_closed (objects st) (tail (rev (stack st)));
  Ok (doc, objects st).

(** The state after the first [k] lines of [source], for a parse that
    starts in heap [h]. *)
Definition state_after (source : string) (h : heap) (k : nat) : result State :=
  run_lines (take k (Str.splitlines source)) 1 (initial h).

(** ** The tree behind a reference *)

(** The value of a node as the caller reads it: its fields and the
    values of its children, in order.  Two nodes are equal for Python's
    [==] when these values are. *)
Inductive Tree : Type :=
  | TNode (v : Variant) (kids : list Tree).

Definition root (t : Tree) : Variant := match t with TNode v _ => v end.
Definition kids (t : Tree) : list Tree := match t with TNode _ ks => ks end.

Fixpoint to_tree (fuel : nat) (σ : heap) (r : loc) : option Tree :=
  match fuel with
  | O => None
  | S f =>
      n ← σ !! r;
      ks ← mapM (to_tree f σ) (children n);
      Some (TNode (variant n) ks)
  end.

(** [parse_blocks(source)] as the caller sees it: the tree of the
    returned Document, or the exception.  The nodes made by the call are
    those from [doc] on, which bounds the depth of the tree. *)
Definition parse_tree (source : string) (h : heap) : result Tree :=
  '(doc, σ) ←' parse_blocks source h;
  match to_tree (length σ - doc) σ doc with
  | Some t => Ok t
  | None => Raise Dangling
  end.

(** All nodes of a tree, the root first. *)
Fixpoint nodes (t : Tree) : list Tree :=
  match t with
  | TNode _ ks => t :: flat_map nodes ks
  end.

(** * Vocabulary of the properties *)

(** ** Sample inputs *)

(** A text from its lines, each ended by LF. *)
Definition text (ls : list string) : string :=
  foldr (λ l acc, l +:+ String "010"%char acc) EmptyString ls.

(** The superscript two, U+00B2. *)
Definition superscript_two : ascii := "178"%char.


(** ** Decimal numerals *)

(** The number that a string of decimal digits writes, by the rule of
    positions: a digit counts for its value times the power of ten of
    its place.  This is what the level of a heading is meant to be; it
    is compared with what [Str.int] computes. *)
Fixpoint decimal_value (ds : string) : Z :=
  match ds with
  | EmptyString => 0
  | String c r =>
      (Z.of_N (Str.code c) - 48) * 10 ^ Z.of_nat (String.length r) + decimal_value r
  end.

(** ** Results *)

(** What a computation establishes: [P] when it returns, and no
    exception other than [ParseError] and [ValueError] when it raises. *)
Definition ensures {A : Type} (P : A → Prop) (r : result A) : Prop :=
  match r with
  | Ok a => P a
  | Raise (ParseError _) | Raise ValueError => True
  | Raise IndexError | Raise Dangling => False
  end.

(** A computation that raises no [ParseError]. *)
Definition silent {A : Type} (r : result A) : Prop :=
  ∀ msg, r ≠ Raise (ParseError msg).

(** The result with [f] applied to what is returned. *)
Definition rmap {A B : Type} (f : A → B) (r : result A) : result B :=
  match r with
  | Ok a => Ok (f a)
  | Raise e => Raise e
  end.

(** An exception carries the line number [n] when it is a [ParseError]
    whose message starts with "Line n: ". *)
Definition carries_line (e : exn) (n : Z) : Prop :=
  ∃ rest, e = ParseError (line_prefix n +:+ rest).

(** ** Heap, stack and state invariants *)

(** The level of the node behind [r], when it is a Section. *)
Definition sec_level (σ : heap) (r : loc) : option Z :=
  match σ !! r with
  | Some n => match variant n with Section_ l _ => Some l | _ => None end
  | None => None
  end.

(** A node keeps its class for life; only the metadata of a Document
    and the items of a ListBlock are ever replaced. *)
Definition same_class (v v' : Variant) : Prop :=
  match v, v' with
  | Document _, Document _ => True
  | ListBlock _, ListBlock _ => True
  | _, _ => v = v'
  end.

(** [grow σ p n v]: a new node with fields [v] is made and appended to
    the children of [p], whose node was [n]. *)
Definition grow (σ : heap) (p : loc) (n : Node) (v : Variant) : heap :=
  <[p := mkNode (children n ++ [length σ]) (variant n)]> (σ ++ [mkNode [] v]).

(** [amend σ r n v]: the fields of [r], whose node was [n], become [v]. *)
Definition amend (σ : heap) (r : loc) (n : Node) (v : Variant) : heap :=
  <[r := mkNode (children n) v]> σ.

(** Every node of the old heap is still there, with its class. *)
Definition evolves (σ σ' : heap) : Prop :=
  ∀ r m, σ !! r = Some m →
    ∃ m', σ' !! r = Some m' ∧ same_class (variant m) (variant m').

(** What holds of the nodes made since the Document [d] was created. *)
Record heap_ok (d : loc) (σ : heap) : Prop := mk_heap_ok {
  (* [d] holds a Document, and is the only node that does *)
  hk_doc : ∃ n, σ !! d = Some n ∧ is_Document (variant n) = true;
  hk_single : ∀ r n,
      σ !! r = Some n → (d < r)%nat → is_Document (variant n) = false;
  (* children were made after their parent, and are in the heap *)
  hk_children : ∀ r n,
      σ !! r = Some n → (d ≤ r)%nat →
      Forall (λ c, (r < c < length σ)%nat) (children n);
  (* no child of a ListBlock is a Paragraph *)
  hk_list : ∀ r n,
      σ !! r = Some n → (d ≤ r)%nat → is_ListBlock (variant n) = true →
      Forall (λ c, ∃ m, σ !! c = Some m ∧ is_Paragraph (variant m) = false)
        (children n);
  (* no Section has a negative level *)
  hk_level : ∀ r n l t,
      σ !! r = Some n → (d ≤ r)%nat → variant n = Section_ l t → (0 ≤ l)%Z
}.

(** Where a Section lies directly on a Section, the upper one has the
    greater level. *)
Fixpoint ascending (σ : heap) (stk : list loc) : Prop :=
  match stk with
  | a :: rest =>
      match rest with
      | b :: _ =>
          ∀ la lb, sec_level σ a = Some la → sec_level σ b = Some lb → (lb < la)%Z
      | [] => True
      end
      ∧ ascending σ rest
  | [] => True
  end.

(** The Document [d] is the bottom of the stack, the nodes above it were
    made after it, and Sections ascend. *)
Record stack_ok (d : loc) (σ : heap) (stk : list loc) : Prop := mk_stack_ok {
  sk_bottom : ∃ above,
      stk = above ++ [d] ∧ Forall (λ r, (d < r < length σ)%nat) above;
  sk_ascending : ascending σ stk
}.

(** The invariant of the states of a parse whose Document is [d]. *)
Record inv (d : loc) (st : State) : Prop := mk_inv {
  inv_heap : heap_ok d (objects st);
  inv_stack : stack_ok d (objects st) (stack st)
}.

(** The claim of strict ordering, for one state: an open Section has no
    open Section below it on the stack with the same or a greater
    level. *)
Definition sections_ordered (st : State) : Prop :=
  ∀ i j ri rj li lj, (i < j)%nat →
    stack st !! i = Some ri → stack st !! j = Some rj →
    sec_level (objects st) ri = Some li → sec_level (objects st) rj = Some lj →
    (lj < li)%Z.

(** ** Moving a parse to another heap *)

(** The node [n] of a parse in the empty heap, as it is when the parse
    starts in heap [h]: every reference is moved up by the length of
    [h]. *)
Definition shift_node (h : heap) (n : Node) : Node :=
  mkNode (map (Nat.add (length h)) (children n)) (variant n).

(** The heap and the state of a parse in the empty heap, as they are when
    the parse starts in heap [h]. *)
Definition lift_heap (h : heap) (σ : heap) : heap := h ++ map (shift_node h) σ.

Definition lift (h : heap) (st : State) : State :=
  mkState (lift_heap h (objects st)) (map (Nat.add (length h)) (stack st)).

(** ** The steps of a parse *)

(** What a line does to the state: nothing, close the top block, open a
    block, add a list item, set a metadata entry, add a paragraph. *)
Inductive event : Type :=
  | Skip
  | Close
  | Open (v : Variant)
  | Item (item : string)
  | Meta (key value : string)
  | Para (text : string).

(** The nodes that directives open: a Section, an empty ListBlock, a
    Definition, a Theorem. *)
Definition opens (v : Variant) : Prop :=
  match v with
  | Section_ _ _ | ListBlock [] | Definition_ _ | Theorem_ _ => True
  | _ => False
  end.

(** The steps of the parser, read off the branches of
    [_handle_command] and [_handle_text] that return. *)
Inductive transition (st : State) : event → State → Prop :=
  | t_skip :
      transition st Skip st
  | t_close t q rest n :
      stack st = t :: q :: rest →
      objects st !! t = Some n →
      is_Section (variant n) = false →
      transition st Close (mkState (objects st) (q :: rest))
  | t_open v popped p rest n :
      stack st = popped ++ p :: rest →
      objects st !! p = Some n →
      Forall (λ r, is_Some (sec_level (objects st) r)) popped →
      (popped ≠ [] → is_Section v = true) →
      opens v →
      (∀ l title, v = Section_ l title →
         Forall (λ r, ∃ lr, sec_level (objects st) r = Some lr ∧ (l ≤ lr)%Z) popped
         ∧ ∀ lp, sec_level (objects st) p = Some lp → (lp < l)%Z) →
      transition st (Open v)
        (mkState (grow (objects st) p n v) (length (objects st) :: p :: rest))
  | t_item item p rest n items :
      stack st = p :: rest →
      objects st !! p = Some n →
      variant n = ListBlock items →
      transition st (Item item)
        (mkState (amend (objects st) p n (ListBlock (items ++ [item]))) (stack st))
  | t_meta key value p rest n metadata :
      stack st = p :: rest →
      objects st !! p = Some n →
      variant n = Document metadata →
      transition st (Meta key value)
        (mkState (amend (objects st) p n (Document (<[key := value]> metadata)))
           (stack st))
  | t_para text p rest n :
      stack st = p :: rest →
      objects st !! p = Some n →
      is_ListBlock (variant n) = false →
      transition st (Para text)
        (mkState (grow (objects st) p n (Paragraph text)) (stack st)).

(** The event a trimmed line stands for. *)
Definition reads (line : string) (ev : event) : Prop :=
  match ev with
  | Skip =>
      Str.startswith "#" line = false ∧ Str.is_empty (Str.strip line) = true
  | Close =>
      Str.startswith "#" line = true ∧ ∃ arg, directive line = Ok ("end", arg)
  | Open v =>
      Str.startswith "#" line = true
      ∧ ∃ cmd arg, directive line = Ok (cmd, arg)
          ∧ ((∃ l, Str.startswith "s" cmd = true
                   ∧ Str.int (Str.slice_from 1 cmd) = Some l
                   ∧ v = Section_ l arg)
             ∨ (cmd = "list" ∧ v = ListBlock [])
             ∨ (cmd = "def" ∧ v = Definition_ arg)
             ∨ (cmd = "thm" ∧ v = Theorem_ arg))
  | Item item =>
      Str.startswith "#" line = false
      ∧ Str.is_empty (Str.strip line) = false
      ∧ Str.startswith "- " line = true
      ∧ item = Str.slice_from 2 line
  | Meta key value =>
      Str.startswith "#" line = true ∧ directive line = Ok (key, value)
  | Para text =>
      Str.startswith "#" line = false
      ∧ Str.is_empty (Str.strip line) = false
      ∧ text = line
  end.

(** ** More invariants of the states of a parse *)

(** Each open node was made after the open node below it, and is the
    last child of that node: the stack is the path from the Document to
    the innermost open node, along last children. *)
Fixpoint spine (σ : heap) (stk : list loc) : Prop :=
  match stk with
  | a :: rest =>
      match rest with
      | b :: _ =>
          (b < a)%nat ∧ ∃ n, σ !! b = Some n ∧ last (children n) = Some a
      | [] => True
      end
      ∧ spine σ rest
  | [] => True
  end.

(** The open node [r] has a Section directly above it on the stack. *)
Definition covered (σ : heap) (stk : list loc) (r : loc) : Prop :=
  ∃ i s, stk !! i = Some s ∧ stk !! S i = Some r ∧ is_Some (sec_level σ s).

(** The node behind [r] is a ListBlock, a Definition or a Theorem. *)
Definition container_at (σ : heap) (r : loc) : Prop :=
  ∃ n, σ !! r = Some n ∧ is_container (variant n) = true.

Record shape_ok (d : loc) (st : State) : Prop := mk_shape_ok {
  (* the stack is the path of last children *)
  sh_spine : spine (objects st) (stack st);
  (* no open node is a Paragraph, and a Paragraph has no children *)
  sh_open : ∀ r n,
      r ∈ stack st → objects st !! r = Some n → is_Paragraph (variant n) = false;
  sh_leaf : ∀ r n,
      (d ≤ r)%nat → objects st !! r = Some n →
      is_Paragraph (variant n) = true → children n = [];
  (* a container with a Section among its children is open, below a
     Section *)
  sh_sealed : ∀ r n c,
      (d ≤ r)%nat → objects st !! r = Some n → is_container (variant n) = true →
      c ∈ children n → is_Some (sec_level (objects st) c) →
      covered (objects st) (stack st) r
}.

(** What becomes of a node in a later state: children and list items
    are added at the end, metadata keys stay, everything else is as it
    was. *)
Definition fields_extend (v v' : Variant) : Prop :=
  match v, v' with
  | Document m, Document m' => ∀ key, is_Some (m !! key) → is_Some (m' !! key)
  | ListBlock items, ListBlock items' => items `prefix_of` items'
  | _, _ => v = v'
  end.

Definition extends (σ σ' : heap) : Prop :=
  ∀ r n, σ !! r = Some n →
    ∃ n', σ' !! r = Some n'
      ∧ children n `prefix_of` children n'
      ∧ fields_extend (variant n) (variant n').

(** ** Lines *)

(** A line of white space only: nothing is left of it once it is
    trimmed. *)
Definition blank (raw : string) : bool := Str.is_empty (Str.rstrip raw).

(** The messages of the failures that a line can raise. *)
Definition line_message (lineno : Z) (msg : string) : Prop :=
  msg = line_prefix lineno +:+ "unexpected #end"
  ∨ msg = line_prefix lineno +:+ "sections do not use #end"
  ∨ (∃ cmd, msg = line_prefix lineno +:+ "unknown command #" +:+ cmd)
  ∨ msg = line_prefix lineno +:+ "list items must start with '- '".

(** ** Texts without blocks *)

(** The command words that none of the tests of lines 56 to 88 takes:
    the metadata keys of lines 95-97. *)
Definition is_key (cmd : string) : bool :=
  negb (String.eqb cmd "end")
  && negb (Str.startswith "s" cmd && Str.isdigit (Str.slice_from 1 cmd))
  && negb (String.eqb cmd "list")
  && negb (String.eqb cmd "def")
  && negb (String.eqb cmd "thm").

(** The command word and the argument of a directive line. *)
Definition entry (line : string) : string * string :=
  match directive line with
  | Ok ca => ca
  | Raise _ => (EmptyString, EmptyString)
  end.

(** A line that opens and closes nothing: a line of text, or a
    directive whose command word is a metadata key. *)
Definition flat (raw : string) : bool :=
  let line := Str.rstrip raw in
  if Str.startswith "#" line then is_key (fst (entry line)) else true.

(** The metadata after a flat line, and after flat lines: a directive
    sets its key, the later line winning. *)
Definition set_entry (m : gmap string string) (raw : string) : gmap string string :=
  let line := Str.rstrip raw in
  if Str.startswith "#" line
  then <[fst (entry line) := snd (entry line)]> m
  else m.

Definition flat_metadata (lines : list string) : gmap string string :=
  foldl set_entry ∅ lines.

(** The lines of text among flat lines, trimmed, without the blank
    ones. *)
Definition flat_paragraphs (lines : list string) : list string :=
  List.filter
    (λ line, negb (Str.startswith "#" line) && negb (Str.is_empty (Str.strip line)))
    (map Str.rstrip lines).

(** A heading or a line of text: a line of text, or a directive whose
    command word is "s" followed by decimal digits, one at least and no
    more than [int()] takes. *)
Definition outline (raw : string) : bool :=
  let line := Str.rstrip raw in
  if Str.startswith "#" line then
    match fst (entry line) with
    | String c ds =>
        Ascii.eqb c "s" && negb (Str.is_empty ds) && Str.all Str.isdecimal ds
        && (Z.of_nat (String.length ds) <=? Str.max_str_digits)%Z
    | EmptyString => false
    end
  else true.

(** The state of a parse in the empty heap that has set the metadata
    [meta] and added the paragraphs [paras] to the Document, and nothing
    else. *)
Definition flat_state (meta : gmap string string) (paras : list string) : State :=
  mkState
    (mkNode (seq 1 (length paras)) (Document meta)
     :: map (λ t, mkNode [] (Paragraph t)) paras)
    [0%nat].

(** ** The strings of a node *)

(** What holds of the strings a node stores: the text of a Paragraph has
    no white space at its end, is not blank and does not start with the
    marker; a title, and a metadata value, has no white space at either
    end; a list item has none at its end. *)
Definition clean (v : Variant) : Prop :=
  match v with
  | Document m => ∀ key value, m !! key = Some value → Str.strip value = value
  | Section_ _ t | Definition_ t | Theorem_ t => Str.strip t = t
  | Paragraph t =>
      Str.rstrip t = t
      ∧ Str.is_empty (Str.strip t) = false
      ∧ Str.startswith "#" t = false
  | ListBlock items => Forall (λ item, Str.rstrip item = item) items
  end.

(** ** The outline *)

(** How Sections lie among the children of the nodes made since [d]:
    a Section under a Section has the greater level; what follows a
    Section among the children of a node is a Section of the same or a
    smaller level; and an open node whose last child is a Section has
    that Section directly above it on the stack. *)
Record outline_ok (d : loc) (st : State) : Prop := mk_outline_ok {
  ol_nest : ∀ r n c l lc,
      (d ≤ r)%nat → objects st !! r = Some n → c ∈ children n →
      sec_level (objects st) r = Some l → sec_level (objects st) c = Some lc →
      (l < lc)%Z;
  ol_after : ∀ r n i a b la,
      (d ≤ r)%nat → objects st !! r = Some n →
      children n !! i = Some a → children n !! S i = Some b →
      sec_level (objects st) a = Some la →
      ∃ lb, sec_level (objects st) b = Some lb ∧ (lb ≤ la)%Z;
  ol_cover : ∀ r n c,
      r ∈ stack st → objects st !! r = Some n → last (children n) = Some c →
      is_Some (sec_level (objects st) c) →
      ∃ i, stack st !! i = Some c ∧ stack st !! S i = Some r
}.

(** ** The Document under a Section *)

(** A Section is open directly above the Document [d]. *)
Definition under_section (d : loc) (st : State) : Prop :=
  ∃ above s, stack st = above ++ [s; d] ∧ is_Some (sec_level (objects st) s).

(** The metadata of the Document behind [r]. *)
Definition metadata_at (σ : heap) (r : loc) : option (gmap string string) :=
  match σ !! r with
  | Some n => match variant n with Document m => Some m | _ => None end
  | None => None
  end.

(** ** The objects as a tree *)

(** The nodes made since [d] form a tree: the children of a node are in
    the order in which they were made, every node made after [d] is a
    child of a node, and of one only. *)
Record tree_ok (d : loc) (σ : heap) : Prop := mk_tree_ok {
  tr_ordered : ∀ r n i j a b,
      (d ≤ r)%nat → σ !! r = Some n → (i < j)%nat →
      children n !! i = Some a → children n !! j = Some b → (a < b)%nat;
  tr_parent : ∀ c,
      (d < c < length σ)%nat →
      ∃ q n, (d ≤ q)%nat ∧ σ !! q = Some n ∧ c ∈ children n;
  tr_single : ∀ q q' n n' c,
      (d ≤ q)%nat → (d ≤ q')%nat → σ !! q = Some n → σ !! q' = Some n' →
      c ∈ children n → c ∈ children n' → q = q'
}.

(** * Properties *)

(** ** Results *)

Lemma ensures_bind {A B : Type} (P : A → Prop) (Q : B → Prop) r (k : A → result B) :
  ensures P r → (∀ a, P a → ensures Q (k a)) → ensures Q (bind r k).
Proof. destruct r as [a|[]]; simpl; auto; contradiction. Qed.

(** ** Directive lines *)

Lemma startswith_marker line :
  Str.startswith "#" line = true → ∃ r, line = String "#" r.
Proof.
  destruct line as [|c r]; [done|]. cbn [Str.startswith].
  destruct (Ascii.eqb_spec "#" c) as [<-|]; [eauto|done].
Qed.

Lemma lstrip_nonspace c r : Str.isspace c = false → Str.lstrip (String c r) = String c r.
Proof. intros H. simpl. by rewrite H. Qed.

(** A line that starts with the marker has a command word: [parts[0]]
    exists. *)
Lemma directive_marker line :
  Str.startswith "#" line = true → ∃ cmd arg, directive line = Ok (cmd, arg).
Proof.
  intros [r ->]%startswith_marker. unfold directive, Str.split1.
  rewrite lstrip_nonspace by done.
  change (Str.span_word (String "#" r))
    with (let '(w, rest) := Str.span_word r in (String "#"%char w, rest)).
  destruct (Str.span_word r) as [w rest].
  destruct (Str.lstrip rest); simpl; eauto.
Qed.

(** ** How the heap evolves *)

Lemma same_class_refl v : same_class v v.
Proof. by destruct v. Qed.

Lemma append_child_grow σ p n v :
  σ !! p = Some n →
  append_child (σ ++ [mkNode [] v]) p (length σ) = Ok (grow σ p n v).
Proof.
  intros Hp. unfold append_child, deref.
  by rewrite (lookup_app_l_Some _ _ _ _ Hp).
Qed.

Lemma length_grow σ p n v : length (grow σ p n v) = S (length σ).
Proof. unfold grow. rewrite length_insert, length_app. simpl. lia. Qed.

Lemma length_amend σ r n v : length (amend σ r n v) = length σ.
Proof. apply length_insert. Qed.

Lemma lookup_grow σ p n v r m :
  σ !! p = Some n →
  grow σ p n v !! r = Some m ↔
    (r = p ∧ m = mkNode (children n ++ [length σ]) (variant n))
    ∨ (r = length σ ∧ m = mkNode [] v)
    ∨ (r ≠ p ∧ σ !! r = Some m).
Proof.
  intros Hp. pose proof (lookup_lt_Some _ _ _ Hp) as Hlt. unfold grow.
  destruct (decide (r = p)) as [->|Hne].
  - rewrite list_lookup_insert_eq by (rewrite length_app; simpl; lia).
    split; [intros [= <-]; auto|]. intros [[_ ->]|[[-> _]|[? _]]]; [done|lia|done].
  - rewrite list_lookup_insert_ne by done.
    destruct (decide (r < length σ)%nat) as [Hr|Hr].
    + rewrite lookup_app_l by done. split; [auto|].
      intros [[? _]|[[-> _]|[_ ?]]]; [done|lia|done].
    + rewrite lookup_app_r by lia.
      destruct (decide (r = length σ)) as [->|Hne'].
      * rewrite Nat.sub_diag. simpl. split; [intros [= <-]; auto|].
        intros [[? _]|[[_ ->]|[_ H]]]; [done|done|].
        apply lookup_lt_Some in H. lia.
      * destruct (r - length σ)%nat as [|k] eqn:E; [lia|]. simpl.
        split; [done|]. intros [[? _]|[[? _]|[_ H]]]; [done|done|].
        apply lookup_lt_Some in H. lia.
Qed.

Lemma lookup_amend σ r n v q m :
  σ !! r = Some n →
  amend σ r n v !! q = Some m ↔
    (q = r ∧ m = mkNode (children n) v) ∨ (q ≠ r ∧ σ !! q = Some m).
Proof.
  intros Hr. pose proof (lookup_lt_Some _ _ _ Hr) as Hlt. unfold amend.
  destruct (decide (q = r)) as [->|Hne].
  - rewrite list_lookup_insert_eq by done.
    split; [intros [= <-]; auto|]. intros [[_ ->]|[? _]]; done.
  - rewrite list_lookup_insert_ne by done. split; [auto|].
    intros [[? _]|[_ ?]]; done.
Qed.

Lemma evolves_grow σ p n v : σ !! p = Some n → evolves σ (grow σ p n v).
Proof.
  intros Hp r m Hr. destruct (decide (r = p)) as [->|Hne].
  - rewrite Hp in Hr. injection Hr as <-. eexists. split.
    + apply lookup_grow; [done|]. left. done.
    + apply same_class_refl.
  - exists m. split; [|apply same_class_refl].
    apply lookup_grow; [done|]. auto.
Qed.

Lemma evolves_amend σ r n v :
  σ !! r = Some n → same_class (variant n) v → evolves σ (amend σ r n v).
Proof.
  intros Hr Hc q m Hq. destruct (decide (q = r)) as [->|Hne].
  - rewrite Hr in Hq. injection Hq as <-. eexists. split.
    + apply lookup_amend; [done|]. left. done.
    + done.
  - exists m. split; [|apply same_class_refl].
    apply lookup_amend; [done|]. auto.
Qed.

(** ** The heap invariant *)

Lemma same_class_Document v v' : same_class v v' → is_Document v' = is_Document v.
Proof. destruct v, v'; simpl; try done; intros [=]. Qed.
Lemma same_class_Paragraph v v' : same_class v v' → is_Paragraph v' = is_Paragraph v.
Proof. destruct v, v'; simpl; try done; intros [=]. Qed.
Lemma same_class_ListBlock v v' : same_class v v' → is_ListBlock v' = is_ListBlock v.
Proof. destruct v, v'; simpl; try done; intros [=]. Qed.
Lemma same_class_Section v l t : same_class v (Section_ l t) → v = Section_ l t.
Proof. destruct v; simpl; try done. Qed.

Lemma evolves_not_Paragraph σ σ' c :
  evolves σ σ' →
  (∃ m, σ !! c = Some m ∧ is_Paragraph (variant m) = false) →
  ∃ m, σ' !! c = Some m ∧ is_Paragraph (variant m) = false.
Proof.
  intros Hev (m & Hm & Hp). destruct (Hev _ _ Hm) as (m' & Hm' & Hc).
  exists m'. split; [done|]. by rewrite (same_class_Paragraph _ _ Hc).
Qed.

(** Making a node under [p] keeps the invariant, when the new node is no
    Document, has a level of at least 0 if it is a Section, and is no
    Paragraph if [p] is a ListBlock. *)
Lemma heap_ok_grow d σ p n v :
  heap_ok d σ → σ !! p = Some n → (d ≤ p)%nat →
  is_Document v = false →
  (is_ListBlock (variant n) = true → is_Paragraph v = false) →
  (∀ l t, v = Section_ l t → (0 ≤ l)%Z) →
  heap_ok d (grow σ p n v).
Proof.
  intros [Hdoc Hsingle Hch Hlist Hlev] Hp Hdp Hv Hpar Hsec.
  pose proof (lookup_lt_Some _ _ _ Hp) as Hlt.
  pose proof (evolves_grow σ p n v Hp) as Hev.
  split.
  - destruct Hdoc as (m & Hm & Hd). destruct (Hev _ _ Hm) as (m' & Hm' & Hc).
    exists m'. split; [done|]. by rewrite (same_class_Document _ _ Hc).
  - intros r m Hr Hdr. apply lookup_grow in Hr; [|done].
    destruct Hr as [[-> ->]|[[-> ->]|[_ Hr]]]; simpl; eauto.
  - intros r m Hr Hdr. rewrite length_grow. apply lookup_grow in Hr; [|done].
    destruct Hr as [[-> ->]|[[-> ->]|[_ Hr]]]; simpl.
    + apply Forall_app. split.
      * eapply Forall_impl; [by eapply Hch|]. simpl. lia.
      * apply Forall_singleton. lia.
    + constructor.
    + eapply Forall_impl; [by eapply Hch|]. simpl. lia.
  - intros r m Hr Hdr Hlb. apply lookup_grow in Hr; [|done].
    destruct Hr as [[-> ->]|[[-> ->]|[_ Hr]]]; simpl in *.
    + apply Forall_app. split.
      * eapply Forall_impl; [by eapply Hlist|]. simpl.
        intros c Hc. by eapply evolves_not_Paragraph.
      * apply Forall_singleton. exists (mkNode [] v). split; [|by apply Hpar].
        apply lookup_grow; [done|]. auto.
    + constructor.
    + eapply Forall_impl; [by eapply Hlist|]. simpl.
      intros c Hc. by eapply evolves_not_Paragraph.
  - intros r m l t Hr Hdr Hvar. apply lookup_grow in Hr; [|done].
    destruct Hr as [[-> ->]|[[-> ->]|[_ Hr]]]; simpl in *; eauto.
Qed.

(** Replacing the fields of a node by fields of the same class keeps the
    invariant. *)
Lemma heap_ok_amend d σ r n v :
  heap_ok d σ → σ !! r = Some n → same_class (variant n) v →
  heap_ok d (amend σ r n v).
Proof.
  intros [Hdoc Hsingle Hch Hlist Hlev] Hr Hc.
  pose proof (evolves_amend σ r n v Hr Hc) as Hev.
  split.
  - destruct Hdoc as (m & Hm & Hd). destruct (Hev _ _ Hm) as (m' & Hm' & Hc').
    exists m'. split; [done|]. by rewrite (same_class_Document _ _ Hc').
  - intros q m Hq Hdq. apply lookup_amend in Hq; [|done].
    destruct Hq as [[-> ->]|[_ Hq]]; simpl; eauto.
    rewrite (same_class_Document _ _ Hc). eauto.
  - intros q m Hq Hdq. rewrite length_amend. apply lookup_amend in Hq; [|done].
    destruct Hq as [[-> ->]|[_ Hq]]; simpl; eauto.
  - intros q m Hq Hdq Hlb. apply lookup_amend in Hq; [|done].
    destruct Hq as [[-> ->]|[_ Hq]]; simpl in *.
    + rewrite (same_class_ListBlock _ _ Hc) in Hlb.
      eapply Forall_impl; [by eapply Hlist|]. simpl.
      intros c Hc'. by eapply evolves_not_Paragraph.
    + eapply Forall_impl; [by eapply Hlist|]. simpl.
      intros c Hc'. by eapply evolves_not_Paragraph.
  - intros q m l t Hq Hdq Hvar. apply lookup_amend in Hq; [|done].
    destruct Hq as [[-> ->]|[_ Hq]]; simpl in *; eauto.
    subst v. apply same_class_Section in Hc. eauto.
Qed.

(** ** The stack invariant *)

Lemma evolves_length σ σ' : evolves σ σ' → (length σ ≤ length σ')%nat.
Proof.
  intros Hev. destruct σ as [|n σ0] eqn:E using rev_ind; [simpl; lia|].
  clear IHσ0. destruct (Hev (length σ0) n) as (m' & Hm' & _).
  - rewrite lookup_app_r by lia. by rewrite Nat.sub_diag.
  - apply lookup_lt_Some in Hm'. rewrite length_app. simpl. lia.
Qed.

Lemma evolves_sec_level_inv σ σ' r l :
  evolves σ σ' → (r < length σ)%nat →
  sec_level σ' r = Some l → sec_level σ r = Some l.
Proof.
  unfold sec_level. intros Hev Hr.
  destruct (lookup_lt_is_Some_2 _ _ Hr) as [m Hm]. rewrite Hm.
  destruct (Hev _ _ Hm) as (m' & -> & Hc).
  destruct (variant m') eqn:E; try done. intros [= ->].
  apply same_class_Section in Hc. by rewrite Hc.
Qed.

Lemma stack_ok_lt d σ stk r :
  stack_ok d σ stk → (d < length σ)%nat → r ∈ stk → (d ≤ r < length σ)%nat.
Proof.
  intros [(above & -> & Hab) _] Hd [Hr|Hr]%elem_of_app.
  - rewrite Forall_forall in Hab. specialize (Hab _ Hr). lia.
  - apply list_elem_of_singleton in Hr. lia.
Qed.

Lemma ascending_evolves σ σ' stk :
  evolves σ σ' → Forall (λ r, (r < length σ)%nat) stk →
  ascending σ stk → ascending σ' stk.
Proof.
  intros Hev. induction stk as [|a [|b rest] IH]; simpl; [done|done|].
  intros Hlt [Hab Hrest]. split.
  - intros la lb Ha Hb.
    apply (Hab la lb); eapply evolves_sec_level_inv; eauto.
    + by inversion Hlt.
    + inversion Hlt as [|?? _ Hlt']. by inversion Hlt'.
  - apply IH; [by inversion Hlt|done].
Qed.

Lemma stack_ok_evolves d σ σ' stk :
  evolves σ σ' → (d < length σ)%nat → stack_ok d σ stk → stack_ok d σ' stk.
Proof.
  intros Hev Hd Hok. pose proof (evolves_length _ _ Hev) as Hlen.
  destruct Hok as [(above & -> & Hab) Hasc]. split.
  - exists above. split; [done|]. eapply Forall_impl; [done|]. simpl. lia.
  - eapply ascending_evolves; [done| |done].
    apply Forall_app. split.
    + eapply Forall_impl; [done|]. simpl. lia.
    + apply Forall_singleton. lia.
Qed.

Lemma stack_ok_pop d σ a b rest :
  stack_ok d σ (a :: b :: rest) → stack_ok d σ (b :: rest).
Proof.
  intros [(above & Heq & Hab) [_ Hasc]]. split; [|done].
  destruct above as [|a' above']; simplify_eq/=.
  inversion Hab; subst. eauto.
Qed.

Lemma stack_ok_push d σ stk r :
  stack_ok d σ stk → (d < r < length σ)%nat →
  (∀ b la lb, head stk = Some b →
     sec_level σ r = Some la → sec_level σ b = Some lb → (lb < la)%Z) →
  stack_ok d σ (r :: stk).
Proof.
  intros [(above & -> & Hab) Hasc] Hr Hlev. split.
  - exists (r :: above). split; [done|]. by constructor.
  - split; [|done]. destruct (above ++ [d]) as [|b ?] eqn:E; [done|].
    intros la lb. by apply Hlev.
Qed.

Lemma stack_ok_nonempty d σ stk : stack_ok d σ stk → ∃ p rest, stk = p :: rest.
Proof. intros [(above & -> & _) _]. destruct above; simpl; eauto. Qed.

Lemma stack_ok_last d σ stk : stack_ok d σ stk → last stk = Some d.
Proof. intros [(above & -> & _) _]. apply last_snoc. Qed.

Lemma stack_ok_initial h : stack_ok (length h) (h ++ [mkNode [] (Document ∅)]) [length h].
Proof. split; [exists []; split; [done|constructor]|done]. Qed.

Lemma heap_ok_initial h : heap_ok (length h) (h ++ [mkNode [] (Document ∅)]).
Proof.
  assert (∀ r n, (h ++ [mkNode [] (Document ∅)]) !! r = Some n →
                 (length h ≤ r)%nat → r = length h ∧ n = mkNode [] (Document ∅)) as Hnew.
  { intros r n Hr Hle. rewrite lookup_app_r in Hr by done.
    destruct (r - length h)%nat as [|k] eqn:E; simpl in Hr; [|done].
    split; [lia|congruence]. }
  split.
  - exists (mkNode [] (Document ∅)). split; [|done].
    rewrite lookup_app_r by lia. by rewrite Nat.sub_diag.
  - intros r n Hr Hlt. destruct (Hnew r n Hr) as [? _]; lia.
  - intros r n Hr Hle. destruct (Hnew r n Hr Hle) as [_ ->]. constructor.
  - intros r n Hr Hle. destruct (Hnew r n Hr Hle) as [_ ->]. constructor.
  - intros r n l t Hr Hle. destruct (Hnew r n Hr Hle) as [_ ->]. done.
Qed.

(** ** The state invariant and the handlers *)

Lemma heap_ok_doc_lt d σ : heap_ok d σ → (d < length σ)%nat.
Proof. intros [(n & Hn & _) _ _ _ _]. by eapply lookup_lt_Some. Qed.

Lemma inv_initial h : inv (length h) (initial h).
Proof. split; [apply heap_ok_initial|apply stack_ok_initial]. Qed.

(** The top of the stack of a good state, and the node behind it. *)
Lemma inv_top d st :
  inv d st → ∃ p rest n,
    stack st = p :: rest ∧ objects st !! p = Some n ∧ (d ≤ p)%nat.
Proof.
  intros [Hh Hs]. destruct (stack_ok_nonempty _ _ _ Hs) as (p & rest & E).
  pose proof (stack_ok_lt d _ _ p Hs (heap_ok_doc_lt _ _ Hh)) as Hp.
  rewrite E in Hp. specialize (Hp ltac:(left)).
  destruct (lookup_lt_is_Some_2 (objects st) p) as [n Hn]; [lia|].
  exists p, rest, n. split_and!; [done|done|lia].
Qed.

(** The Document at the bottom is no Section. *)
Lemma heap_ok_doc_level d σ : heap_ok d σ → sec_level σ d = None.
Proof.
  intros [(n & Hn & Hd) _ _ _ _]. unfold sec_level. rewrite Hn.
  by destruct (variant n).
Qed.

(** The loop that closes Sections: it pops a run of Sections of level
    [level] or more, keeps at least the bottom of the stack, and stops
    with the bottom alone or below a top that is no such Section. *)
Lemma pop_sections_spec σ level stk :
  Forall (λ r, (r < length σ)%nat) stk →
  ∃ popped kept,
    stk = popped ++ kept
    ∧ pop_sections σ level stk = Ok kept
    ∧ Forall (λ r, ∃ l, sec_level σ r = Some l ∧ (level ≤ l)%Z) popped
    ∧ (stk ≠ [] → kept ≠ [])
    ∧ (∀ b c rest l, kept = b :: c :: rest → sec_level σ b = Some l → (l < level)%Z).
Proof.
  induction stk as [|a [|b rest] IH]; intros Hlt.
  - exists [], []. split_and!; try done. 
  - exists [], [a]. split_and!; try done.
  - destruct (lookup_lt_is_Some_2 σ a) as [n Hn]; [by inversion Hlt|].
    assert ((∃ l, sec_level σ a = Some l ∧ (level ≤ l)%Z)
            ∨ ¬ (∃ l, sec_level σ a = Some l ∧ (level ≤ l)%Z)) as [Hpop|Hkeep].
    { destruct (sec_level σ a) as [l|]; [|right; by intros (? & [=] & _)].
      destruct (Z.le_gt_cases level l); [left; eauto|].
      right. intros (l' & [= <-] & ?). lia. }
    + destruct IH as (popped & kept & E & Hrun & Hpopped & Hne & Hstop);
        [by inversion Hlt|].
      exists (a :: popped), kept. split_and!.
      * simpl. by rewrite <- E.
      * destruct Hpop as (l & Hl & Hle). unfold sec_level in Hl. rewrite Hn in Hl.
        cbn [pop_sections]. unfold deref. rewrite Hn. cbn [bind].
        destruct (variant n); try done. injection Hl as ->.
        apply Z.leb_le in Hle. rewrite Hle. exact Hrun.
      * by constructor.
      * intros _. by apply Hne.
      * done.
    + exists [], (a :: b :: rest). split_and!; try done.
      * cbn [pop_sections]. unfold deref. rewrite Hn. cbn [bind].
        destruct (variant n) as [|l t| | | |] eqn:E; try done.
        destruct (Z.leb_spec level l) as [Hle|Hgt]; [|done].
        exfalso. apply Hkeep. exists l. split; [|done].
        unfold sec_level. by rewrite Hn, E.
      * intros b' c' rest' l [= <- <- <-] Hl.
        destruct (Z.lt_ge_cases l level); [done|].
        exfalso. apply Hkeep. eauto.
Qed.

Lemma open_node_eq σ p rest n v :
  σ !! p = Some n →
  open_node v (mkState σ (p :: rest))
  = Ok (mkState (grow σ p n v) (length σ :: p :: rest)).
Proof.
  intros Hp. unfold open_node. cbn [objects stack top bind].
  by rewrite (append_child_grow _ _ _ _ Hp).
Qed.

Lemma sec_level_grow_new σ p n v l :
  σ !! p = Some n →
  sec_level (grow σ p n v) (length σ) = Some l → ∃ t, v = Section_ l t.
Proof.
  intros Hp. unfold sec_level.
  assert (grow σ p n v !! length σ = Some (mkNode [] v)) as ->.
  { apply lookup_grow; [done|]. auto. }
  simpl. destruct v; try done. intros [= ->]. eauto.
Qed.

(** Opening a block under the top of the stack keeps the invariant; a
    new Section must lie above a lower Section or above no Section. *)
Lemma inv_open d σ p rest n v :
  inv d (mkState σ (p :: rest)) → σ !! p = Some n →
  is_Document v = false → is_Paragraph v = false →
  (∀ l t, v = Section_ l t →
     (0 ≤ l)%Z ∧ ∀ lb, sec_level σ p = Some lb → (lb < l)%Z) →
  inv d (mkState (grow σ p n v) (length σ :: p :: rest)).
Proof.
  intros [Hh Hs] Hp Hdoc Hpar Hsec. simpl in *.
  pose proof (heap_ok_doc_lt _ _ Hh) as Hd.
  pose proof (stack_ok_lt _ _ _ p Hs Hd ltac:(left)) as Hdp.
  pose proof (evolves_grow σ p n v Hp) as Hev.
  split; simpl.
  - apply heap_ok_grow; try done; [lia|]. intros l t E. by apply (Hsec l t).
  - apply stack_ok_push.
    + by eapply stack_ok_evolves.
    + rewrite length_grow. lia.
    + intros b la lb [= <-] Hla Hlb.
      destruct (sec_level_grow_new _ _ _ _ _ Hp Hla) as (t & E).
      apply (Hsec la t E). eapply evolves_sec_level_inv; [done|lia|done].
Qed.

Lemma inv_paragraph d σ stk p n text :
  inv d (mkState σ stk) → σ !! p = Some n → (d ≤ p)%nat →
  is_ListBlock (variant n) = false →
  inv d (mkState (grow σ p n (Paragraph text)) stk).
Proof.
  intros [Hh Hs] Hp Hdp Hlb. simpl in *. split; simpl.
  - apply heap_ok_grow; try done. by rewrite Hlb.
  - eapply stack_ok_evolves; [by apply evolves_grow|by eapply heap_ok_doc_lt|done].
Qed.

Lemma inv_amend d σ stk r n v :
  inv d (mkState σ stk) → σ !! r = Some n → same_class (variant n) v →
  inv d (mkState (amend σ r n v) stk).
Proof.
  intros [Hh Hs] Hr Hc. simpl in *. split; simpl.
  - by apply heap_ok_amend.
  - eapply stack_ok_evolves; [by apply evolves_amend|by eapply heap_ok_doc_lt|done].
Qed.

Lemma inv_stack_lt d st :
  inv d st → Forall (λ r, (r < length (objects st))%nat) (stack st).
Proof.
  intros [Hh Hs]. apply Forall_forall. intros r Hr.
  pose proof (stack_ok_lt _ _ _ r Hs (heap_ok_doc_lt _ _ Hh) Hr). lia.
Qed.

Lemma int_from_nonneg s acc z : (0 ≤ acc)%Z → Str.int_from acc s = Some z → (0 ≤ z)%Z.
Proof.
  revert acc. induction s as [|c r IH]; simpl; intros acc Hacc.
  - intros [= <-]. done.
  - destruct (Str.isdecimal c) eqn:E; [|done]. apply IH.
    unfold Str.isdecimal, Str.between in E. apply andb_true_iff in E as [E1 _].
    apply N.leb_le in E1. lia.
Qed.

(** [int()] of a digit string is never negative. *)
Lemma int_nonneg s z : Str.int s = Some z → (0 ≤ z)%Z.
Proof.
  unfold Str.int. destruct (Str.is_empty s); [done|].
  destruct (Str.max_str_digits <? _)%Z; [done|]. by apply int_from_nonneg.
Qed.

Lemma stack_ok_suffix d σ popped kept :
  stack_ok d σ (popped ++ kept) → kept ≠ [] → stack_ok d σ kept.
Proof.
  intros Hs Hne. induction popped as [|a popped IH]; [done|].
  apply IH. destruct (popped ++ kept) as [|b rest] eqn:E.
  - by destruct popped, kept.
  - simpl in Hs. rewrite E in Hs. by eapply stack_ok_pop.
Qed.

(** After the closing loop the stack is good, and the new Section may be
    opened on its top. *)
Lemma inv_after_pop d σ level popped kept :
  inv d (mkState σ (popped ++ kept)) → kept ≠ [] →
  (∀ b c rest l, kept = b :: c :: rest → sec_level σ b = Some l → (l < level)%Z) →
  ∃ p rest n,
    kept = p :: rest ∧ σ !! p = Some n
    ∧ inv d (mkState σ kept)
    ∧ ∀ lb, sec_level σ p = Some lb → (lb < level)%Z.
Proof.
  intros [Hh Hs] Hne Hstop. simpl in *.
  assert (inv d (mkState σ kept)) as Hinv.
  { split; [done|]. by eapply stack_ok_suffix. }
  destruct (inv_top _ _ Hinv) as (p & rest & n & Hstk & Hp & Hdp). simpl in *.
  exists p, rest, n. split_and!; try done.
  intros lb Hlb. destruct rest as [|c rest]; [|by eapply Hstop].
  destruct Hinv as [_ Hs']. apply stack_ok_last in Hs'. simpl in Hs'.
  rewrite Hstk in Hs'. injection Hs' as ->.
  by rewrite (heap_ok_doc_level _ _ Hh) in Hlb.
Qed.

Lemma handle_command_ensures d line lineno st :
  inv d st → Str.startswith "#" line = true →
  ensures (inv d) (_handle_command line lineno st).
Proof.
  intros Hinv Hm. destruct (directive_marker _ Hm) as (cmd & arg & Hdir).
  destruct (inv_top _ _ Hinv) as (p & rest & n & Hstk & Hp & Hdp).
  destruct st as [σ stk]. simpl in *. subst stk.
  unfold _handle_command. rewrite Hdir. cbn [bind stack objects top].
  unfold deref. rewrite Hp. cbn [bind].
  destruct (String.eqb cmd "end").
  { destruct rest as [|q rest]; [done|]. cbn [length Nat.eqb].
    destruct (is_Section (variant n)); [done|]. simpl.
    destruct Hinv as [Hh Hs]. split; [done|]. by eapply stack_ok_pop. }
  destruct (Str.startswith "s" cmd && Str.isdigit (Str.slice_from 1 cmd)).
  { destruct (Str.int (Str.slice_from 1 cmd)) as [level|] eqn:Hint; [|done].
    destruct (pop_sections_spec σ level (p :: rest) (inv_stack_lt _ _ Hinv))
      as (popped & kept & E & -> & Hpopped & Hne & Hstop).
    cbn [bind]. rewrite E in Hinv.
    destruct (inv_after_pop _ _ level _ _ Hinv (Hne ltac:(done)) Hstop)
      as (p' & rest' & n' & -> & Hp' & Hinv' & Hlow).
    rewrite (open_node_eq _ _ _ _ _ Hp'). simpl.
    apply inv_open; try done. intros l t [= <- <-].
    split; [by eapply int_nonneg|done]. }
  destruct (String.eqb cmd "list").
  { rewrite (open_node_eq _ _ _ _ _ Hp). simpl. by apply inv_open. }
  destruct (String.eqb cmd "def").
  { rewrite (open_node_eq _ _ _ _ _ Hp). simpl. by apply inv_open. }
  destruct (String.eqb cmd "thm").
  { rewrite (open_node_eq _ _ _ _ _ Hp). simpl. by apply inv_open. }
  destruct (variant n) as [metadata| | | | |] eqn:Hv; try done. simpl.
  apply (inv_amend d σ (p :: rest) p n); [done|done|]. by rewrite Hv.
Qed.

Lemma handle_text_ensures d line lineno st :
  inv d st → ensures (inv d) (_handle_text line lineno st).
Proof.
  intros Hinv. unfold _handle_text.
  destruct (Str.is_empty (Str.strip line)); [done|].
  destruct (inv_top _ _ Hinv) as (p & rest & n & Hstk & Hp & Hdp).
  destruct st as [σ stk]. cbn [stack objects] in *. subst stk.
  cbn [top bind]. unfold deref. rewrite Hp. cbn [bind].
  destruct (variant n) as [| | |items| |] eqn:Hv;
    try (rewrite (append_child_grow _ _ _ _ Hp); simpl;
         apply inv_paragraph; try done; by rewrite Hv).
  destruct (Str.startswith "- " line); cbn [negb ensures]; [|done].
  apply (inv_amend d σ (p :: rest) p n); [done|done|]. by rewrite Hv.
Qed.

(** One line keeps the invariant, and raises nothing but [ParseError]
    and [ValueError]. *)
Lemma step_ensures d raw lineno st :
  inv d st → ensures (inv d) (step raw lineno st).
Proof.
  intros Hinv. unfold step.
  destruct (Str.startswith "#" (Str.rstrip raw)) eqn:Hm.
  - by apply handle_command_ensures.
  - by apply handle_text_ensures.
Qed.

Lemma run_lines_ensures d lines lineno st :
  inv d st → ensures (inv d) (run_lines lines lineno st).
Proof.
  revert lineno st. induction lines as [|raw lines IH]; intros lineno st Hinv.
  - done.
  - simpl. eapply ensures_bind; [by apply step_ensures|]. intros st' Hinv'.
    by apply IH.
Qed.

(** Every state a parse passes through is good. *)
Lemma state_after_inv source h k st :
  state_after source h k = Ok st → inv (length h) st.
Proof.
  intros Hrun. unfold state_after in Hrun.
  pose proof (run_lines_ensures (length h) (take k (Str.splitlines source)) 1
                (initial h) (inv_initial h)) as Hens.
  by rewrite Hrun in Hens.
Qed.

(** ** Runs *)

Lemma run_lines_app l1 l2 lineno st :
  run_lines (l1 ++ l2) lineno st
  = bind (run_lines l1 lineno st) (run_lines l2 (lineno + Z.of_nat (length l1))).
Proof.
  revert lineno st. induction l1 as [|raw l1 IH]; intros lineno st; simpl.
  - by rewrite Z.add_0_r.
  - destruct (step raw lineno st) as [st'|e]; simpl; [|done].
    rewrite IH. do 2 f_equal. lia.
Qed.

(** The line with index [k] is processed as line number [k + 1], in the
    state the lines before it have left. *)
Lemma state_after_S source h k raw :
  Str.splitlines source !! k = Some raw →
  state_after source h (S k)
  = bind (state_after source h k) (step raw (Z.of_nat k + 1)).
Proof.
  intros Hk. unfold state_after. rewrite (take_S_r _ _ _ Hk), run_lines_app.
  pose proof (lookup_lt_Some _ _ _ Hk) as Hlt.
  rewrite length_take, Nat.min_l by lia.
  destruct (run_lines (take k (Str.splitlines source)) 1 (initial h)) as [st|e];
    simpl; [|done].
  rewrite (Z.add_comm 1). by destruct (step raw (Z.of_nat k + 1) st).
Qed.

(** Unfold the processing of line [k] down to the body of
    [_handle_command], given the state before the line ([Hrun]), the
    line ([Hk]), its marker ([Hm]) and its command word ([Hdir]). *)
Ltac enter_command Hk Hrun Hm Hdir :=
  rewrite (state_after_S _ _ _ _ Hk), Hrun; cbn [bind]; unfold step;
  rewrite Hm; unfold _handle_command; rewrite Hdir; cbn [bind stack objects].

Lemma all_decimal_isdigit ds :
  Str.all Str.isdecimal ds = true → Str.all Str.isdigit_char ds = true.
Proof.
  induction ds as [|c r IH]; simpl; [done|].
  intros [Hc Hr]%andb_true_iff. unfold Str.isdigit_char. rewrite Hc. simpl. auto.
Qed.

Lemma int_from_decimal ds acc :
  Str.all Str.isdecimal ds = true →
  Str.int_from acc ds
  = Some (acc * 10 ^ Z.of_nat (String.length ds) + decimal_value ds)%Z.
Proof.
  revert acc. induction ds as [|c r IH]; intros acc.
  - intros _. cbn [Str.int_from String.length decimal_value]. f_equal. simpl. lia.
  - cbn [Str.all]. intros [Hc Hr]%andb_true_iff.
    cbn [Str.int_from]. rewrite Hc, (IH _ Hr). f_equal.
    cbn [String.length decimal_value]. rewrite Nat2Z.inj_succ, Z.pow_succ_r by lia.
    lia.
Qed.

(** A non-empty string of decimal digits, no longer than [int()] takes,
    passes [isdigit], and [int()] gives the number it writes. *)
Lemma decimal_level ds :
  ds ≠ EmptyString → Str.all Str.isdecimal ds = true →
  (Z.of_nat (String.length ds) ≤ Str.max_str_digits)%Z →
  Str.isdigit ds = true ∧ Str.int ds = Some (decimal_value ds).
Proof.
  intros Hne Hall Hlen. unfold Str.isdigit, Str.int.
  destruct ds as [|c r]; [done|]. cbn [Str.is_empty negb andb].
  split; [by apply all_decimal_isdigit|].
  destruct (Z.ltb_spec Str.max_str_digits (Z.of_nat (String.length (String c r))));
    [lia|].
  rewrite (int_from_decimal _ _ Hall). f_equal; lia.
Qed.





(** ** Section levels on the stack *)

(** Position 0 of the stack is its top; a greater position is an
    ancestor. *)
Lemma ascending_run σ stk :
  ascending σ stk →
  ∀ i j ri rj li lj, (i < j)%nat →
    stk !! i = Some ri → stk !! j = Some rj →
    sec_level σ ri = Some li → sec_level σ rj = Some lj →
    (∀ m rm, (i < m < j)%nat → stk !! m = Some rm → is_Some (sec_level σ rm)) →
    (lj < li)%Z.
Proof.
  induction stk as [|a rest IH]; intros Hasc i j ri rj li lj Hij Hi Hj Hli Hlj Hrun.
  - done.
  - destruct Hasc as [Hhead Hrest].
    destruct j as [|j]; [lia|]. destruct i as [|i].
    + simpl in Hi, Hj. injection Hi as ->.
      destruct rest as [|b rest']; [done|].
      destruct j as [|j].
      * simpl in Hj. injection Hj as ->. by eapply Hhead.
      * destruct (Hrun 1%nat b) as [lb Hlb]; [lia|done|].
        specialize (Hhead li lb Hli Hlb).
        assert (lj < lb)%Z; [|lia].
        apply (IH Hrest 0%nat (S j) b rj lb lj); try done; [lia|].
        intros m rm Hm Hrm. apply (Hrun (S m) rm); [lia|done].
    + simpl in Hi, Hj. apply (IH Hrest i j ri rj li lj); try done; [lia|].
      intros m rm Hm Hrm. apply (Hrun (S m) rm); [lia|done].
Qed.

(** C2, as stated, fails: after [#s2 A], [#def D], [#s1 B] the stack is
    Document, Section 2, Definition, Section 1, and the Section of level
    1 has the Section of level 2 as an open ancestor. *)
Lemma sections_ordered_fails_across_container :
  ¬ ∀ source h k st, state_after source h k = Ok st → sections_ordered st.
Proof.
  intros Hall.
  pose (st := mkState
                [mkNode [1%nat] (Document ∅); mkNode [2%nat] (Section_ 2 "A");
                 mkNode [3%nat] (Definition_ "D"); mkNode [] (Section_ 1 "B")]
                [3%nat; 2%nat; 1%nat; 0%nat]).
  assert (state_after (text ["#s2 A"; "#def D"; "#s1 B"]) [] 3 = Ok st) as Hrun
    by (vm_compute; reflexivity).
  specialize (Hall _ _ _ _ Hrun 0%nat 2%nat 3%nat 1%nat 1%Z 2%Z).
  assert (2 < 1)%Z; [|lia].
  apply Hall; [lia|reflexivity..].
Qed.

(** C2, amended. At every point of a parse, Sections that lie on the
    stack with only Sections between them are strictly ordered: an open
    Section at level L has no open Section ancestor of level L or more,
    unless an open node that is no Section (an explicit container) lies
    between the two. *)
Theorem sections_ordered_within_run source h k st :
  state_after source h k = Ok st →
  ∀ i j ri rj li lj, (i < j)%nat →
    stack st !! i = Some ri → stack st !! j = Some rj →
    sec_level (objects st) ri = Some li → sec_level (objects st) rj = Some lj →
    (∀ m rm, (i < m < j)%nat → stack st !! m = Some rm →
             is_Some (sec_level (objects st) rm)) →
    (lj < li)%Z.
Proof.
  intros Hrun. destruct (state_after_inv _ _ _ _ Hrun) as [_ [_ Hasc]].
  by apply ascending_run.
Qed.

Lemma sections_ordered_within_run_witness :
  ∃ st, state_after (text ["#s1 A"; "#s2 B"; "#s4 C"]) [] 3 = Ok st
  ∧ stack st !! 0%nat = Some 3%nat ∧ stack st !! 2%nat = Some 1%nat
  ∧ sec_level (objects st) 3%nat = Some 4%Z ∧ sec_level (objects st) 1%nat = Some 1%Z
  ∧ (1 < 4)%Z.
Proof.
  eexists. split; [vm_compute; reflexivity|].
  split_and!; [reflexivity..|].
  apply (sections_ordered_within_run (text ["#s1 A"; "#s2 B"; "#s4 C"]) [] 3 _
           ltac:(vm_compute; reflexivity) 0%nat 2%nat 3%nat 1%nat 4%Z 1%Z);
    [lia|reflexivity..|].
  intros m rm Hm. assert (m = 1%nat) as -> by lia.
  intros [= <-]. by eexists.
Defined.

(** ** Closing a block *)

(** C3. In every parse, an [end] directive on line [k + 1]
    - fails with [ParseError], message "Line k+1: unexpected #end", when
      the stack holds the Document alone,
    - fails with [ParseError], message "Line k+1: sections do not use
      #end", when the top of the stack is a Section,
    - and otherwise pops the top of the stack and nothing else, leaving
      the heap as it is.
    So an [#end] after the only Definition has been closed fails with
    "Line 4: unexpected #end" on its line. *)
Theorem end_directive :
  (∀ source h k st raw arg,
     state_after source h k = Ok st →
     Str.splitlines source !! k = Some raw →
     Str.startswith "#" (Str.rstrip raw) = true →
     directive (Str.rstrip raw) = Ok ("end", arg) →
     ∃ p rest,
       stack st = p :: rest
       ∧ (rest = [] →
          p = length h
          ∧ state_after source h (S k)
            = Raise (ParseError (line_prefix (Z.of_nat k + 1) +:+ "unexpected #end")))
       ∧ (∀ l, sec_level (objects st) p = Some l →
          state_after source h (S k)
          = Raise (ParseError (line_prefix (Z.of_nat k + 1)
                               +:+ "sections do not use #end")))
       ∧ (rest ≠ [] → sec_level (objects st) p = None →
          state_after source h (S k) = Ok (mkState (objects st) rest)))
  ∧ parse_tree (text ["#def Term"; "prose"; "#end"; "#end"]) []
    = Raise (ParseError "Line 4: unexpected #end").
Proof.
  split; [|vm_compute; reflexivity].
  intros source h k st raw arg Hrun Hk Hm Hdir.
  pose proof (state_after_inv _ _ _ _ Hrun) as Hinv.
  destruct (inv_top _ _ Hinv) as (p & rest & n & Hstk & Hp & _).
  assert (state_after source h (S k)
          = if (length (stack st) =? 1)%nat then
              Raise (ParseError (line_prefix (Z.of_nat k + 1) +:+ "unexpected #end"))
            else if is_Section (variant n) then
              Raise (ParseError (line_prefix (Z.of_nat k + 1)
                                 +:+ "sections do not use #end"))
            else Ok (mkState (objects st) (tail (stack st)))) as Hstep.
  { enter_command Hk Hrun Hm Hdir.
    rewrite Hstk. cbn [top bind]. unfold deref. rewrite Hp. cbn [bind].
    change (String.eqb "end" "end") with true. cbv iota.
    by destruct (length (p :: rest) =? 1)%nat. }
  rewrite Hstk in Hstep.
  exists p, rest. split_and!; [done|..].
  - intros ->. split; [|exact Hstep].
    destruct Hinv as [_ Hs]. apply stack_ok_last in Hs. rewrite Hstk in Hs.
    simpl in Hs. by injection Hs.
  - intros l Hl. rewrite Hstep.
    destruct rest as [|q rest].
    + destruct Hinv as [Hh Hs]. apply stack_ok_last in Hs. rewrite Hstk in Hs.
      simpl in Hs. injection Hs as ->.
      by rewrite (heap_ok_doc_level _ _ Hh) in Hl.
    + cbn [length Nat.eqb]. unfold sec_level in Hl. rewrite Hp in Hl.
      by destruct (variant n).
  - intros Hne Hnone. rewrite Hstep. destruct rest as [|q rest]; [done|].
    cbn [length Nat.eqb tail]. unfold sec_level in Hnone. rewrite Hp in Hnone.
    by destruct (variant n).
Qed.

Lemma end_directive_witness :
  state_after (text ["#def Term"; "prose"; "#end"; "#end"]) [] 4
  = Raise (ParseError "Line 4: unexpected #end").
Proof.
  destruct (proj1 end_directive (text ["#def Term"; "prose"; "#end"; "#end"])
              [] 3%nat (mkState [mkNode [1%nat] (Document ∅);
                                 mkNode [2%nat] (Definition_ "Term");
                                 mkNode [] (Paragraph "prose")] [0%nat])
              "#end" EmptyString)
    as (p & rest & Hstk & Hbottom & _ & _);
    [vm_compute; reflexivity..|].
  injection Hstk as <- <-. by destruct (Hbottom eq_refl) as [_ ->].
Defined.

(** ** List items *)

(** C4. In every parse, when the top of the stack is a ListBlock, a
    line that is no directive and is not blank
    - has what follows its first two characters appended to the items
      of that ListBlock when it starts with "- ", nothing else changing,
    - and otherwise fails with [ParseError], message "Line k+1: list
      items must start with '- '".
    So [#list], [- a], [- b], [#end] gives one ListBlock child with the
    items "a" and "b", and a line [x] in an open list fails on its
    line. *)
Theorem list_item_lines :
  (∀ source h k st raw p rest n items,
     state_after source h k = Ok st →
     Str.splitlines source !! k = Some raw →
     Str.startswith "#" (Str.rstrip raw) = false →
     Str.is_empty (Str.strip (Str.rstrip raw)) = false →
     stack st = p :: rest →
     objects st !! p = Some n →
     variant n = ListBlock items →
     (Str.startswith "- " (Str.rstrip raw) = true →
      state_after source h (S k)
      = Ok (mkState
              (<[p := mkNode (children n)
                        (ListBlock (items ++ [Str.slice_from 2 (Str.rstrip raw)]))]>
                 (objects st))
              (stack st)))
     ∧ (Str.startswith "- " (Str.rstrip raw) = false →
        state_after source h (S k)
        = Raise (ParseError (line_prefix (Z.of_nat k + 1)
                             +:+ "list items must start with '- '"))))
  ∧ parse_tree (text ["#list"; "- a"; "- b"; "#end"]) []
    = Ok (TNode (Document ∅) [TNode (ListBlock ["a"; "b"]) []])
  ∧ parse_tree (text ["#list"; "x"]) []
    = Raise (ParseError "Line 2: list items must start with '- '").
Proof.
  split; [|split; vm_compute; reflexivity].
  intros source h k st raw p rest n items Hrun Hk Hm Hblank Hstk Hp Hv.
  assert (state_after source h (S k)
          = _handle_text (Str.rstrip raw) (Z.of_nat k + 1) st) as ->.
  { rewrite (state_after_S _ _ _ _ Hk), Hrun. cbn [bind]. unfold step.
    by rewrite Hm. }
  unfold _handle_text. rewrite Hblank, Hstk. cbn [top bind].
  unfold deref. rewrite Hp. cbn [bind]. rewrite Hv.
  split; intros ->; done.
Qed.

Lemma list_item_lines_witness :
  state_after (text ["#list"; "- a"; "- b"]) [] 3
  = Ok (mkState [mkNode [1%nat] (Document ∅); mkNode [] (ListBlock ["a"; "b"])]
          [1%nat; 0%nat]).
Proof.
  rewrite (proj1 (proj1 list_item_lines (text ["#list"; "- a"; "- b"]) [] 2%nat
                    (mkState [mkNode [1%nat] (Document ∅); mkNode [] (ListBlock ["a"])]
                       [1%nat; 0%nat])
                    "- b" 1%nat [0%nat] (mkNode [] (ListBlock ["a"])) ["a"]
                    ltac:(vm_compute; reflexivity) ltac:(vm_compute; reflexivity)
                    ltac:(vm_compute; reflexivity) ltac:(vm_compute; reflexivity)
                    ltac:(reflexivity) ltac:(reflexivity) ltac:(reflexivity))
             ltac:(vm_compute; reflexivity)).
  vm_compute. reflexivity.
Defined.

(** ** Failures and line numbers *)

Lemma silent_bind {A B : Type} (r : result A) (k : A → result B) msg :
  silent r → bind r k = Raise (ParseError msg) →
  ∃ a, r = Ok a ∧ k a = Raise (ParseError msg).
Proof.
  intros Hs. destruct r as [a|e]; simpl; [eauto|].
  intros [= ->]. by destruct (Hs msg).
Qed.

Lemma silent_directive line : silent (directive line).
Proof. unfold directive. by destruct (Str.split1 line). Qed.

Lemma silent_top stk : silent (top stk).
Proof. by destruct stk. Qed.

Lemma silent_deref σ r : silent (deref σ r).
Proof. unfold deref. by destruct (σ !! r). Qed.

Lemma silent_append_child σ p c : silent (append_child σ p c).
Proof. unfold append_child, deref. by destruct (σ !! p). Qed.

Lemma silent_open_node v st : silent (open_node v st).
Proof.
  unfold open_node. destruct (top (stack st)) as [p|e] eqn:E; simpl.
  - unfold append_child, deref.
    by destruct ((objects st ++ [mkNode [] v]) !! p).
  - destruct (stack st); [|done]. by injection E as <-.
Qed.

Lemma silent_pop_sections σ level stk : silent (pop_sections σ level stk).
Proof.
  induction stk as [|a [|b rest] IH]; [done|done|].
  cbn [pop_sections]. unfold deref. destruct (σ !! a) as [n|]; [|done].
  cbn [bind]. destruct (variant n); try done.
  by destruct (level <=? _)%Z.
Qed.

(** A [ParseError] raised by a line starts with the number of that
    line. *)
Lemma step_ParseError_line raw lineno st msg :
  step raw lineno st = Raise (ParseError msg) →
  ∃ rest, msg = line_prefix lineno +:+ rest.
Proof.
  unfold step. destruct (Str.startswith "#" (Str.rstrip raw)).
  - unfold _handle_command.
    intros ([cmd arg] & _ & H)%silent_bind; [|apply silent_directive].
    apply silent_bind in H as (p & _ & H); [|apply silent_top].
    destruct (String.eqb cmd "end").
    { destruct (length (stack st) =? 1)%nat; [injection H as <-; eauto|].
      apply silent_bind in H as (n & _ & H); [|apply silent_deref].
      destruct (is_Section (variant n)); [injection H as <-; eauto|done]. }
    destruct (Str.startswith "s" cmd && Str.isdigit (Str.slice_from 1 cmd)).
    { destruct (Str.int (Str.slice_from 1 cmd)) as [level|]; [|done].
      apply silent_bind in H as (stk & _ & H); [|apply silent_pop_sections].
      by destruct (silent_open_node _ _ _ H). }
    destruct (String.eqb cmd "list"); [by destruct (silent_open_node _ _ _ H)|].
    destruct (String.eqb cmd "def"); [by destruct (silent_open_node _ _ _ H)|].
    destruct (String.eqb cmd "thm"); [by destruct (silent_open_node _ _ _ H)|].
    apply silent_bind in H as (n & _ & H); [|apply silent_deref].
    destruct (variant n); try done; injection H as <-; eauto.
  - unfold _handle_text. destruct (Str.is_empty (Str.strip (Str.rstrip raw))); [done|].
    intros (p & _ & H)%silent_bind; [|apply silent_top].
    apply silent_bind in H as (n & _ & H); [|apply silent_deref].
    destruct (variant n);
      try (apply silent_bind in H as (? & _ & H); [done|apply silent_append_child]).
    destruct (negb (Str.startswith "- " (Str.rstrip raw))); [|done].
    injection H as <-; eauto.
Qed.

(** A run that raises does so on some line, after the lines before it
    went through. *)
Lemma run_lines_Raise lines lineno st e :
  run_lines lines lineno st = Raise e →
  ∃ k raw st',
    lines !! k = Some raw
    ∧ run_lines (take k lines) lineno st = Ok st'
    ∧ step raw (lineno + Z.of_nat k) st' = Raise e.
Proof.
  revert lineno st. induction lines as [|raw lines IH]; intros lineno st; [done|].
  simpl. destruct (step raw lineno st) as [st1|e1] eqn:E; simpl.
  - intros (k & raw' & st' & Hk & Hrun & Hstep)%IH.
    exists (S k), raw', st'. simpl. rewrite E. simpl. split_and!; [done|done|].
    rewrite <- Hstep. f_equal. lia.
  - intros [= ->]. exists 0%nat, raw, st. simpl. rewrite Z.add_0_r. done.
Qed.

Lemma check_closed_Raise σ open e :
  check_closed σ open = Raise e →
  e = Dangling ∨ e = ParseError "Unclosed block at end of file".
Proof.
  induction open as [|r open IH]; simpl; [done|].
  unfold deref. destruct (σ !! r) as [n|]; simpl; [|intros [= <-]; auto].
  destruct (is_container (variant n)); [intros [= <-]; auto|done].
Qed.

Lemma check_closed_open σ open r n :
  Forall (λ r, is_Some (σ !! r)) open →
  r ∈ open → σ !! r = Some n → is_container (variant n) = true →
  check_closed σ open = Raise (ParseError "Unclosed block at end of file").
Proof.
  intros Hall Hr Hn Hc. induction open as [|a open IH]; [by inversion Hr|].
  simpl. inversion Hall as [|?? [m Hm] Hall']; subst.
  unfold deref. rewrite Hm. simpl.
  destruct (is_container (variant m)) eqn:E; [done|].
  apply IH; [done|]. inversion Hr; subst; [congruence|done].
Qed.

Lemma state_after_all source h :
  state_after source h (length (Str.splitlines source))
  = run_lines (Str.splitlines source) 1 (initial h).
Proof. unfold state_after. by rewrite firstn_all. Qed.

Lemma elem_of_rev {A : Type} (x : A) (l : list A) : x ∈ rev l ↔ x ∈ l.
Proof. rewrite !list_elem_of_In. symmetry. apply in_rev. Qed.

Lemma unclosed_message_no_line n :
  ¬ carries_line (ParseError "Unclosed block at end of file") n.
Proof. intros (rest & [=]). Qed.

(** C5, as stated, fails: a list left open fails with the message
    "Unclosed block at end of file", which names no line. *)
Lemma unclosed_block_carries_no_line :
  parse_blocks (text ["#list"; "- a"]) []
  = Raise (ParseError "Unclosed block at end of file")
  ∧ ∀ n, ¬ carries_line (ParseError "Unclosed block at end of file") n.
Proof. split; [vm_compute; reflexivity|apply unclosed_message_no_line]. Qed.

(** C5, amended. A [ParseError] of a parse is either raised by a line,
    after the lines before it went through, and then its message starts
    with "Line n: " for the 1-based number [n] of that line; or it is
    "Unclosed block at end of file", raised after all lines went
    through.  The latter is what a ListBlock, Definition or Theorem
    still open at the end of the input yields, and it carries no line
    number. *)
Theorem parse_errors_and_lines :
  (∀ source h msg,
     parse_blocks source h = Raise (ParseError msg) →
     (∃ k raw st,
        Str.splitlines source !! k = Some raw
        ∧ state_after source h k = Ok st
        ∧ state_after source h (S k) = Raise (ParseError msg)
        ∧ carries_line (ParseError msg) (Z.of_nat k + 1))
     ∨ (msg = "Unclosed block at end of file"
        ∧ ∃ st, state_after source h (length (Str.splitlines source)) = Ok st))
  ∧ (∀ source h st r n,
       state_after source h (length (Str.splitlines source)) = Ok st →
       r ∈ stack st → objects st !! r = Some n → is_container (variant n) = true →
       parse_blocks source h = Raise (ParseError "Unclosed block at end of file"))
  ∧ (∀ n, ¬ carries_line (ParseError "Unclosed block at end of file") n).
Proof.
  split_and!; [| |apply unclosed_message_no_line].
  - intros source h msg. unfold parse_blocks.
    destruct (run_lines (Str.splitlines source) 1 (initial h)) as [st|e] eqn:Hrun;
      cbn [bind].
    + intros Hend. right.
      destruct (check_closed (objects st) (tail (rev (stack st)))) as [[]|e] eqn:Hc;
        [done|]. cbn [bind] in Hend. injection Hend as ->.
      apply check_closed_Raise in Hc as [[=]|[= ->]].
      split; [done|]. exists st. by rewrite state_after_all.
    + intros [= ->]. left.
      destruct (run_lines_Raise _ _ _ _ Hrun) as (k & raw & st & Hk & Hpre & Hstep).
      exists k, raw, st. rewrite (Z.add_comm 1) in Hstep.
      split_and!; [done|done| |].
      * rewrite (state_after_S _ _ _ _ Hk). unfold state_after. by rewrite Hpre.
      * destruct (step_ParseError_line _ _ _ _ Hstep) as (rest & ->). by exists rest.
  - intros source h st r n Hrun Hr Hn Hc.
    pose proof (state_after_inv _ _ _ _ Hrun) as Hinv.
    rewrite state_after_all in Hrun. unfold parse_blocks. rewrite Hrun. cbn [bind].
    destruct Hinv as [Hh [(above & Hstk & Habove) _]].
    rewrite Hstk, rev_app_distr. cbn [rev app tail].
    rewrite Hstk in Hr. apply elem_of_app in Hr as [Hr|Hr].
    + rewrite (check_closed_open (objects st) (rev above) r n);
        [done| |by apply elem_of_rev|done|done].
      apply Forall_forall. intros q Hq. apply (proj1 (elem_of_rev _ _)) in Hq.
      rewrite Forall_forall in Habove. specialize (Habove q Hq).
      apply lookup_lt_is_Some_2. lia.
    + apply list_elem_of_singleton in Hr as ->.
      destruct Hh as [(m & Hm & Hd) _ _ _ _]. rewrite Hm in Hn. injection Hn as ->.
      by destruct (variant n).
Qed.

Lemma parse_errors_and_lines_witness :
  carries_line (ParseError "Line 2: list items must start with '- '") 2
  ∧ parse_blocks (text ["#s1 A"; "#def D"; "x"]) []
    = Raise (ParseError "Unclosed block at end of file").
Proof.
  split.
  - destruct (proj1 parse_errors_and_lines (text ["#list"; "x"]) []
                "Line 2: list items must start with '- '"
                ltac:(vm_compute; reflexivity))
      as [(k & raw & st & Hk & _ & Hfail & Hline)|[[=] _]].
    destruct k as [|[|k]]; [discriminate Hfail|exact Hline|discriminate Hk].
  - apply (proj1 (proj2 parse_errors_and_lines) (text ["#s1 A"; "#def D"; "x"]) []
             (mkState [mkNode [1%nat] (Document ∅); mkNode [2%nat] (Section_ 1 "A");
                       mkNode [3%nat] (Definition_ "D"); mkNode [] (Paragraph "x")]
                [2%nat; 1%nat; 0%nat])
             2%nat (mkNode [3%nat] (Definition_ "D")));
      [vm_compute; reflexivity| |reflexivity..].
    apply list_elem_of_In. simpl. auto.
Defined.

(** ** The returned tree *)

Lemma to_tree_S f σ r :
  to_tree (S f) σ r
  = n ← σ !! r; ks ← mapM (to_tree f σ) (children n); Some (TNode (variant n) ks).
Proof. done. Qed.

Lemma to_tree_Some f σ r t :
  to_tree f σ r = Some t ↔
  ∃ f' n ks, f = S f' ∧ σ !! r = Some n
    ∧ Forall2 (λ c k, to_tree f' σ c = Some k) (children n) ks
    ∧ t = TNode (variant n) ks.
Proof.
  destruct f as [|f']; [split; [done|by intros (? & ? & ? & ? & _)]|].
  rewrite to_tree_S. split.
  - destruct (σ !! r) as [n|]; [|done]. simpl.
    destruct (mapM (to_tree f' σ) (children n)) as [ks|] eqn:E; [|done]. simpl.
    intros [= <-]. exists f', n, ks. by apply mapM_Some in E.
  - intros (? & n & ks & [= <-] & -> & Hks & ->). simpl.
    apply mapM_Some in Hks. by rewrite Hks.
Qed.

Lemma elem_of_nodes s v ks :
  s ∈ nodes (TNode v ks) ↔ s = TNode v ks ∨ ∃ k, k ∈ ks ∧ s ∈ nodes k.
Proof.
  cbn [nodes]. rewrite elem_of_cons, list_elem_of_In, in_flat_map.
  split; (intros [?|(k & Hk & Hs)]; [by left|right; exists k]).
  - by rewrite !list_elem_of_In.
  - by rewrite <- !list_elem_of_In.
Qed.

(** Every node of the tree read from [r] is the value of a node of the
    heap made since [d], with the values of its children. *)
Lemma to_tree_nodes d σ :
  heap_ok d σ →
  ∀ f r t s, (d ≤ r)%nat → to_tree f σ r = Some t → s ∈ nodes t →
    ∃ q n, (d ≤ q)%nat ∧ σ !! q = Some n ∧ root s = variant n
      ∧ Forall2 (λ c k, ∃ m, σ !! c = Some m ∧ root k = variant m)
          (children n) (kids s).
Proof.
  intros Hh. induction f as [|f IH]; intros r t s Hr Ht Hs; [done|].
  apply to_tree_Some in Ht as (? & n & ks & [= <-] & Hn & Hks & ->).
  apply elem_of_nodes in Hs as [->|(k & Hk & Hs)].
  - exists r, n. split_and!; try done. simpl.
    eapply Forall2_impl; [done|]. simpl. intros c k Hck.
    apply to_tree_Some in Hck as (? & m & ? & _ & Hm & _ & ->). eauto.
  - apply list_elem_of_lookup in Hk as [i Hi].
    destruct (Forall2_lookup_r _ _ _ _ _ Hks Hi) as (c & Hc & Hck).
    apply (IH c k s); [|done|done].
    pose proof (hk_children _ _ Hh r n Hn Hr) as Hfwd.
    rewrite Forall_forall in Hfwd.
    assert (c ∈ children n) as Hin by (by eapply list_elem_of_lookup_2).
    specialize (Hfwd c Hin). lia.
Qed.

(** The tree below a node made since [d] can be read with as much fuel
    as there are nodes after it. *)
Lemma to_tree_total d σ :
  heap_ok d σ →
  ∀ f r, (d ≤ r < length σ)%nat → (length σ - r ≤ f)%nat →
    is_Some (to_tree f σ r).
Proof.
  intros Hh. induction f as [|f IH]; intros r Hr Hf; [lia|].
  destruct (lookup_lt_is_Some_2 σ r) as [n Hn]; [lia|].
  rewrite to_tree_S, Hn. simpl.
  assert (is_Some (mapM (to_tree f σ) (children n))) as [ks ->]; [|by eexists].
  apply mapM_is_Some.
  eapply Forall_impl; [apply (hk_children _ _ Hh r n Hn); lia|].
  simpl. intros c Hc. apply IH; lia.
Qed.

Lemma parse_blocks_Ok source h doc σ :
  parse_blocks source h = Ok (doc, σ) →
  doc = length h
  ∧ ∃ st, state_after source h (length (Str.splitlines source)) = Ok st
      ∧ objects st = σ.
Proof.
  unfold parse_blocks. rewrite state_after_all.
  destruct (run_lines _ _ _) as [st|e]; simpl; [|done].
  destruct (check_closed _ _) as [[]|e]; simpl; [|done].
  intros [= <- <-]. eauto.
Qed.

(** A parse that returns, returns a tree. *)
Lemma parse_tree_Ok source h doc σ :
  parse_blocks source h = Ok (doc, σ) →
  ∃ t, parse_tree source h = Ok t ∧ to_tree (length σ - doc) σ doc = Some t
       ∧ heap_ok doc σ.
Proof.
  intros Hp. unfold parse_tree. rewrite Hp. cbn [bind].
  destruct (parse_blocks_Ok _ _ _ _ Hp) as (-> & st & Hrun & <-).
  destruct (state_after_inv _ _ _ _ Hrun) as [Hh _].
  pose proof (heap_ok_doc_lt _ _ Hh) as Hlt.
  destruct (to_tree_total _ _ Hh (length (objects st) - length h) (length h))
    as [t Ht]; [lia|lia|].
  exists t. by rewrite Ht.
Qed.

Lemma parse_tree_inv source h t :
  parse_tree source h = Ok t →
  ∃ doc σ, parse_blocks source h = Ok (doc, σ)
    ∧ to_tree (length σ - doc) σ doc = Some t ∧ heap_ok doc σ.
Proof.
  intros Ht. destruct (parse_blocks source h) as [[doc σ]|e] eqn:Hp.
  - destruct (parse_tree_Ok _ _ _ _ Hp) as (t' & Ht' & Htree & Hh).
    rewrite Ht in Ht'. injection Ht' as <-. eauto.
  - unfold parse_tree in Ht. by rewrite Hp in Ht.
Qed.

(** ** What a ListBlock holds *)

(** C7, as stated, fails: a block opened while a ListBlock is the top of
    the stack becomes its child, and the parse still succeeds once both
    are closed. *)
Lemma list_block_gets_children :
  ¬ ∀ source h t, parse_tree source h = Ok t →
      ∀ s, s ∈ nodes t → is_ListBlock (root s) = true → kids s = [].
Proof.
  intros Hall.
  assert (parse_tree (text ["#list"; "#def T"; "#end"; "#end"]) []
          = Ok (TNode (Document ∅) [TNode (ListBlock []) [TNode (Definition_ "T") []]]))
    as Hrun by (vm_compute; reflexivity).
  specialize (Hall _ _ _ Hrun (TNode (ListBlock []) [TNode (Definition_ "T") []])).
  discriminate Hall; [|done].
  apply list_elem_of_In. simpl. auto.
Qed.

(** C7, amended. No Paragraph is ever appended to the children of a
    ListBlock: in every state of a parse, and in every returned tree, no
    child of a ListBlock is a Paragraph.  (A prose line read while a
    ListBlock is the top of the stack becomes an item or is rejected;
    the children a ListBlock does get are the blocks that directives
    open while it is the top of the stack.) *)
Theorem list_block_has_no_paragraph :
  (∀ source h k st r n,
     state_after source h k = Ok st →
     (length h ≤ r)%nat → objects st !! r = Some n →
     is_ListBlock (variant n) = true →
     Forall (λ c, ∃ m, objects st !! c = Some m ∧ is_Paragraph (variant m) = false)
       (children n))
  ∧ (∀ source h t s,
       parse_tree source h = Ok t → s ∈ nodes t →
       is_ListBlock (root s) = true →
       Forall (λ k, is_Paragraph (root k) = false) (kids s)).
Proof.
  split.
  - intros source h k st r n Hrun Hr Hn Hlb.
    destruct (state_after_inv _ _ _ _ Hrun) as [Hh _].
    by apply (hk_list _ _ Hh r n).
  - intros source h t s Ht Hs Hlb.
    destruct (parse_tree_inv _ _ _ Ht) as (doc & σ & _ & Htree & Hh).
    destruct (to_tree_nodes _ _ Hh _ _ _ s (Nat.le_refl doc) Htree Hs)
      as (q & n & Hq & Hn & Hroot & Hkids).
    rewrite Hroot in Hlb. pose proof (hk_list _ _ Hh q n Hn Hq Hlb) as Hch.
    clear -Hkids Hch. induction Hkids as [|c k cs ks (m & Hm & Hk) _ IH].
    + constructor.
    + inversion Hch as [|?? (m' & Hm' & Hpar) Hch']; subst.
      constructor; [|by apply IH]. rewrite Hk. congruence.
Qed.

Lemma list_block_has_no_paragraph_witness :
  parse_tree (text ["#list"; "#def T"; "#end"; "#end"]) []
  = Ok (TNode (Document ∅) [TNode (ListBlock []) [TNode (Definition_ "T") []]])
  ∧ Forall (λ k, is_Paragraph (root k) = false) [TNode (Definition_ "T") []].
Proof.
  split; [vm_compute; reflexivity|].
  apply (proj2 list_block_has_no_paragraph
           (text ["#list"; "#def T"; "#end"; "#end"]) []
           (TNode (Document ∅) [TNode (ListBlock []) [TNode (Definition_ "T") []]])
           (TNode (ListBlock []) [TNode (Definition_ "T") []]));
    [vm_compute; reflexivity| |reflexivity].
  apply list_elem_of_In. simpl. auto.
Defined.

(** ** Section levels *)

(** C8, as stated, fails: [#s0] opens a Section of level 0. *)
Lemma section_level_zero :
  ¬ ∀ source h t, parse_tree source h = Ok t →
      ∀ s l title, s ∈ nodes t → root s = Section_ l title → (1 ≤ l)%Z.
Proof.
  intros Hall.
  assert (parse_tree (text ["#s0 Preface"]) []
          = Ok (TNode (Document ∅) [TNode (Section_ 0 "Preface") []]))
    as Hrun by (vm_compute; reflexivity).
  specialize (Hall _ _ _ Hrun (TNode (Section_ 0 "Preface") []) 0%Z "Preface").
  assert (1 ≤ 0)%Z; [|lia].
  apply Hall; [|done]. apply list_elem_of_In. simpl. auto.
Qed.

(** C8, amended. Every Section the parser makes has a level of at least
    0: so it is for the Sections of every state of a parse, and for the
    Sections of every returned tree. *)
Theorem section_levels_nonnegative :
  (∀ source h k st r n l title,
     state_after source h k = Ok st →
     (length h ≤ r)%nat → objects st !! r = Some n →
     variant n = Section_ l title → (0 ≤ l)%Z)
  ∧ (∀ source h t s l title,
       parse_tree source h = Ok t → s ∈ nodes t →
       root s = Section_ l title → (0 ≤ l)%Z).
Proof.
  split.
  - intros source h k st r n l title Hrun Hr Hn Hv.
    destruct (state_after_inv _ _ _ _ Hrun) as [Hh _].
    by apply (hk_level _ _ Hh r n l title).
  - intros source h t s l title Ht Hs Hroot.
    destruct (parse_tree_inv _ _ _ Ht) as (doc & σ & _ & Htree & Hh).
    destruct (to_tree_nodes _ _ Hh _ _ _ s (Nat.le_refl doc) Htree Hs)
      as (q & n & Hq & Hn & Hroot' & _).
    apply (hk_level _ _ Hh q n l title); [done|done|congruence].
Qed.

Lemma section_levels_nonnegative_witness :
  parse_tree (text ["#s0 Preface"]) []
  = Ok (TNode (Document ∅) [TNode (Section_ 0 "Preface") []])
  ∧ (0 ≤ 0)%Z.
Proof.
  split; [vm_compute; reflexivity|].
  apply (proj2 section_levels_nonnegative (text ["#s0 Preface"]) []
           (TNode (Document ∅) [TNode (Section_ 0 "Preface") []])
           (TNode (Section_ 0 "Preface") []) 0%Z "Preface");
    [vm_compute; reflexivity| |reflexivity].
  apply list_elem_of_In. simpl. auto.
Defined.

(** ** The heap a parse starts in *)

Lemma tail_map {A B : Type} (f : A → B) (l : list A) : tail (map f l) = map f (tail l).
Proof. by destruct l. Qed.

(** A parse that starts in heap [h] does what it does in the empty heap,
    with every reference moved up by the length of [h]. *)
Section frame.
Variable h : list Node.

Lemma length_lift_heap σ : length (lift_heap h σ) = (length h + length σ)%nat.
Proof. unfold lift_heap. by rewrite length_app, length_map. Qed.

Lemma lookup_lift_heap σ r :
  lift_heap h σ !! (length h + r)%nat = shift_node h <$> σ !! r.
Proof.
  unfold lift_heap. rewrite lookup_app_r by lia.
  replace (length h + r - length h)%nat with r by lia.
  apply list_lookup_fmap.
Qed.

Lemma insert_lift_heap σ r n :
  <[(length h + r)%nat := shift_node h n]> (lift_heap h σ) = lift_heap h (<[r := n]> σ).
Proof.
  unfold lift_heap. rewrite insert_app_r.
  f_equal. symmetry. apply (list_fmap_insert (shift_node h)).
Qed.

Lemma lift_heap_snoc σ n :
  lift_heap h σ ++ [shift_node h n] = lift_heap h (σ ++ [n]).
Proof. unfold lift_heap. by rewrite map_app, app_assoc. Qed.

Lemma deref_lift σ r :
  deref (lift_heap h σ) (length h + r) = rmap (shift_node h) (deref σ r).
Proof. unfold deref. rewrite lookup_lift_heap. by destruct (σ !! r). Qed.

Lemma top_lift stk :
  top (map (Nat.add (length h)) stk) = rmap (Nat.add (length h)) (top stk).
Proof. by destruct stk. Qed.

Lemma append_child_lift σ p c :
  append_child (lift_heap h σ) (length h + p) (length h + c)
  = rmap (lift_heap h) (append_child σ p c).
Proof.
  unfold append_child. rewrite deref_lift.
  destruct (deref σ p) as [n|e]; simpl; [|done].
  f_equal. rewrite <- insert_lift_heap. f_equal.
  unfold shift_node. simpl. by rewrite map_app.
Qed.

Lemma open_node_lift v st :
  open_node v (lift h st) = rmap (lift h) (open_node v st).
Proof.
  unfold open_node, lift. cbn [objects stack].
  rewrite top_lift. destruct (top (stack st)) as [p|e]; simpl; [|done].
  rewrite length_lift_heap.
  change (mkNode [] v) with (shift_node h (mkNode [] v)) at 1.
  rewrite lift_heap_snoc, append_child_lift.
  by destruct (append_child _ p _).
Qed.

Lemma pop_sections_lift σ level stk :
  pop_sections (lift_heap h σ) level (map (Nat.add (length h)) stk)
  = rmap (map (Nat.add (length h))) (pop_sections σ level stk).
Proof.
  induction stk as [|a [|b rest] IH]; [done|done|].
  change (map (Nat.add (length h)) (a :: b :: rest))
    with ((length h + a)%nat :: (length h + b)%nat :: map (Nat.add (length h)) rest).
  cbn [pop_sections]. rewrite deref_lift.
  destruct (deref σ a) as [n|e]; simpl; [|done].
  destruct (variant n); try done.
  destruct (level <=? _)%Z; [|done]. apply IH.
Qed.

Lemma handle_command_lift line lineno st :
  _handle_command line lineno (lift h st) = rmap (lift h) (_handle_command line lineno st).
Proof.
  unfold _handle_command. destruct (directive line) as [[cmd arg]|e]; [|done].
  cbn [bind].
  change (objects (lift h st)) with (lift_heap h (objects st)).
  change (stack (lift h st)) with (map (Nat.add (length h)) (stack st)).
  rewrite top_lift.
  destruct (top (stack st)) as [p|e]; [|done]. cbn [rmap bind].
  rewrite length_map, deref_lift.
  destruct (String.eqb cmd "end").
  { destruct (length (stack st) =? 1)%nat; [done|].
    destruct (deref (objects st) p) as [n|e]; [|done]. cbn [rmap bind shift_node variant].
    destruct (is_Section (variant n)); [done|]. cbn [rmap]. unfold lift. cbn [objects stack].
    by destruct (stack st). }
  destruct (Str.startswith "s" cmd && Str.isdigit (Str.slice_from 1 cmd)).
  { destruct (Str.int (Str.slice_from 1 cmd)) as [level|]; [|done].
    rewrite pop_sections_lift.
    destruct (pop_sections (objects st) level (stack st)) as [stk|e]; [|done].
    cbn [rmap bind]. apply (open_node_lift _ (mkState (objects st) stk)). }
  destruct (String.eqb cmd "list"); [apply open_node_lift|].
  destruct (String.eqb cmd "def"); [apply open_node_lift|].
  destruct (String.eqb cmd "thm"); [apply open_node_lift|].
  destruct (deref (objects st) p) as [n|e]; [|done]. cbn [rmap bind shift_node variant].
  destruct (variant n) as [metadata| | | | |] eqn:Hv; try done.
  cbn [rmap]. unfold lift. cbn [objects stack]. do 2 f_equal.
  by rewrite <- insert_lift_heap.
Qed.

Lemma handle_text_lift line lineno st :
  _handle_text line lineno (lift h st) = rmap (lift h) (_handle_text line lineno st).
Proof.
  unfold _handle_text. destruct (Str.is_empty (Str.strip line)); [done|].
  change (objects (lift h st)) with (lift_heap h (objects st)).
  change (stack (lift h st)) with (map (Nat.add (length h)) (stack st)).
  rewrite top_lift.
  destruct (top (stack st)) as [p|e]; [|done]. cbn [rmap bind].
  rewrite deref_lift.
  destruct (deref (objects st) p) as [n|e]; [|done]. cbn [rmap bind shift_node variant].
  assert (∀ text,
    (σ ←' append_child (lift_heap h (objects st) ++ [mkNode [] (Paragraph text)])
            (length h + p) (length (lift_heap h (objects st)));
     Ok (mkState σ (map (Nat.add (length h)) (stack st))))
    = rmap (lift h)
        (σ ←' append_child (objects st ++ [mkNode [] (Paragraph text)]) p
                (length (objects st));
         Ok (mkState σ (stack st)))) as Hpar.
  { intros text. rewrite length_lift_heap.
    change (mkNode [] (Paragraph text)) with (shift_node h (mkNode [] (Paragraph text))) at 1.
    rewrite lift_heap_snoc, append_child_lift.
    by destruct (append_child _ p _). }
  destruct (variant n) as [| | |items| |] eqn:Hv; try apply Hpar.
  destruct (negb (Str.startswith "- " line)); [done|].
  cbn [rmap]. unfold lift. cbn [objects stack]. do 2 f_equal.
  by rewrite <- insert_lift_heap.
Qed.

Lemma step_lift raw lineno st :
  step raw lineno (lift h st) = rmap (lift h) (step raw lineno st).
Proof.
  unfold step. destruct (Str.startswith "#" (Str.rstrip raw)).
  - apply handle_command_lift.
  - apply handle_text_lift.
Qed.

Lemma run_lines_lift lines lineno st :
  run_lines lines lineno (lift h st) = rmap (lift h) (run_lines lines lineno st).
Proof.
  revert lineno st. induction lines as [|raw lines IH]; intros lineno st; [done|].
  simpl. rewrite step_lift. destruct (step raw lineno st) as [st'|e]; simpl; [|done].
  apply IH.
Qed.

Lemma initial_lift : initial h = lift h (initial []).
Proof.
  unfold initial, lift, lift_heap. simpl. by rewrite Nat.add_0_r.
Qed.

Lemma check_closed_lift σ open :
  check_closed (lift_heap h σ) (map (Nat.add (length h)) open) = check_closed σ open.
Proof.
  induction open as [|r open IH]; [done|].
  cbn [map check_closed]. rewrite deref_lift.
  destruct (deref σ r) as [n|e]; simpl; [|done].
  by destruct (is_container (variant n)).
Qed.

Lemma to_tree_lift f σ r :
  to_tree f (lift_heap h σ) (length h + r) = to_tree f σ r.
Proof.
  revert r. induction f as [|f IH]; intros r; [done|].
  rewrite !to_tree_S, lookup_lift_heap.
  destruct (σ !! r) as [n|]; [|done]. simpl.
  assert (mapM (to_tree f (lift_heap h σ)) (map (Nat.add (length h)) (children n))
          = mapM (to_tree f σ) (children n)) as ->; [|done].
  induction (children n) as [|c cs IHc]; [done|].
  cbn [map mapM]. by rewrite IH, IHc.
Qed.

Lemma state_after_lift source k :
  state_after source h k = rmap (lift h) (state_after source [] k).
Proof. unfold state_after. rewrite initial_lift. apply run_lines_lift. Qed.

Lemma parse_blocks_lift source :
  parse_blocks source h
  = rmap (λ '(doc, σ), ((length h + doc)%nat, lift_heap h σ)) (parse_blocks source []).
Proof.
  unfold parse_blocks. rewrite initial_lift, run_lines_lift.
  destruct (run_lines _ 1 (initial [])) as [st|e]; [|done].
  cbn [rmap bind]. unfold lift at 1 2. cbn [objects stack].
  rewrite <- map_rev, tail_map, check_closed_lift.
  destruct (check_closed _ _) as [[]|e]; [|done].
  simpl. by rewrite Nat.add_0_r.
Qed.

Lemma parse_tree_lift source : parse_tree source h = parse_tree source [].
Proof.
  unfold parse_tree. rewrite parse_blocks_lift.
  destruct (parse_blocks source []) as [[doc σ]|e]; [|done].
  cbn [rmap bind]. rewrite length_lift_heap, to_tree_lift.
  by replace (length h + length σ - (length h + doc))%nat with (length σ - doc)%nat by lia.
Qed.

End frame.

(** ** Determinism *)

(** Reading the tree never fails: a parse raises for the caller exactly
    what the parser raises. *)
Lemma parse_tree_Raise source h e :
  parse_tree source h = Raise e ↔ parse_blocks source h = Raise e.
Proof.
  destruct (parse_blocks source h) as [[doc σ]|e'] eqn:Hp.
  - destruct (parse_tree_Ok _ _ _ _ Hp) as (t & -> & _). by split.
  - unfold parse_tree. rewrite Hp. cbn [bind]. split; by intros [= ->].
Qed.

(** C9. What a call of the parser gives the caller -- the tree of the
    returned Document, or the exception -- depends on the source text
    alone, not on the heap the call starts in: two calls on the same
    text, the second in the heap the first has left or in any other,
    give equal trees or the same exception. *)
Theorem parse_is_deterministic source h1 h2 :
  parse_tree source h1 = parse_tree source h2
  ∧ (∀ e, parse_blocks source h1 = Raise e ↔ parse_blocks source h2 = Raise e)
  ∧ (∀ doc σ, parse_blocks source h1 = Ok (doc, σ) →
       parse_tree source σ = parse_tree source h1).
Proof.
  assert (∀ h h', parse_tree source h = parse_tree source h') as Heq.
  { intros h h'. by rewrite (parse_tree_lift h), (parse_tree_lift h'). }
  split_and!; [apply Heq| |intros; apply Heq].
  intros e. by rewrite <- !parse_tree_Raise, (Heq h1 h2).
Qed.

Lemma parse_is_deterministic_witness :
  parse_tree (text ["#s1 A"; "x"])
    [mkNode [1%nat] (Document ∅); mkNode [2%nat] (Section_ 1 "A");
     mkNode [] (Paragraph "x")]
  = parse_tree (text ["#s1 A"; "x"]) [].
Proof.
  apply (proj2 (proj2 (parse_is_deterministic (text ["#s1 A"; "x"]) [] []))
           0%nat).
  vm_compute. reflexivity.
Defined.

(** ** The bottom of the stack *)

Lemma check_closed_ensures σ open :
  Forall (λ r, is_Some (σ !! r)) open → ensures (λ _, True) (check_closed σ open).
Proof.
  induction 1 as [|r open [n Hn] _ IH]; [done|].
  simpl. unfold deref. rewrite Hn. simpl.
  by destruct (is_container (variant n)).
Qed.

(** The parser raises nothing but [ParseError] and [ValueError]: no
    access to the stack, to the parts of a directive or to a node
    fails. *)
Lemma parse_blocks_never_stuck source h : ensures (λ _, True) (parse_blocks source h).
Proof.
  unfold parse_blocks.
  eapply ensures_bind; [apply (run_lines_ensures (length h)), inv_initial|].
  intros st Hinv. eapply ensures_bind; [|done].
  apply check_closed_ensures, Forall_forall. intros r Hr.
  apply lookup_lt_is_Some_2.
  pose proof (inv_stack_lt _ _ Hinv) as Hlt. rewrite Forall_forall in Hlt.
  apply Hlt. destruct (stack st) as [|a stk] eqn:E using rev_ind; [by inversion Hr|].
  rewrite rev_app_distr in Hr. cbn [rev app tail] in Hr.
  apply elem_of_app. left. by apply elem_of_rev.
Qed.

(** C10. In every parse that starts in heap [h]:
    - the first state has the new Document, at reference [length h],
      alone on the stack;
    - in every state the stack is not empty, its bottom is that
      reference, which still holds a Document, and no node above the
      bottom is a Document;
    - no access to the top of the stack fails: neither a state of the
      parse nor its result is [IndexError] (or a dangling reference);
    - and when the parser returns, it returns that reference, which is
      the bottom of the final stack and holds a Document. *)
Theorem document_stays_at_bottom source h :
  state_after source h 0 = Ok (mkState (h ++ [mkNode [] (Document ∅)]) [length h])
  ∧ (∀ k st, state_after source h k = Ok st →
       ∃ above n,
         stack st = above ++ [length h]
         ∧ (∃ p, top (stack st) = Ok p)
         ∧ objects st !! length h = Some n ∧ is_Document (variant n) = true
         ∧ Forall (λ r, ∃ m, objects st !! r = Some m
                          ∧ is_Document (variant m) = false) above)
  ∧ (∀ k, state_after source h k ≠ Raise IndexError
          ∧ state_after source h k ≠ Raise Dangling)
  ∧ parse_blocks source h ≠ Raise IndexError
  ∧ parse_blocks source h ≠ Raise Dangling
  ∧ (∀ doc σ, parse_blocks source h = Ok (doc, σ) →
       doc = length h
       ∧ ∃ st n, state_after source h (length (Str.splitlines source)) = Ok st
           ∧ objects st = σ ∧ last (stack st) = Some doc
           ∧ σ !! doc = Some n ∧ is_Document (variant n) = true).
Proof.
  split_and!.
  - done.
  - intros k st Hrun. destruct (state_after_inv _ _ _ _ Hrun) as [Hh Hs].
    destruct (hk_doc _ _ Hh) as (n & Hn & Hd).
    destruct (sk_bottom _ _ _ Hs) as (above & Hstk & Habove).
    exists above, n. split_and!; try done.
    + rewrite Hstk. destruct above; simpl; eauto.
    + eapply Forall_impl; [done|]. simpl. intros r Hr.
      destruct (lookup_lt_is_Some_2 (objects st) r) as [m Hm]; [lia|].
      exists m. split; [done|]. apply (hk_single _ _ Hh r m Hm). lia.
  - intros k.
    pose proof (run_lines_ensures (length h) (take k (Str.splitlines source)) 1
                  (initial h) (inv_initial h)) as Hens.
    unfold state_after. by destruct (run_lines _ _ _) as [?|[]].
  - pose proof (parse_blocks_never_stuck source h) as Hens.
    by destruct (parse_blocks source h) as [?|[]].
  - pose proof (parse_blocks_never_stuck source h) as Hens.
    by destruct (parse_blocks source h) as [?|[]].
  - intros doc σ Hp. destruct (parse_blocks_Ok _ _ _ _ Hp) as (-> & st & Hrun & <-).
    split; [done|]. destruct (state_after_inv _ _ _ _ Hrun) as [Hh Hs].
    destruct (hk_doc _ _ Hh) as (n & Hn & Hd).
    exists st, n. split_and!; try done. by eapply stack_ok_last.
Qed.

Lemma document_stays_at_bottom_witness :
  ∃ above n,
    [3%nat; 1%nat; 0%nat] = above ++ [0%nat]
    ∧ (∃ p, top [3%nat; 1%nat; 0%nat] = Ok p)
    ∧ [mkNode [1%nat] (Document ∅); mkNode [2%nat; 3%nat] (Section_ 1 "A");
       mkNode [] (Paragraph "x"); mkNode [] (ListBlock [])] !! 0%nat = Some n
    ∧ is_Document (variant n) = true
    ∧ Forall (λ r, ∃ m,
                [mkNode [1%nat] (Document ∅); mkNode [2%nat; 3%nat] (Section_ 1 "A");
                 mkNode [] (Paragraph "x"); mkNode [] (ListBlock [])] !! r = Some m
                ∧ is_Document (variant m) = false) above.
Proof.
  apply (proj1 (proj2 (document_stays_at_bottom (text ["#s1 A"; "x"; "#list"]) []))
           3%nat
           (mkState [mkNode [1%nat] (Document ∅); mkNode [2%nat; 3%nat] (Section_ 1 "A");
                     mkNode [] (Paragraph "x"); mkNode [] (ListBlock [])]
              [3%nat; 1%nat; 0%nat])).
  vm_compute. reflexivity.
Defined.

(** ** Other command words *)

Lemma eqb_false_of_ne (s t : string) : s ≠ t → String.eqb s t = false.
Proof. intros Hne. by apply String.eqb_neq. Qed.

(** A command word that is not [end], [list], [def] or [thm] and that
    the Section test of line 65 rejects is a metadata key when the top
    of the stack is the Document -- which is when the stack holds the
    Document alone -- and an unknown command otherwise. *)
Lemma other_directive source h k st raw cmd arg :
  state_after source h k = Ok st →
  Str.splitlines source !! k = Some raw →
  Str.startswith "#" (Str.rstrip raw) = true →
  directive (Str.rstrip raw) = Ok (cmd, arg) →
  cmd ≠ "end" → cmd ≠ "list" → cmd ≠ "def" → cmd ≠ "thm" →
  Str.startswith "s" cmd && Str.isdigit (Str.slice_from 1 cmd) = false →
  ∃ p rest n,
    stack st = p :: rest ∧ objects st !! p = Some n
    ∧ (is_Document (variant n) = true ↔ rest = [])
    ∧ (∀ metadata, variant n = Document metadata →
       state_after source h (S k)
       = Ok (mkState
               (<[p := mkNode (children n) (Document (<[cmd := arg]> metadata))]>
                  (objects st))
               (stack st)))
    ∧ (is_Document (variant n) = false →
       state_after source h (S k)
       = Raise (ParseError (line_prefix (Z.of_nat k + 1)
                            +:+ "unknown command #" +:+ cmd))).
Proof.
  intros Hrun Hk Hm Hdir Hend Hlist Hdef Hthm Hsec.
  pose proof (state_after_inv _ _ _ _ Hrun) as Hinv.
  destruct (inv_top _ _ Hinv) as (p & rest & n & Hstk & Hp & Hdp).
  assert (state_after source h (S k)
          = match variant n with
            | Document metadata =>
                Ok (mkState
                      (<[p := mkNode (children n) (Document (<[cmd := arg]> metadata))]>
                         (objects st))
                      (stack st))
            | _ => Raise (ParseError (line_prefix (Z.of_nat k + 1)
                                      +:+ "unknown command #" +:+ cmd))
            end) as Hstep.
  { enter_command Hk Hrun Hm Hdir. rewrite Hstk at 1. cbn [top bind].
    rewrite (eqb_false_of_ne _ _ Hend), Hsec, (eqb_false_of_ne _ _ Hlist),
      (eqb_false_of_ne _ _ Hdef), (eqb_false_of_ne _ _ Hthm).
    unfold deref. by rewrite Hp. }
  exists p, rest, n. split_and!; [done|done| | |].
  - destruct Hinv as [Hh Hs]. split.
    + intros Hd. destruct (decide (p = length h)) as [->|Hne].
      * destruct Hs as [(above & Habove & Hgt) _]. rewrite Hstk in Habove.
        destruct above as [|a above]; [by injection Habove|].
        injection Habove as <- _. inversion Hgt; subst. lia.
      * rewrite (hk_single _ _ Hh p n Hp) in Hd; [done|lia].
    + intros ->. apply stack_ok_last in Hs. rewrite Hstk in Hs. simpl in Hs.
      injection Hs as ->. destruct (hk_doc _ _ Hh) as (m & Hm' & Hd). congruence.
  - intros metadata Hv. by rewrite Hstep, Hv.
  - intros Hd. rewrite Hstep. by destruct (variant n).
Qed.

Lemma int_from_nondecimal ds acc :
  Str.all Str.isdecimal ds = false → Str.int_from acc ds = None.
Proof.
  revert acc. induction ds as [|c r IH]; simpl; intros acc; [done|].
  destruct (Str.isdecimal c); simpl; [apply IH|done].
Qed.

(** The Section test of line 65 accepts what [int()] rejects: a command
    word "s" followed by characters that all pass [isdigit], one of them
    no decimal digit, ends the parse in [ValueError], whatever is
    open. *)
Lemma nondecimal_level_raises_ValueError source h k st raw ds arg :
  state_after source h k = Ok st →
  Str.splitlines source !! k = Some raw →
  Str.startswith "#" (Str.rstrip raw) = true →
  directive (Str.rstrip raw) = Ok (String "s" ds, arg) →
  Str.isdigit ds = true →
  Str.all Str.isdecimal ds = false →
  state_after source h (S k) = Raise ValueError.
Proof.
  intros Hrun Hk Hm Hdir Hdig Hdec.
  destruct (inv_top _ _ (state_after_inv _ _ _ _ Hrun)) as (p & rest & n & Hstk & _).
  enter_command Hk Hrun Hm Hdir. rewrite Hstk. cbn [top bind].
  change (String.eqb (String "s" ds) "end") with false. cbv iota.
  change (Str.startswith "s" (String "s" ds)) with true.
  change (Str.slice_from 1 (String "s" ds)) with ds.
  rewrite Hdig. cbn [andb]. unfold Str.int.
  destruct (Str.is_empty ds); [done|].
  destruct (Str.max_str_digits <? _)%Z; [done|]. by rewrite int_from_nondecimal.
Qed.

(** C6, where the code departs from it. The command word of the line
    [#s² x] is "s²": it is not [end], [list], [def] or [thm], and what
    follows its "s" is no decimal digit, so at document scope it should
    become a metadata key.  But [isdigit] accepts the superscript, the
    Section branch is taken, [int()] rejects the superscript, and the
    parse ends in [ValueError]. *)
Theorem superscript_level_raises_ValueError :
  directive (String "#" (String "s" (String superscript_two " x")))
  = Ok (String "s" (String superscript_two ""), "x")
  ∧ Str.all Str.isdecimal (String superscript_two "") = false
  ∧ Str.isdigit (String superscript_two "") = true
  ∧ parse_blocks (String "#" (String "s" (String superscript_two " x"))) []
    = Raise ValueError.
Proof. split_and!; vm_compute; reflexivity. Qed.

(** For contrast, the same line with a letter in place of the
    superscript stores the metadata entry. *)
Example other_directive_example :
  parse_tree (text ["#sx Jane"; "#sx Joe"; "#author Ann"]) []
  = Ok (TNode (Document (<["author" := "Ann"]> (<["sx" := "Joe"]> ∅))) [])
  ∧ parse_tree (text ["#s1 A"; "#author Ann"]) []
    = Raise (ParseError "Line 2: unknown command #author").
Proof. split; vm_compute; reflexivity. Qed.

(** * Further properties *)

(** ** Steps *)

Lemma open_node_Ok v st st' :
  Forall (λ r, (r < length (objects st))%nat) (stack st) →
  open_node v st = Ok st' →
  ∃ p rest n, stack st = p :: rest ∧ objects st !! p = Some n
    ∧ st' = mkState (grow (objects st) p n v) (length (objects st) :: p :: rest).
Proof.
  intros Hlt. destruct st as [σ [|p rest]]; [done|]. cbn [objects stack] in *.
  inversion Hlt as [|?? Hp _]; subst.
  destruct (lookup_lt_is_Some_2 σ p Hp) as [n Hn].
  rewrite (open_node_eq _ _ _ _ _ Hn). intros [= <-]. by exists p, rest, n.
Qed.

(** A line that goes through is one of the six steps, and the step is
    the one the line stands for. *)
Lemma step_Ok_transition d raw lineno st st' :
  inv d st → step raw lineno st = Ok st' →
  ∃ ev, reads (Str.rstrip raw) ev ∧ transition st ev st'.
Proof.
  intros Hinv. pose proof (inv_stack_lt _ _ Hinv) as Hlt.
  destruct (inv_top _ _ Hinv) as (p & rest & n & Hstk & Hp & _).
  unfold step. destruct (Str.startswith "#" (Str.rstrip raw)) eqn:Hm.
  - unfold _handle_command.
    destruct (directive (Str.rstrip raw)) as [[cmd arg]|e] eqn:Hdir; [|done].
    cbn [bind]. rewrite Hstk. cbn [top bind]. unfold deref. rewrite Hp. cbn [bind].
    destruct (String.eqb_spec cmd "end") as [->|_].
    { destruct rest as [|q rest]; [done|]. cbn [length Nat.eqb].
      destruct (is_Section (variant n)) eqn:Hsec; [done|]. intros [= <-].
      exists Close. split; [split; eauto|]. by eapply t_close. }
    destruct (Str.startswith "s" cmd && Str.isdigit (Str.slice_from 1 cmd)) eqn:Htest.
    { apply andb_true_iff in Htest as [Hs _].
      destruct (Str.int (Str.slice_from 1 cmd)) as [level|] eqn:Hint; [|done].
      pose proof Hlt as Hlt'. rewrite Hstk in Hlt'.
      destruct (pop_sections_spec (objects st) level (p :: rest) Hlt')
        as (popped & kept & E & -> & Hpopped & Hkept & Hstop).
      cbn [bind]. pose proof Hinv as Hinv'. destruct st as [σ stk].
      cbn [objects stack] in *. subst stk. rewrite E in Hinv'.
      destruct (inv_after_pop _ _ level _ _ Hinv' (Hkept ltac:(done)) Hstop)
        as (p' & rest' & n' & -> & Hp' & _ & Hlow).
      rewrite (open_node_eq _ _ _ _ _ Hp'). intros [= <-].
      exists (Open (Section_ level arg)). split.
      - split; [done|]. exists cmd, arg. split; [done|]. left. eauto.
      - apply (t_open (mkState σ (p :: rest)) (Section_ level arg) popped p' rest' n');
          try done.
        + eapply Forall_impl; [done|]. simpl. intros r (l & -> & _). by eexists.
        + intros l title [= <- <-]. by split. }
    assert (∀ v, opens v →
              (cmd = "list" ∧ v = ListBlock []) ∨ (cmd = "def" ∧ v = Definition_ arg)
              ∨ (cmd = "thm" ∧ v = Theorem_ arg) →
              open_node v st = Ok st' →
              ∃ ev, reads (Str.rstrip raw) ev ∧ transition st ev st') as Hblock.
    { intros v Hv Hcmd Hopen.
      apply open_node_Ok in Hopen as (p' & rest' & n' & Hk & Hp' & ->); [|done].
      exists (Open v). split.
      - split; [done|]. exists cmd, arg. split; [done|]. by right.
      - apply (t_open st v [] p' rest' n'); try done.
        intros l title ->. by destruct Hcmd as [[_ [=]]|[[_ [=]]|[_ [=]]]]. }
    destruct (String.eqb_spec cmd "list") as [->|_];
      [by apply Hblock; [exact I|auto]|].
    destruct (String.eqb_spec cmd "def") as [->|_];
      [by apply Hblock; [exact I|auto]|].
    destruct (String.eqb_spec cmd "thm") as [->|_];
      [by apply Hblock; [exact I|auto]|].
    destruct (variant n) as [metadata| | | | |] eqn:Hv; try done.
    intros [= <-]. exists (Meta cmd arg). split; [done|].
    rewrite <- Hstk. by apply (t_meta st cmd arg p rest n metadata).
  - unfold _handle_text.
    destruct (Str.is_empty (Str.strip (Str.rstrip raw))) eqn:Hblank.
    { intros [= <-]. exists Skip. split; [done|constructor]. }
    rewrite Hstk. cbn [top bind]. unfold deref. rewrite Hp. cbn [bind].
    assert (is_ListBlock (variant n) = false →
            (σ ←' append_child (objects st ++ [mkNode [] (Paragraph (Str.rstrip raw))])
                    p (length (objects st));
             Ok (mkState σ (p :: rest))) = Ok st' →
            ∃ ev, reads (Str.rstrip raw) ev ∧ transition st ev st') as Hpara.
    { intros Hlb. rewrite (append_child_grow _ _ _ _ Hp). cbn [bind]. intros [= <-].
      exists (Para (Str.rstrip raw)). split; [done|].
      rewrite <- Hstk. by apply (t_para st (Str.rstrip raw) p rest n). }
    destruct (variant n) as [| | |items| |] eqn:Hv; try (by apply Hpara).
    destruct (Str.startswith "- " (Str.rstrip raw)) eqn:Hitem; [|done].
    cbn [negb]. intros [= <-]. exists (Item (Str.slice_from 2 (Str.rstrip raw))).
    split; [done|]. rewrite <- Hstk.
    by apply (t_item st (Str.slice_from 2 (Str.rstrip raw)) p rest n items).
Qed.

(** A property of states that the six steps keep holds of every state a
    run passes through. *)
Lemma run_lines_invariant d (P : State → Prop) :
  (∀ raw st ev st',
     inv d st → P st → reads (Str.rstrip raw) ev → transition st ev st' → P st') →
  ∀ lines lineno st st',
    inv d st → P st → run_lines lines lineno st = Ok st' → P st'.
Proof.
  intros Hkeep. induction lines as [|raw lines IH]; intros lineno st st' Hinv HP.
  - by intros [= <-].
  - simpl. destruct (step raw lineno st) as [st1|e] eqn:Hstep; [|done]. cbn [bind].
    pose proof (step_ensures d raw lineno st Hinv) as Hinv1. rewrite Hstep in Hinv1.
    destruct (step_Ok_transition _ _ _ _ _ Hinv Hstep) as (ev & Hev & Htr).
    apply (IH _ st1); [done|]. by apply (Hkeep raw st ev st1).
Qed.

Lemma state_after_invariant (P : State → Prop) source h :
  (∀ raw st ev st',
     inv (length h) st → P st → reads (Str.rstrip raw) ev → transition st ev st' →
     P st') →
  P (initial h) →
  ∀ k st, state_after source h k = Ok st → P st.
Proof.
  intros Hkeep H0 k st Hrun.
  by apply (run_lines_invariant (length h) P Hkeep _ _ _ _ (inv_initial h) H0 Hrun).
Qed.

(** The lines from [k] on are processed in the state after line [k]. *)
Lemma state_after_rest source h k st :
  state_after source h k = Ok st →
  run_lines (Str.splitlines source) 1 (initial h)
  = run_lines (drop k (Str.splitlines source))
      (1 + Z.of_nat (length (take k (Str.splitlines source)))) st.
Proof.
  unfold state_after. intros Hrun.
  rewrite <- (take_drop k (Str.splitlines source)) at 1.
  by rewrite run_lines_app, Hrun.
Qed.

(** ** Lookups after a step *)

Lemma lookup_grow_parent σ p n v :
  σ !! p = Some n →
  grow σ p n v !! p = Some (mkNode (children n ++ [length σ]) (variant n)).
Proof. intros Hp. apply lookup_grow; auto. Qed.

Lemma lookup_grow_new σ p n v :
  σ !! p = Some n → grow σ p n v !! length σ = Some (mkNode [] v).
Proof. intros Hp. apply lookup_grow; auto. Qed.

Lemma lookup_grow_ne σ p n v b :
  σ !! p = Some n → b ≠ p → (b < length σ)%nat → grow σ p n v !! b = σ !! b.
Proof.
  intros Hp Hne Hlt. unfold grow.
  rewrite list_lookup_insert_ne by done. by apply lookup_app_l.
Qed.

Lemma lookup_amend_eq σ r n v :
  σ !! r = Some n → amend σ r n v !! r = Some (mkNode (children n) v).
Proof. intros Hr. apply lookup_amend; auto. Qed.

Lemma lookup_amend_ne σ r n v b : b ≠ r → amend σ r n v !! b = σ !! b.
Proof. intros Hne. unfold amend. by apply list_lookup_insert_ne. Qed.

Lemma evolves_sec_level σ σ' r :
  evolves σ σ' → is_Some (sec_level σ r) → is_Some (sec_level σ' r).
Proof.
  unfold sec_level. intros Hev. destruct (σ !! r) as [m|] eqn:E; [|by intros [? [=]]].
  destruct (Hev _ _ E) as (m' & -> & Hc).
  destruct (variant m), (variant m'); simpl in Hc; try done; by intros [? [=]].
Qed.

Lemma evolves_container σ σ' r :
  evolves σ σ' → container_at σ r → container_at σ' r.
Proof.
  intros Hev (n & Hn & Hc). destruct (Hev _ _ Hn) as (n' & Hn' & Hcl).
  exists n'. split; [done|].
  destruct (variant n), (variant n'); simpl in Hcl; try done.
Qed.

Lemma sec_level_not_container σ r :
  is_Some (sec_level σ r) → container_at σ r → False.
Proof.
  unfold sec_level. intros [l Hl] (n & Hn & Hc). rewrite Hn in Hl.
  by destruct (variant n).
Qed.

(** The heap after a step holds the nodes of the heap before it, each
    with its class. *)
Lemma transition_evolves st ev st' :
  transition st ev st' → evolves (objects st) (objects st').
Proof.
  destruct 1 as [|t q rest n Hstk Ht Hsec|v popped p rest n Hstk Hp Hpop Hne Hv
                 |item p rest n items Hstk Hp Hv|key value p rest n m Hstk Hp Hv
                 |text p rest n Hstk Hp Hlb]; cbn [objects].
  - intros r m Hm. exists m. split; [done|apply same_class_refl].
  - intros r m Hm. exists m. split; [done|apply same_class_refl].
  - by apply evolves_grow.
  - apply evolves_amend; [done|]. by rewrite Hv.
  - apply evolves_amend; [done|]. by rewrite Hv.
  - by apply evolves_grow.
Qed.

(** ** The path of last children *)

Lemma spine_tail σ a rest : spine σ (a :: rest) → spine σ rest.
Proof. by intros [_ ?]. Qed.

Lemma spine_suffix σ popped kept : spine σ (popped ++ kept) → spine σ kept.
Proof.
  induction popped as [|a popped IH]; [done|].
  intros H. apply IH. by eapply spine_tail.
Qed.

Lemma spine_below σ a rest : spine σ (a :: rest) → Forall (λ b, (b < a)%nat) rest.
Proof.
  revert a. induction rest as [|b rest IH]; intros a; [constructor|].
  intros [[Hlt _] Hrest]. constructor; [done|].
  eapply Forall_impl; [by apply IH|]. simpl. lia.
Qed.

Lemma spine_ext σ σ' stk :
  (∀ b, b ∈ tail stk → σ' !! b = σ !! b) → spine σ stk → spine σ' stk.
Proof.
  induction stk as [|a [|b rest] IH]; [done|done|].
  intros Hsame [(Hlt & n & Hn & Hlast) Hrest]. split.
  - split; [done|]. exists n. split; [|done].
    rewrite Hsame; [done|]. simpl. left.
  - apply IH; [|done]. intros c Hc. apply Hsame. simpl. by right.
Qed.

Lemma spine_push σ p rest a :
  spine σ (p :: rest) → (p < a)%nat →
  (∃ n, σ !! p = Some n ∧ last (children n) = Some a) →
  spine σ (a :: p :: rest).
Proof. intros Hs Hlt Hlast. by split. Qed.

(** ** Containers below a Section *)

(** A container that lies directly below a Section on the stack lies
    directly below a Section after every step: the Section above it can
    only be replaced by another Section, and the container cannot be
    closed. *)
Lemma covered_step st ev st' r :
  transition st ev st' →
  container_at (objects st) r →
  covered (objects st) (stack st) r →
  covered (objects st') (stack st') r.
Proof.
  intros Htr Hcont (i & s & Hi & Hr & Hs).
  pose proof (transition_evolves _ _ _ Htr) as Hev.
  pose proof (evolves_sec_level _ _ s Hev Hs) as Hs'.
  destruct Htr as [|t q rest n Hstk Ht Hsec|v popped p rest n Hstk Hp Hpop Hne Hv
                   |item p rest n items Hstk Hp Hv|key value p rest n m Hstk Hp Hv
                   |text p rest n Hstk Hp Hlb]; cbn [objects stack] in *;
    try (by exists i, s).
  - rewrite Hstk in Hi, Hr. destruct i as [|i].
    + simpl in Hi. injection Hi as <-. exfalso.
      unfold sec_level in Hs. rewrite Ht in Hs. destruct Hs as [l Hl].
      by destruct (variant n).
    + by exists i, s.
  - rewrite Hstk in Hi, Hr.
    destruct (decide (S i < length popped)%nat) as [Hin|Hout].
    + exfalso. rewrite lookup_app_l in Hr by done.
      rewrite Forall_forall in Hpop.
      apply (sec_level_not_container (objects st) r); [|done].
      apply Hpop. by eapply list_elem_of_lookup_2.
    + destruct (decide (S i = length popped)) as [Heq|Hgt].
      * rewrite lookup_app_r in Hr by lia.
        replace (S i - length popped)%nat with 0%nat in Hr by lia.
        simpl in Hr. injection Hr as <-.
        exists 0%nat, (length (objects st)). split_and!; [done|done|].
        assert (is_Section v = true) as Hsec.
        { apply Hne. intros ->. simpl in Heq. lia. }
        unfold sec_level. rewrite (lookup_grow_new _ _ _ _ Hp). simpl.
        by destruct v.
      * rewrite lookup_app_r in Hi by lia. rewrite lookup_app_r in Hr by lia.
        replace (S i - length popped)%nat with (S (i - length popped)) in Hr by lia.
        by exists (S (i - length popped)), s.
Qed.

(** ** The shape invariant *)

Lemma shape_ok_initial h : shape_ok (length h) (initial h).
Proof.
  assert (∀ r n, objects (initial h) !! r = Some n → (length h ≤ r)%nat →
                 n = mkNode [] (Document ∅)) as Hnew.
  { intros r n Hr Hle. simpl in Hr. rewrite lookup_app_r in Hr by done.
    destruct (r - length h)%nat as [|k]; simpl in Hr; [congruence|done]. }
  split.
  - done.
  - intros r n Hr Hn. simpl in Hr. apply list_elem_of_singleton in Hr as ->.
    by rewrite (Hnew _ _ Hn).
  - intros r n Hr Hn. by rewrite (Hnew _ _ Hn Hr).
  - intros r n c Hr Hn. by rewrite (Hnew _ _ Hn Hr).
Qed.

Lemma spine_step d st ev st' :
  inv d st → spine (objects st) (stack st) → transition st ev st' →
  spine (objects st') (stack st').
Proof.
  intros Hinv Hsp Htr. pose proof (inv_stack_lt _ _ Hinv) as Hlt.
  destruct Htr as [|t q rest n Hstk Ht Hsec|v popped p rest n Hstk Hp Hpop Hne Hv
                   |item p rest n items Hstk Hp Hv|key value p rest n m Hstk Hp Hv
                   |text p rest n Hstk Hp Hlb]; cbn [objects stack] in *.
  - done.
  - rewrite Hstk in Hsp. by eapply spine_tail.
  - rewrite Hstk in Hsp, Hlt. apply spine_suffix in Hsp.
    apply Forall_app in Hlt as [_ Hlt].
    pose proof (spine_below _ _ _ Hsp) as Hbelow.
    apply spine_push.
    + eapply spine_ext; [|done]. cbn [tail]. intros b Hb.
      rewrite Forall_forall in Hbelow. specialize (Hbelow b Hb).
      pose proof (lookup_lt_Some _ _ _ Hp). apply lookup_grow_ne; [done|lia|lia].
    + by eapply lookup_lt_Some.
    + eexists. split; [by apply lookup_grow_parent|]. apply last_snoc.
  - rewrite Hstk in *. pose proof (spine_below _ _ _ Hsp) as Hbelow.
    eapply spine_ext; [|done]. cbn [tail]. intros b Hb.
    rewrite Forall_forall in Hbelow. specialize (Hbelow b Hb).
    apply lookup_amend_ne. lia.
  - rewrite Hstk in *. pose proof (spine_below _ _ _ Hsp) as Hbelow.
    eapply spine_ext; [|done]. cbn [tail]. intros b Hb.
    rewrite Forall_forall in Hbelow. specialize (Hbelow b Hb).
    apply lookup_amend_ne. lia.
  - rewrite Hstk in *. pose proof (spine_below _ _ _ Hsp) as Hbelow.
    eapply spine_ext; [|done]. cbn [tail]. intros b Hb.
    rewrite Forall_forall in Hbelow. specialize (Hbelow b Hb).
    pose proof (lookup_lt_Some _ _ _ Hp). apply lookup_grow_ne; [done|lia|lia].
Qed.

Lemma opens_not_Paragraph v : opens v → is_Paragraph v = false.
Proof. by destruct v. Qed.

Lemma open_step d st ev st' :
  inv d st →
  (∀ r n, r ∈ stack st → objects st !! r = Some n → is_Paragraph (variant n) = false) →
  transition st ev st' →
  ∀ r n, r ∈ stack st' → objects st' !! r = Some n → is_Paragraph (variant n) = false.
Proof.
  intros Hinv Hopen Htr r n'. pose proof (inv_stack_lt _ _ Hinv) as Hlt.
  rewrite Forall_forall in Hlt.
  destruct Htr as [|t q rest n Hstk Ht Hsec|v popped p rest n Hstk Hp Hpop Hne Hv
                   |item p rest n items Hstk Hp Hv|key value p rest n m Hstk Hp Hv
                   |text p rest n Hstk Hp Hlb]; cbn [objects stack] in *.
  - apply Hopen.
  - intros Hr. apply Hopen. rewrite Hstk. by right.
  - intros Hr Hn. apply lookup_grow in Hn; [|done].
    destruct Hn as [[-> ->]|[[-> ->]|[_ Hn]]].
    + simpl. apply (Hopen p n); [|done]. rewrite Hstk. apply elem_of_app. right. left.
    + by apply opens_not_Paragraph.
    + apply (Hopen r n'); [|done]. rewrite Hstk.
      apply elem_of_cons in Hr as [->|Hr].
      * exfalso. apply lookup_lt_Some in Hn. lia.
      * apply elem_of_app. by right.
  - intros Hr Hn. apply lookup_amend in Hn; [|done].
    destruct Hn as [[-> ->]|[_ Hn]]; [by rewrite ?Hv|].
    by apply (Hopen r n').
  - intros Hr Hn. apply lookup_amend in Hn; [|done].
    destruct Hn as [[-> ->]|[_ Hn]]; [by rewrite ?Hv|].
    by apply (Hopen r n').
  - intros Hr Hn. apply lookup_grow in Hn; [|done].
    destruct Hn as [[-> ->]|[[-> ->]|[_ Hn]]].
    + simpl. apply (Hopen p n); [|done]. rewrite Hstk. left.
    + exfalso. specialize (Hlt _ Hr). lia.
    + by apply (Hopen r n').
Qed.

Lemma leaf_step d st ev st' :
  inv d st → shape_ok d st → transition st ev st' →
  ∀ r n, (d ≤ r)%nat → objects st' !! r = Some n →
    is_Paragraph (variant n) = true → children n = [].
Proof.
  intros Hinv [_ Hopen Hleaf _] Htr r n' Hr.
  destruct Htr as [|t q rest n Hstk Ht Hsec|v popped p rest n Hstk Hp Hpop Hne Hv
                   |item p rest n items Hstk Hp Hv|key value p rest n m Hstk Hp Hv
                   |text p rest n Hstk Hp Hlb]; cbn [objects stack] in *.
  - by apply (Hleaf r).
  - by apply (Hleaf r).
  - intros Hn. apply lookup_grow in Hn; [|done].
    destruct Hn as [[-> ->]|[[-> ->]|[_ Hn]]].
    + simpl. intros Hpar. rewrite (Hopen p n) in Hpar; [done| |done].
      rewrite Hstk. apply elem_of_app. right. left.
    + done.
    + by apply (Hleaf r).
  - intros Hn. apply lookup_amend in Hn; [|done].
    destruct Hn as [[-> ->]|[_ Hn]]; [by rewrite ?Hv|].
    by apply (Hleaf r).
  - intros Hn. apply lookup_amend in Hn; [|done].
    destruct Hn as [[-> ->]|[_ Hn]]; [by rewrite ?Hv|].
    by apply (Hleaf r).
  - intros Hn. apply lookup_grow in Hn; [|done].
    destruct Hn as [[-> ->]|[[-> ->]|[_ Hn]]].
    + simpl. intros Hpar. rewrite (Hopen p n) in Hpar; [done| |done].
      rewrite Hstk. left.
    + done.
    + by apply (Hleaf r).
Qed.

Lemma sealed_step d st ev st' :
  inv d st → shape_ok d st → transition st ev st' →
  ∀ r n c,
    (d ≤ r)%nat → objects st' !! r = Some n → is_container (variant n) = true →
    c ∈ children n → is_Some (sec_level (objects st') c) →
    covered (objects st') (stack st') r.
Proof.
  intros Hinv Hshape Htr r n' c Hr Hn' Hcont Hc Hsec.
  pose proof (transition_evolves _ _ _ Htr) as Hev.
  destruct Hinv as [Hh Hs].
  (* a pair that was there before the step *)
  assert (∀ n, objects st !! r = Some n → is_container (variant n) = true →
               c ∈ children n →
               covered (objects st') (stack st') r) as Hold.
  { intros n Hn Hcn Hcin. apply (covered_step st ev); [done|by exists n|].
    apply (sh_sealed _ _ Hshape r n c); try done.
    pose proof (hk_children _ _ Hh r n Hn Hr) as Hfwd. rewrite Forall_forall in Hfwd.
    specialize (Hfwd c Hcin).
    destruct Hsec as [l Hl]. exists l.
    apply (evolves_sec_level_inv _ _ _ _ Hev); [lia|done]. }
  destruct Htr as [|t q rest n Hstk Ht Hsect|v popped p rest n Hstk Hp Hpop Hne Hv
                   |item p rest n items Hstk Hp Hv|key value p rest n m Hstk Hp Hv
                   |text p rest n Hstk Hp Hlb]; cbn [objects stack] in *.
  - by apply (Hold n').
  - by apply (Hold n').
  - apply lookup_grow in Hn'; [|done].
    destruct Hn' as [[-> ->]|[[-> ->]|[_ Hn']]]; cbn [children variant] in *.
    + apply elem_of_app in Hc as [Hc|Hc]; [by apply (Hold n)|].
      apply list_elem_of_singleton in Hc as ->.
      exists 0%nat, (length (objects st)). by split_and!.
    + by inversion Hc.
    + by apply (Hold n').
  - apply lookup_amend in Hn'; [|done].
    destruct Hn' as [[-> ->]|[_ Hn']]; cbn [children variant] in *.
    + apply (Hold n); [done| |done]. by rewrite Hv.
    + by apply (Hold n').
  - apply lookup_amend in Hn'; [|done].
    destruct Hn' as [[-> ->]|[_ Hn']]; cbn [children variant] in *; [done|].
    by apply (Hold n').
  - apply lookup_grow in Hn'; [|done].
    destruct Hn' as [[-> ->]|[[-> ->]|[_ Hn']]]; cbn [children variant] in *.
    + apply elem_of_app in Hc as [Hc|Hc]; [by apply (Hold n)|].
      apply list_elem_of_singleton in Hc as ->. exfalso.
      unfold sec_level in Hsec. rewrite (lookup_grow_new _ _ _ _ Hp) in Hsec.
      by destruct Hsec.
    + by inversion Hc.
    + by apply (Hold n').
Qed.

(** The steps keep the shape invariant. *)
Lemma shape_ok_step d line st ev st' :
  inv d st → shape_ok d st → reads line ev → transition st ev st' →
  shape_ok d st'.
Proof.
  intros Hinv Hshape _ Htr. split.
  - eapply spine_step; [done|by apply (sh_spine d)|done].
  - eapply open_step; [done|by apply (sh_open d)|done].
  - by eapply leaf_step.
  - by eapply sealed_step.
Qed.

Lemma state_after_shape source h k st :
  state_after source h k = Ok st → shape_ok (length h) st.
Proof.
  apply (state_after_invariant (shape_ok (length h))).
  - intros raw st0 ev st1. apply shape_ok_step.
  - apply shape_ok_initial.
Qed.

(** ** The stack and the tree under construction *)

Lemma spine_lookup σ stk i a b :
  spine σ stk → stk !! i = Some a → stk !! S i = Some b →
  (b < a)%nat ∧ ∃ n, σ !! b = Some n ∧ last (children n) = Some a.
Proof.
  revert i. induction stk as [|x rest IH]; intros i Hsp Ha Hb; [done|].
  destruct i as [|i].
  - simpl in Ha, Hb. injection Ha as ->. destruct rest as [|y rest]; [done|].
    simpl in Hb. injection Hb as ->. by destruct Hsp as [? _].
  - simpl in Ha, Hb. apply (IH i); [by eapply spine_tail|done|done].
Qed.

(** X1. At every point of a parse, each open node is the last child of
    the open node directly below it on the stack, and was made after
    it: the stack is the path from the Document to the innermost open
    node that follows the last child at every level. *)
Theorem stack_is_path_of_last_children source h k st i a b :
  state_after source h k = Ok st →
  stack st !! i = Some a → stack st !! S i = Some b →
  (b < a)%nat ∧ ∃ n, objects st !! b = Some n ∧ last (children n) = Some a.
Proof.
  intros Hrun. apply spine_lookup. by apply (sh_spine _ _ (state_after_shape _ _ _ _ Hrun)).
Qed.

Lemma stack_is_path_of_last_children_witness :
  ∃ st, state_after (text ["#s1 A"; "x"; "#def D"; "y"]) [] 4 = Ok st
  ∧ stack st !! 0%nat = Some 3%nat ∧ stack st !! 1%nat = Some 1%nat
  ∧ (1 < 3)%nat
  ∧ ∃ n, objects st !! 1%nat = Some n ∧ last (children n) = Some 3%nat.
Proof.
  eexists. split; [vm_compute; reflexivity|]. split; [reflexivity|].
  split; [reflexivity|].
  apply (stack_is_path_of_last_children (text ["#s1 A"; "x"; "#def D"; "y"]) [] 4 _
           0%nat 3%nat 1%nat); vm_compute; reflexivity.
Defined.

(** The final state of a parse that returns. *)
Lemma parse_tree_final source h t :
  parse_tree source h = Ok t →
  ∃ st, state_after source h (length (Str.splitlines source)) = Ok st
    ∧ parse_blocks source h = Ok (length h, objects st)
    ∧ to_tree (length (objects st) - length h) (objects st) (length h) = Some t.
Proof.
  intros Ht. destruct (parse_tree_inv _ _ _ Ht) as (doc & σ & Hp & Htree & _).
  destruct (parse_blocks_Ok _ _ _ _ Hp) as (-> & st & Hrun & <-). eauto.
Qed.

(** X2. In every returned tree the root is a Document, no other node is
    a Document, and every Paragraph is a leaf. *)
Theorem tree_shape source h t :
  parse_tree source h = Ok t →
  is_Document (root t) = true
  ∧ ∀ s, s ∈ nodes t →
      Forall (λ k, is_Document (root k) = false) (kids s)
      ∧ (is_Paragraph (root s) = true → kids s = []).
Proof.
  intros Ht. destruct (parse_tree_final _ _ _ Ht) as (st & Hrun & _ & Htree).
  destruct (state_after_inv _ _ _ _ Hrun) as [Hh _].
  pose proof (state_after_shape _ _ _ _ Hrun) as Hshape.
  split.
  - apply to_tree_Some in Htree as (? & n & ks & _ & Hn & _ & ->).
    destruct (hk_doc _ _ Hh) as (n' & Hn' & Hd). simpl. congruence.
  - intros s Hs.
    destruct (to_tree_nodes _ _ Hh _ _ _ s (Nat.le_refl _) Htree Hs)
      as (q & n & Hq & Hn & Hroot & Hkids).
    split.
    + pose proof (hk_children _ _ Hh q n Hn Hq) as Hfwd.
      clear -Hkids Hfwd Hh Hq. induction Hkids as [|c k cs ks (m & Hm & Hk) _ IH].
      * constructor.
      * inversion Hfwd as [|?? Hc Hfwd']; subst. constructor; [|by apply IH].
        rewrite Hk. apply (hk_single _ _ Hh c m Hm). lia.
    + intros Hpar. rewrite Hroot in Hpar.
      rewrite (sh_leaf _ _ Hshape q n Hq Hn Hpar) in Hkids. by inversion Hkids.
Qed.

Lemma tree_shape_witness :
  parse_tree (text ["#s1 A"; "x"]) []
  = Ok (TNode (Document ∅) [TNode (Section_ 1 "A") [TNode (Paragraph "x") []]])
  ∧ is_Document (Document ∅) = true.
Proof.
  split; [vm_compute; reflexivity|].
  apply (tree_shape (text ["#s1 A"; "x"]) []
           (TNode (Document ∅) [TNode (Section_ 1 "A") [TNode (Paragraph "x") []]])).
  vm_compute. reflexivity.
Defined.

(** ** The end of the input *)

Lemma check_closed_Ok σ open :
  check_closed σ open = Ok tt ↔
  Forall (λ r, ∃ n, σ !! r = Some n ∧ is_container (variant n) = false) open.
Proof.
  induction open as [|r open IH]; simpl.
  - split; [constructor|done].
  - unfold deref. destruct (σ !! r) as [n|] eqn:Hn; simpl.
    + destruct (is_container (variant n)) eqn:Hc.
      * split; [done|]. inversion 1 as [|?? (m & Hm1 & Hm2) _]. congruence.
      * rewrite IH. split; [intros; constructor; eauto|by inversion 1].
    + split; [done|]. inversion 1 as [|?? (m & Hm1 & _) _]. congruence.
Qed.

(** An explicit block left open raises at the end of the input. *)
Lemma unclosed_raises d st r :
  inv d st → r ∈ stack st → container_at (objects st) r →
  check_closed (objects st) (tail (rev (stack st)))
  = Raise (ParseError "Unclosed block at end of file").
Proof.
  intros [Hh [(above & Hstk & Habove) _]] Hr (n & Hn & Hc).
  rewrite Hstk, rev_app_distr. cbn [rev app tail].
  rewrite Hstk in Hr. apply elem_of_app in Hr as [Hr|Hr].
  - apply (check_closed_open _ _ r n); [|by apply elem_of_rev|done|done].
    apply Forall_forall. intros q Hq. apply (proj1 (elem_of_rev _ _)) in Hq.
    rewrite Forall_forall in Habove. specialize (Habove q Hq).
    apply lookup_lt_is_Some_2. lia.
  - apply list_elem_of_singleton in Hr as ->.
    destruct Hh as [(m & Hm & Hd) _ _ _ _]. rewrite Hm in Hn. injection Hn as ->.
    by destruct (variant n).
Qed.

(** The class of an open node above the Document. *)
Lemma open_node_class d st r n :
  inv d st → shape_ok d st → r ∈ stack st → r ≠ d → objects st !! r = Some n →
  is_container (variant n) = false → is_Some (sec_level (objects st) r).
Proof.
  intros [Hh Hs] Hshape Hr Hne Hn Hc.
  pose proof (stack_ok_lt _ _ _ r Hs (heap_ok_doc_lt _ _ Hh) Hr) as Hlt.
  pose proof (hk_single _ _ Hh r n Hn ltac:(lia)) as Hdoc.
  pose proof (sh_open _ _ Hshape r n Hr Hn) as Hpar.
  unfold sec_level. rewrite Hn. by destruct (variant n).
Qed.

(** When the parser returns, the nodes left open above the Document are
    Sections. *)
Lemma returned_stack_sections source h st doc σ :
  state_after source h (length (Str.splitlines source)) = Ok st →
  parse_blocks source h = Ok (doc, σ) →
  ∀ r, r ∈ stack st → r = length h ∨ is_Some (sec_level (objects st) r).
Proof.
  intros Hrun Hp.
  pose proof (state_after_inv _ _ _ _ Hrun) as Hinv.
  pose proof (state_after_shape _ _ _ _ Hrun) as Hshape.
  unfold parse_blocks in Hp. rewrite state_after_all in Hrun.
  rewrite Hrun in Hp. cbn [bind] in Hp.
  destruct (check_closed _ _) as [[]|e] eqn:Hc; [|done].
  apply check_closed_Ok in Hc. rewrite Forall_forall in Hc.
  intros r Hr. destruct (decide (r = length h)) as [|Hne]; [by left|right].
  pose proof Hinv as [_ [(above & Hstk & _) _]].
  destruct (Hc r) as (n & Hn & Hnc).
  { rewrite Hstk, rev_app_distr. cbn [rev app tail]. apply elem_of_rev.
    rewrite Hstk in Hr. apply elem_of_app in Hr as [|Hr]; [done|].
    by apply list_elem_of_singleton in Hr. }
  by apply (open_node_class (length h) st r n).
Qed.

(** When every line goes through and only Sections are left open, the
    parser returns. *)
Lemma open_sections_return source h st :
  state_after source h (length (Str.splitlines source)) = Ok st →
  (∀ r, r ∈ stack st → r = length h ∨ is_Some (sec_level (objects st) r)) →
  parse_blocks source h = Ok (length h, objects st).
Proof.
  intros Hrun Hopen.
  pose proof (state_after_inv _ _ _ _ Hrun) as Hinv.
  rewrite state_after_all in Hrun. unfold parse_blocks. rewrite Hrun. cbn [bind].
  assert (check_closed (objects st) (tail (rev (stack st))) = Ok tt) as ->; [|done].
  apply check_closed_Ok, Forall_forall. intros r Hr.
  destruct Hinv as [Hh [(above & Hstk & Habove) _]].
  rewrite Hstk, rev_app_distr in Hr. cbn [rev app tail] in Hr.
  apply (proj1 (elem_of_rev _ _)) in Hr.
  rewrite Forall_forall in Habove. specialize (Habove r Hr).
  destruct (Hopen r) as [->|[l Hl]]; [rewrite Hstk; apply elem_of_app; by left|lia|].
  unfold sec_level in Hl. destruct (objects st !! r) as [n|]; [|done].
  exists n. split; [done|]. by destruct (variant n).
Qed.

(** X3. A parse returns exactly when every line goes through and
    nothing but Sections is left open above the Document; it then
    returns the Document made at the start, in the heap the last line
    has left. *)
Theorem parse_returns_iff source h doc σ :
  parse_blocks source h = Ok (doc, σ) ↔
  doc = length h
  ∧ ∃ st, state_after source h (length (Str.splitlines source)) = Ok st
      ∧ objects st = σ
      ∧ ∀ r, r ∈ stack st → r = length h ∨ is_Some (sec_level σ r).
Proof.
  split.
  - intros Hp. destruct (parse_blocks_Ok _ _ _ _ Hp) as (-> & st & Hrun & <-).
    split; [done|]. exists st. split_and!; [done|done|].
    by eapply returned_stack_sections.
  - intros (-> & st & Hrun & <- & Hopen). by apply open_sections_return.
Qed.

Lemma parse_returns_iff_witness :
  parse_blocks (text ["#s1 A"; "#s2 B"]) []
  = Ok (0%nat, [mkNode [1%nat] (Document ∅); mkNode [2%nat] (Section_ 1 "A");
                mkNode [] (Section_ 2 "B")]).
Proof.
  apply (proj2 (parse_returns_iff (text ["#s1 A"; "#s2 B"]) [] 0%nat _)).
  split; [reflexivity|].
  exists (mkState [mkNode [1%nat] (Document ∅); mkNode [2%nat] (Section_ 1 "A");
                   mkNode [] (Section_ 2 "B")] [2%nat; 1%nat; 0%nat]).
  split_and!; [vm_compute; reflexivity|reflexivity|].
  intros r Hr. apply list_elem_of_In in Hr. simpl in Hr.
  destruct Hr as [<-|[<-|[<-|[]]]]; [right; by eexists|right; by eexists|by left].
Defined.

(** ** Sections inside explicit blocks *)

(** X4. A Section opened while a ListBlock, Definition or Theorem is
    the top of the stack can never be closed, and neither can the block
    below it: once a Section lies directly on such a block, the parse
    fails, whatever the remaining lines are. *)
Theorem section_on_container_fails source h k st i s r :
  state_after source h k = Ok st →
  stack st !! i = Some s → stack st !! S i = Some r →
  is_Some (sec_level (objects st) s) →
  container_at (objects st) r →
  ∃ e, parse_blocks source h = Raise e.
Proof.
  intros Hrun Hs Hr Hsec Hcont.
  pose proof (state_after_inv _ _ _ _ Hrun) as Hinv.
  unfold parse_blocks. rewrite (state_after_rest _ _ _ _ Hrun).
  destruct (run_lines (drop k _) _ st) as [st'|e] eqn:Hrest; [|by exists e].
  cbn [bind].
  assert (container_at (objects st') r ∧ covered (objects st') (stack st') r)
    as [Hcont' (j & s' & _ & Hr' & _)].
  { apply (run_lines_invariant (length h)
             (λ st, container_at (objects st) r ∧ covered (objects st) (stack st) r))
      with (lines := drop k (Str.splitlines source))
           (lineno := (1 + Z.of_nat (length (take k (Str.splitlines source))))%Z)
           (st := st); [|done| |done].
    - intros line st0 ev st1 _ [Hc Hcov] _ Htr. split.
      + by eapply evolves_container; [eapply transition_evolves|].
      + by eapply covered_step.
    - split; [done|]. by exists i, s. }
  pose proof (run_lines_ensures (length h) (drop k (Str.splitlines source))
                (1 + Z.of_nat (length (take k (Str.splitlines source)))) st Hinv)
    as Hinv'.
  rewrite Hrest in Hinv'.
  rewrite (unclosed_raises (length h) st' r); [by eexists|done| |done].
  by eapply list_elem_of_lookup_2.
Qed.

Lemma section_on_container_fails_witness :
  ∃ e, parse_blocks (text ["#def D"; "#s1 A"; "x"; "#end"]) [] = Raise e.
Proof.
  apply (section_on_container_fails (text ["#def D"; "#s1 A"; "x"; "#end"]) [] 2
           (mkState [mkNode [1%nat] (Document ∅); mkNode [2%nat] (Definition_ "D");
                     mkNode [] (Section_ 1 "A")] [2%nat; 1%nat; 0%nat])
           0%nat 2%nat 1%nat);
    [vm_compute; reflexivity|reflexivity|reflexivity|by eexists|].
  eexists. split; reflexivity.
Defined.

(** X5. So a tree that is returned has no Section among the children of
    a ListBlock, Definition or Theorem. *)
Theorem no_section_under_container source h t s :
  parse_tree source h = Ok t → s ∈ nodes t →
  is_container (root s) = true →
  Forall (λ k, is_Section (root k) = false) (kids s).
Proof.
  intros Ht Hs Hcont.
  destruct (parse_tree_final _ _ _ Ht) as (st & Hrun & Hp & Htree).
  pose proof (state_after_inv _ _ _ _ Hrun) as Hinv.
  pose proof (state_after_shape _ _ _ _ Hrun) as Hshape.
  pose proof (returned_stack_sections _ _ _ _ _ Hrun Hp) as Hopen.
  destruct (to_tree_nodes _ _ (inv_heap _ _ Hinv) _ _ _ s (Nat.le_refl _) Htree Hs)
    as (q & n & Hq & Hn & Hroot & Hkids).
  rewrite Hroot in Hcont.
  assert (∀ c, c ∈ children n → ¬ is_Some (sec_level (objects st) c)) as Hnone.
  { intros c Hc Hsec.
    destruct (sh_sealed _ _ Hshape q n c Hq Hn Hcont Hc Hsec) as (i & a & _ & Hi & _).
    apply list_elem_of_lookup_2 in Hi.
    destruct (Hopen q Hi) as [->|Hsq].
    - destruct (hk_doc _ _ (inv_heap _ _ Hinv)) as (m & Hm & Hd).
      rewrite Hm in Hn. injection Hn as ->. by destruct (variant n).
    - apply (sec_level_not_container (objects st) q Hsq). by exists n. }
  clear -Hkids Hnone. induction Hkids as [|c k cs ks (m & Hm & Hk) _ IH].
  - constructor.
  - constructor.
    + destruct (is_Section (root k)) eqn:E; [|done]. exfalso.
      apply (Hnone c); [left|]. unfold sec_level. rewrite Hm, <- Hk.
      by destruct (root k).
    + apply IH. intros c' Hc'. apply Hnone. by right.
Qed.

Lemma no_section_under_container_witness :
  parse_tree (text ["#def D"; "#list"; "- a"; "#end"; "x"; "#end"]) []
  = Ok (TNode (Document ∅)
          [TNode (Definition_ "D")
             [TNode (ListBlock ["a"]) []; TNode (Paragraph "x") []]])
  ∧ Forall (λ k, is_Section (root k) = false)
      [TNode (ListBlock ["a"]) []; TNode (Paragraph "x") []].
Proof.
  split; [vm_compute; reflexivity|].
  apply (no_section_under_container
           (text ["#def D"; "#list"; "- a"; "#end"; "x"; "#end"]) []
           (TNode (Document ∅)
              [TNode (Definition_ "D")
                 [TNode (ListBlock ["a"]) []; TNode (Paragraph "x") []]])
           (TNode (Definition_ "D")
              [TNode (ListBlock ["a"]) []; TNode (Paragraph "x") []]));
    [vm_compute; reflexivity| |reflexivity].
  apply list_elem_of_In. simpl. auto.
Defined.

(** ** Resources *)

Lemma transition_sizes st ev st' :
  transition st ev st' →
  (length (stack st') ≤ S (length (stack st)))%nat
  ∧ (length (objects st) ≤ length (objects st') ≤ S (length (objects st)))%nat.
Proof.
  destruct 1 as [|t q rest n Hstk Ht Hsec|v popped p rest n Hstk Hp Hpop Hne Hv
                 |item p rest n items Hstk Hp Hv|key value p rest n m Hstk Hp Hv
                 |text p rest n Hstk Hp Hlb]; cbn [objects stack];
    rewrite ?length_grow, ?length_amend, ?Hstk, ?length_app; simpl; lia.
Qed.

Lemma run_lines_sizes d lines lineno st st' :
  inv d st → run_lines lines lineno st = Ok st' →
  (length (stack st') ≤ length (stack st) + length lines)%nat
  ∧ (length (objects st) ≤ length (objects st')
     ≤ length (objects st) + length lines)%nat.
Proof.
  revert lineno st. induction lines as [|raw lines IH]; intros lineno st Hinv.
  - intros [= <-]. simpl. lia.
  - simpl. destruct (step raw lineno st) as [st1|e] eqn:Hstep; [|done]. cbn [bind].
    pose proof (step_ensures d raw lineno st Hinv) as Hinv1. rewrite Hstep in Hinv1.
    destruct (step_Ok_transition _ _ _ _ _ Hinv Hstep) as (ev & _ & Htr).
    apply transition_sizes in Htr. intros Hrest.
    specialize (IH _ _ Hinv1 Hrest). lia.
Qed.

(** X6. A line makes at most one node and opens at most one: after [k]
    lines the stack holds at most [k + 1] nodes, and the parse has made
    at least one node, the Document, and at most [k + 1]. *)
Theorem one_node_per_line source h k st :
  state_after source h k = Ok st →
  (1 ≤ length (stack st) ≤ 1 + k)%nat
  ∧ (length h + 1 ≤ length (objects st) ≤ length h + 1 + k)%nat.
Proof.
  intros Hrun. pose proof (state_after_inv _ _ _ _ Hrun) as Hinv.
  destruct (inv_top _ _ Hinv) as (p & rest & _ & Hstk & _).
  unfold state_after in Hrun.
  apply (run_lines_sizes (length h)) in Hrun; [|apply inv_initial].
  rewrite length_take in Hrun. cbn [initial objects stack length] in Hrun.
  rewrite length_app in Hrun. simpl in Hrun. rewrite Hstk in *. simpl in *. lia.
Qed.

Lemma one_node_per_line_witness :
  ∃ st, state_after (text ["#s1 A"; ""; "x"; "#list"]) [] 4 = Ok st
  ∧ (1 ≤ length (stack st) ≤ 1 + 4)%nat
  ∧ (length (@nil Node) + 1 ≤ length (objects st) ≤ length (@nil Node) + 1 + 4)%nat.
Proof.
  eexists. split; [vm_compute; reflexivity|].
  apply (one_node_per_line (text ["#s1 A"; ""; "x"; "#list"]) [] 4).
  vm_compute. reflexivity.
Defined.

(** X7. A parse leaves the objects that were there before it as they
    were: the heap of every state, and the heap that is returned, start
    with the heap the call started in. *)
Theorem earlier_objects_untouched source h :
  (∀ k st, state_after source h k = Ok st → take (length h) (objects st) = h)
  ∧ (∀ doc σ, parse_blocks source h = Ok (doc, σ) → take (length h) σ = h).
Proof.
  assert (∀ k st, state_after source h k = Ok st → take (length h) (objects st) = h)
    as Hstates.
  { intros k st. rewrite state_after_lift.
    destruct (state_after source [] k) as [st0|e]; [|done]. intros [= <-].
    apply take_app_length. }
  split; [done|]. intros doc σ Hp.
  destruct (parse_blocks_Ok _ _ _ _ Hp) as (_ & st & Hrun & <-). by eapply Hstates.
Qed.

Lemma earlier_objects_untouched_witness :
  take 2 [mkNode [] (Paragraph "old"); mkNode [0%nat] (ListBlock ["kept"]);
          mkNode [3%nat] (Document ∅); mkNode [] (Section_ 1 "A")]
  = [mkNode [] (Paragraph "old"); mkNode [0%nat] (ListBlock ["kept"])].
Proof.
  apply (proj2 (earlier_objects_untouched (text ["#s1 A"])
                  [mkNode [] (Paragraph "old"); mkNode [0%nat] (ListBlock ["kept"])])
           2%nat).
  vm_compute. reflexivity.
Defined.

(** ** Nodes only grow *)

Lemma fields_extend_refl v : fields_extend v v.
Proof. destruct v; simpl; auto. Qed.

Lemma fields_extend_trans v1 v2 v3 :
  fields_extend v1 v2 → fields_extend v2 v3 → fields_extend v1 v3.
Proof.
  destruct v1, v2; simpl; try done; try (by intros [=]);
    destruct v3; simpl; try done; try (by intros ? [=]);
    try (intros [= -> ->] [= -> ->]; done); try (intros [= ->] [= ->]; done).
  - auto.
  - intros H1 H2. by etrans.
Qed.

Lemma extends_refl σ : extends σ σ.
Proof. intros r n Hn. exists n. split_and!; [done|done|apply fields_extend_refl]. Qed.

Lemma extends_trans σ1 σ2 σ3 : extends σ1 σ2 → extends σ2 σ3 → extends σ1 σ3.
Proof.
  intros H12 H23 r n1 Hn1.
  destruct (H12 _ _ Hn1) as (n2 & Hn2 & Hc12 & Hf12).
  destruct (H23 _ _ Hn2) as (n3 & Hn3 & Hc23 & Hf23).
  exists n3. split_and!; [done|by etrans|by eapply fields_extend_trans].
Qed.

Lemma extends_grow σ p n v : σ !! p = Some n → extends σ (grow σ p n v).
Proof.
  intros Hp r m Hm. destruct (decide (r = p)) as [->|Hne].
  - rewrite Hp in Hm. injection Hm as <-. eexists.
    split; [by apply lookup_grow_parent|]. simpl.
    split; [by apply prefix_app_r|apply fields_extend_refl].
  - exists m. rewrite lookup_grow_ne; [|done|done|by eapply lookup_lt_Some].
    split_and!; [done|done|apply fields_extend_refl].
Qed.

Lemma extends_amend σ r n v :
  σ !! r = Some n → fields_extend (variant n) v → extends σ (amend σ r n v).
Proof.
  intros Hr Hf q m Hm. destruct (decide (q = r)) as [->|Hne].
  - rewrite Hr in Hm. injection Hm as <-. eexists.
    split; [by apply lookup_amend_eq|]. by split.
  - exists m. rewrite lookup_amend_ne by done.
    split_and!; [done|done|apply fields_extend_refl].
Qed.

Lemma transition_extends st ev st' :
  transition st ev st' → extends (objects st) (objects st').
Proof.
  destruct 1 as [|t q rest n Hstk Ht Hsec|v popped p rest n Hstk Hp Hpop Hne Hv
                 |item p rest n items Hstk Hp Hv|key value p rest n m Hstk Hp Hv
                 |text p rest n Hstk Hp Hlb]; cbn [objects].
  - apply extends_refl.
  - apply extends_refl.
  - by apply extends_grow.
  - apply extends_amend; [done|]. rewrite Hv. simpl. by apply prefix_app_r.
  - apply extends_amend; [done|]. rewrite Hv. simpl. intros k [x Hx].
    destruct (decide (key = k)) as [->|Hne].
    + rewrite lookup_insert_eq. by eexists.
    + rewrite lookup_insert_ne by done. by eexists.
  - by apply extends_grow.
Qed.

Lemma run_lines_extends d lines lineno st st' :
  inv d st → run_lines lines lineno st = Ok st' →
  extends (objects st) (objects st').
Proof.
  intros Hinv Hrun.
  apply (run_lines_invariant d (λ s, extends (objects st) (objects s)))
    with (lines := lines) (lineno := lineno) (st := st); [|done|apply extends_refl|done].
  intros line st0 ev st1 _ Hext _ Htr.
  eapply extends_trans; [done|by eapply transition_extends].
Qed.

(** X8. Nodes only grow. A node that exists after [k] lines exists after
    any greater number of lines, with the same class; its children then
    start with the children it had, the items of a ListBlock start with
    the items it had, a Document has every metadata key it had, and the
    level, title or text of any other node is what it was. *)
Theorem nodes_only_grow source h k k' st st' :
  (k ≤ k')%nat →
  state_after source h k = Ok st →
  state_after source h k' = Ok st' →
  extends (objects st) (objects st').
Proof.
  intros Hle Hk Hk'. unfold state_after in *.
  replace k' with (k + (k' - k))%nat in Hk' by lia.
  rewrite <- take_take_drop, run_lines_app, Hk in Hk'. cbn [bind] in Hk'.
  apply (run_lines_extends (length h)) in Hk'; [done|].
  pose proof (run_lines_ensures (length h) (take k (Str.splitlines source)) 1
                (initial h) (inv_initial h)) as Hinv.
  by rewrite Hk in Hinv.
Qed.

Lemma nodes_only_grow_witness :
  extends
    [mkNode [1%nat] (Document ∅); mkNode [] (ListBlock [])]
    [mkNode [1%nat; 2%nat] (Document ∅); mkNode [] (ListBlock ["a"]);
     mkNode [] (Paragraph "x")].
Proof.
  apply (nodes_only_grow (text ["#list"; "- a"; "#end"; "x"]) [] 1 4
           (mkState [mkNode [1%nat] (Document ∅); mkNode [] (ListBlock [])]
              [1%nat; 0%nat])
           (mkState [mkNode [1%nat; 2%nat] (Document ∅); mkNode [] (ListBlock ["a"]);
                     mkNode [] (Paragraph "x")] [0%nat]));
    [lia|vm_compute; reflexivity..].
Defined.

(** ** Line numbers and blank lines *)

(** The number of a line has no part in what the line does when it goes
    through. *)
Lemma step_Ok_lineno raw n m st st' :
  step raw n st = Ok st' → step raw m st = Ok st'.
Proof.
  unfold step. destruct (Str.startswith "#" (Str.rstrip raw)).
  - unfold _handle_command.
    destruct (directive (Str.rstrip raw)) as [[cmd arg]|e]; [|done]. cbn [bind].
    destruct (top (stack st)) as [p|e]; [|done]. cbn [bind].
    destruct (String.eqb cmd "end").
    { destruct (length (stack st) =? 1)%nat; [done|].
      destruct (deref (objects st) p) as [n0|e]; [|done]. cbn [bind].
      by destruct (is_Section (variant n0)). }
    destruct (Str.startswith "s" cmd && Str.isdigit (Str.slice_from 1 cmd)); [done|].
    destruct (String.eqb cmd "list"); [done|].
    destruct (String.eqb cmd "def"); [done|].
    destruct (String.eqb cmd "thm"); [done|].
    destruct (deref (objects st) p) as [n0|e]; [|done]. cbn [bind].
    by destruct (variant n0).
  - unfold _handle_text.
    destruct (Str.is_empty (Str.strip (Str.rstrip raw))); [done|].
    destruct (top (stack st)) as [p|e]; [|done]. cbn [bind].
    destruct (deref (objects st) p) as [n0|e]; [|done]. cbn [bind].
    destruct (variant n0); try done.
    by destruct (negb (Str.startswith "- " (Str.rstrip raw))).
Qed.

Lemma step_blank raw n st : blank raw = true → step raw n st = Ok st.
Proof.
  unfold blank, step. destruct (Str.rstrip raw); [|done]. by intros _.
Qed.

Lemma run_lines_without_blanks lines n m st st' :
  run_lines lines n st = Ok st' ↔
  run_lines (List.filter (λ raw, negb (blank raw)) lines) m st = Ok st'.
Proof.
  revert n m st. induction lines as [|raw lines IH]; intros n m st; [done|].
  cbn [List.filter run_lines]. destruct (blank raw) eqn:Hb; cbn [negb].
  - rewrite (step_blank _ _ _ Hb). cbn [bind]. apply IH.
  - cbn [run_lines]. split.
    + destruct (step raw n st) as [st1|e] eqn:Hstep; [|done]. cbn [bind].
      rewrite (step_Ok_lineno _ _ m _ _ Hstep). cbn [bind]. apply IH.
    + destruct (step raw m st) as [st1|e] eqn:Hstep; [|done]. cbn [bind].
      rewrite (step_Ok_lineno _ _ n _ _ Hstep). cbn [bind]. apply IH.
Qed.

(** X9. Blank lines, and with them the numbers of the lines, have no
    part in the result of a parse that returns: two texts with the same
    lines once the lines of white space are left out give the same
    tree, or both fail. *)
Theorem blank_lines_do_not_matter s1 s2 h t :
  List.filter (λ raw, negb (blank raw)) (Str.splitlines s1)
  = List.filter (λ raw, negb (blank raw)) (Str.splitlines s2) →
  parse_tree s1 h = Ok t → parse_tree s2 h = Ok t.
Proof.
  intros Hsame. unfold parse_tree, parse_blocks.
  destruct (run_lines (Str.splitlines s1) 1 (initial h)) as [st|e] eqn:Hrun; [|done].
  apply (run_lines_without_blanks _ _ 1) in Hrun. rewrite Hsame in Hrun.
  apply (run_lines_without_blanks _ 1) in Hrun. by rewrite Hrun.
Qed.

Lemma blank_lines_do_not_matter_witness :
  parse_tree (text ["#s1 A"; "x"]) []
  = Ok (TNode (Document ∅) [TNode (Section_ 1 "A") [TNode (Paragraph "x") []]]).
Proof.
  apply (blank_lines_do_not_matter (text [""; "#s1 A"; "   "; "x"; ""])
           (text ["#s1 A"; "x"]) []);
    vm_compute; reflexivity.
Defined.

(** ** The failures of a parse *)

Lemma step_ParseError_message raw lineno st msg :
  step raw lineno st = Raise (ParseError msg) → line_message lineno msg.
Proof.
  unfold step, line_message. destruct (Str.startswith "#" (Str.rstrip raw)).
  - unfold _handle_command.
    intros ([cmd arg] & _ & H)%silent_bind; [|apply silent_directive].
    apply silent_bind in H as (p & _ & H); [|apply silent_top].
    destruct (String.eqb cmd "end").
    { destruct (length (stack st) =? 1)%nat; [injection H as <-; auto|].
      apply silent_bind in H as (n & _ & H); [|apply silent_deref].
      destruct (is_Section (variant n)); [injection H as <-; auto|done]. }
    destruct (Str.startswith "s" cmd && Str.isdigit (Str.slice_from 1 cmd)).
    { destruct (Str.int (Str.slice_from 1 cmd)) as [level|]; [|done].
      apply silent_bind in H as (stk & _ & H); [|apply silent_pop_sections].
      by destruct (silent_open_node _ _ _ H). }
    destruct (String.eqb cmd "list"); [by destruct (silent_open_node _ _ _ H)|].
    destruct (String.eqb cmd "def"); [by destruct (silent_open_node _ _ _ H)|].
    destruct (String.eqb cmd "thm"); [by destruct (silent_open_node _ _ _ H)|].
    apply silent_bind in H as (n & _ & H); [|apply silent_deref].
    destruct (variant n); try done; injection H as <-; eauto.
  - unfold _handle_text. destruct (Str.is_empty (Str.strip (Str.rstrip raw))); [done|].
    intros (p & _ & H)%silent_bind; [|apply silent_top].
    apply silent_bind in H as (n & _ & H); [|apply silent_deref].
    destruct (variant n);
      try (apply silent_bind in H as (? & _ & H); [done|apply silent_append_child]).
    destruct (negb (Str.startswith "- " (Str.rstrip raw))); [|done].
    injection H as <-; auto.
Qed.

(** X10. The failures of a parse. A parse that fails raises
    [ValueError], or a [ParseError] with one of four messages that
    start with the number of a line of the text -- "unexpected #end",
    "sections do not use #end", "unknown command #" and the command
    word, "list items must start with '- '" -- or the [ParseError]
    "Unclosed block at end of file". *)
Theorem failures_of_a_parse source h e :
  parse_blocks source h = Raise e →
  e = ValueError
  ∨ (∃ k msg, (k < length (Str.splitlines source))%nat
       ∧ e = ParseError msg ∧ line_message (Z.of_nat k + 1) msg)
  ∨ e = ParseError "Unclosed block at end of file".
Proof.
  intros Hp. pose proof (parse_blocks_never_stuck source h) as Hens.
  rewrite Hp in Hens. destruct e as [msg| | |]; [|by left|done|done].
  right. unfold parse_blocks in Hp.
  destruct (run_lines (Str.splitlines source) 1 (initial h)) as [st|e] eqn:Hrun;
    cbn [bind] in Hp.
  - right. destruct (check_closed _ _) as [[]|e] eqn:Hc; [done|].
    cbn [bind] in Hp. injection Hp as ->.
    by apply check_closed_Raise in Hc as [[=]|?].
  - injection Hp as ->. left.
    destruct (run_lines_Raise _ _ _ _ Hrun) as (k & raw & st & Hk & _ & Hstep).
    exists k, msg. split_and!; [by eapply lookup_lt_Some|done|].
    rewrite (Z.add_comm 1) in Hstep. by eapply step_ParseError_message.
Qed.

Lemma failures_of_a_parse_witness :
  ParseError "Line 2: unknown command #author" = ValueError
  ∨ (∃ k msg, (k < length (Str.splitlines (text ["#s1 A"; "#author Ann"])))%nat
       ∧ ParseError "Line 2: unknown command #author" = ParseError msg
       ∧ line_message (Z.of_nat k + 1) msg)
  ∨ ParseError "Line 2: unknown command #author"
    = ParseError "Unclosed block at end of file".
Proof.
  apply (failures_of_a_parse (text ["#s1 A"; "#author Ann"]) []).
  vm_compute. reflexivity.
Defined.

(** ** Texts without blocks *)

Lemma flat_step raw lineno meta paras :
  flat raw = true →
  step raw lineno (flat_state meta paras)
  = Ok (flat_state (set_entry meta raw) (paras ++ flat_paragraphs [raw])).
Proof.
  unfold flat, step, set_entry, flat_paragraphs. cbv zeta. cbn [map List.filter].
  destruct (Str.startswith "#" (Str.rstrip raw)) eqn:Hm; cbn [negb andb].
  - rewrite app_nil_r. unfold entry, _handle_command.
    destruct (directive_marker _ Hm) as (cmd & arg & ->). cbn [fst snd bind].
    unfold is_key. intros H.
    repeat (apply andb_true_iff in H as [H ?]).
    repeat match goal with
           | H : negb ?b = true |- _ => apply negb_true_iff in H; rewrite H
           end.
    done.
  - intros _. unfold _handle_text.
    destruct (Str.is_empty (Str.strip (Str.rstrip raw))); cbn [negb].
    + by rewrite app_nil_r.
    + unfold flat_state. cbn [top stack objects bind deref]. simpl.
      rewrite length_app, seq_app, length_map. simpl.
      by rewrite map_app.
Qed.

Lemma flat_paragraphs_cons raw lines :
  flat_paragraphs (raw :: lines) = flat_paragraphs [raw] ++ flat_paragraphs lines.
Proof.
  unfold flat_paragraphs. cbn [map List.filter].
  by destruct (_ && _).
Qed.

Lemma flat_run lines lineno meta paras :
  Forall (λ raw, flat raw = true) lines →
  run_lines lines lineno (flat_state meta paras)
  = Ok (flat_state (foldl set_entry meta lines) (paras ++ flat_paragraphs lines)).
Proof.
  revert lineno meta paras. induction lines as [|raw lines IH];
    intros lineno meta paras Hflat.
  - simpl. unfold flat_paragraphs. simpl. by rewrite app_nil_r.
  - inversion Hflat as [|?? Hraw Hrest]; subst.
    cbn [run_lines foldl]. rewrite (flat_step _ _ _ _ Hraw). cbn [bind].
    rewrite (IH _ _ _ Hrest), (flat_paragraphs_cons raw lines).
    by rewrite app_assoc.
Qed.

Lemma to_tree_paragraphs f doc paras :
  (0 < f)%nat →
  mapM (to_tree f (doc :: map (λ t, mkNode [] (Paragraph t)) paras))
    (seq 1 (length paras))
  = Some (map (λ t, TNode (Paragraph t) []) paras).
Proof.
  intros Hf. apply mapM_Some, Forall2_fmap_r, Forall2_same_length_lookup. split.
  - by rewrite length_seq.
  - intros i c t Hc Ht. apply lookup_seq in Hc as [-> Hi].
    destruct f as [|f]; [lia|]. rewrite to_tree_S. simpl.
    by rewrite list_lookup_fmap, Ht.
Qed.

(** The tree of a Document whose children are all Paragraphs. *)
Lemma to_tree_flat meta paras :
  to_tree (S (length paras)) (objects (flat_state meta paras)) 0
  = Some (TNode (Document meta) (map (λ t, TNode (Paragraph t) []) paras)).
Proof.
  rewrite to_tree_S. unfold flat_state. cbn [objects]. simpl.
  destruct paras as [|t paras]; [done|].
  by rewrite (to_tree_paragraphs (length (t :: paras)) _ (t :: paras)) by (simpl; lia).
Qed.

(** X11. A text without blocks: when every line is a line of text or a
    directive whose command word is a metadata key, the parse returns a
    Document whose metadata are the entries of the directives, the
    later line winning, and whose children are the lines of text in
    order, trimmed, without the blank ones, one Paragraph each.  In
    particular a text without directives gives its paragraphs and no
    metadata. *)
Theorem flat_text_parses source h :
  Forall (λ raw, flat raw = true) (Str.splitlines source) →
  parse_tree source h
  = Ok (TNode (Document (flat_metadata (Str.splitlines source)))
          (map (λ t, TNode (Paragraph t) [])
             (flat_paragraphs (Str.splitlines source)))).
Proof.
  intros Hflat. rewrite parse_tree_lift. unfold parse_tree, parse_blocks.
  change (initial []) with (flat_state ∅ []).
  rewrite (flat_run _ _ _ _ Hflat). cbn [bind app].
  change (stack (flat_state _ _)) with [0%nat]. cbn [rev app tail check_closed bind].
  change (length (objects (flat_state ?m ?ps)))
    with (S (length (map (λ t, mkNode [] (Paragraph t)) ps))).
  rewrite length_map, Nat.sub_0_r. by rewrite to_tree_flat.
Qed.

Lemma flat_text_parses_witness :
  parse_tree (text ["#title Notes"; "first  "; ""; "#title Essay"; "second"]) []
  = Ok (TNode (Document (<["title" := "Essay"]> (<["title" := "Notes"]> ∅)))
          [TNode (Paragraph "first") []; TNode (Paragraph "second") []]).
Proof.
  rewrite (flat_text_parses
             (text ["#title Notes"; "first  "; ""; "#title Essay"; "second"]) []);
    [|repeat constructor].
  vm_compute. reflexivity.
Defined.

(** ** Headings and text *)

Lemma outline_directive raw :
  outline raw = true → Str.startswith "#" (Str.rstrip raw) = true →
  ∃ ds arg, directive (Str.rstrip raw) = Ok (String "s" ds, arg)
    ∧ ds ≠ EmptyString ∧ Str.all Str.isdecimal ds = true
    ∧ (Z.of_nat (String.length ds) ≤ Str.max_str_digits)%Z.
Proof.
  unfold outline, entry. cbv zeta. intros H Hm. rewrite Hm in H.
  destruct (directive_marker _ Hm) as (cmd & arg & Hdir). rewrite Hdir in *.
  cbn [fst] in H. destruct cmd as [|c ds]; [done|].
  apply andb_true_iff in H as [[[Hc Hne]%andb_true_iff Hdec]%andb_true_iff Hlen].
  apply Ascii.eqb_eq in Hc as ->. apply Z.leb_le in Hlen.
  exists ds, arg. split_and!; [done| |done|done].
  by destruct ds.
Qed.

(** A heading or a line of text goes through when only Sections are
    open, and leaves only Sections open. *)
Lemma outline_step d raw lineno st :
  inv d st →
  (∀ r, r ∈ stack st → r = d ∨ is_Some (sec_level (objects st) r)) →
  outline raw = true →
  ∃ st', step raw lineno st = Ok st'
    ∧ ∀ r, r ∈ stack st' → r = d ∨ is_Some (sec_level (objects st') r).
Proof.
  intros Hinv Hopen Hout.
  destruct (inv_top _ _ Hinv) as (p & rest & n & Hstk & Hp & Hdp).
  unfold step. destruct (Str.startswith "#" (Str.rstrip raw)) eqn:Hm.
  - destruct (outline_directive _ Hout Hm) as (ds & arg & Hdir & Hne & Hdec & Hlen).
    destruct (decimal_level ds Hne Hdec Hlen) as [Hdig Hint].
    set (level := decimal_value ds) in *.
    destruct (pop_sections_spec (objects st) level (stack st) (inv_stack_lt _ _ Hinv))
      as (popped & kept & E & Hpop & _ & Hkept & Hstop).
    assert (kept ≠ []) as Hkne by (apply Hkept; by rewrite Hstk).
    destruct st as [σ stk]. cbn [objects stack] in *. rewrite E in Hinv.
    destruct (inv_after_pop _ _ level _ _ Hinv Hkne Hstop)
      as (p' & rest' & n' & -> & Hp' & Hinv' & _).
    eexists. split.
    + unfold _handle_command. rewrite Hdir. cbn [bind stack objects].
      rewrite Hstk. cbn [top bind].
      change (String.eqb (String "s" ds) "end") with false. cbv iota.
      change (Str.startswith "s" (String "s" ds)) with true.
      change (Str.slice_from 1 (String "s" ds)) with ds.
      rewrite Hdig, Hint. cbn [andb]. rewrite <- Hstk, Hpop. cbn [bind].
      by rewrite (open_node_eq _ _ _ _ _ Hp').
    + cbn [objects stack]. intros r Hr.
      apply elem_of_cons in Hr as [->|Hr].
      * right. unfold sec_level. rewrite (lookup_grow_new _ _ _ _ Hp'). by eexists.
      * destruct (Hopen r) as [->|Hsec]; [rewrite E; apply elem_of_app; by right| |].
        -- by left.
        -- right. by apply (evolves_sec_level σ); [apply evolves_grow|].
  - unfold _handle_text.
    destruct (Str.is_empty (Str.strip (Str.rstrip raw))); [by exists st|].
    rewrite Hstk. cbn [top bind]. unfold deref. rewrite Hp. cbn [bind].
    assert (is_ListBlock (variant n) = false) as Hlb.
    { destruct (Hopen p) as [->|[l Hl]]; [rewrite Hstk; left| |].
      - destruct (hk_doc _ _ (inv_heap _ _ Hinv)) as (m & Hm' & Hd).
        rewrite Hp in Hm'. injection Hm' as <-. by destruct (variant n).
      - unfold sec_level in Hl. rewrite Hp in Hl. by destruct (variant n). }
    assert (∀ r, r ∈ p :: rest →
              r = d ∨ is_Some (sec_level
                                 (grow (objects st) p n (Paragraph (Str.rstrip raw))) r))
      as Hkeep.
    { intros r Hr. rewrite <- Hstk in Hr.
      destruct (Hopen r Hr) as [->|Hsec]; [by left|right].
      by apply (evolves_sec_level (objects st)); [apply evolves_grow|]. }
    destruct (variant n); try done;
      rewrite (append_child_grow _ _ _ _ Hp); cbn [bind]; by eexists.
Qed.

Lemma outline_run d lines lineno st :
  inv d st →
  (∀ r, r ∈ stack st → r = d ∨ is_Some (sec_level (objects st) r)) →
  Forall (λ raw, outline raw = true) lines →
  ∃ st', run_lines lines lineno st = Ok st'
    ∧ ∀ r, r ∈ stack st' → r = d ∨ is_Some (sec_level (objects st') r).
Proof.
  revert lineno st. induction lines as [|raw lines IH]; intros lineno st Hinv Hopen Hout.
  - by exists st.
  - inversion Hout as [|?? Hraw Hrest]; subst.
    destruct (outline_step d raw lineno st Hinv Hopen Hraw) as (st1 & Hstep & Hopen1).
    pose proof (step_ensures d raw lineno st Hinv) as Hinv1. rewrite Hstep in Hinv1.
    destruct (IH (lineno + 1)%Z st1 Hinv1 Hopen1 Hrest) as (st' & Hrun & Hopen').
    exists st'. simpl. by rewrite Hstep.
Qed.

(** X12. Headings and text always parse: when every line is a line of
    text or a directive whose command word is "s" followed by decimal
    digits, one at least and no more than [max_str_digits], the parse
    returns a tree, whatever the order of the levels is. *)
Theorem outline_parses source h :
  Forall (λ raw, outline raw = true) (Str.splitlines source) →
  ∃ t, parse_tree source h = Ok t.
Proof.
  intros Hout.
  destruct (outline_run (length h) (Str.splitlines source) 1 (initial h)
              (inv_initial h)) as (st & Hrun & Hopen); [|done|].
  { intros r Hr. left. simpl in Hr. by apply list_elem_of_singleton in Hr. }
  rewrite <- state_after_all in Hrun.
  pose proof (open_sections_return _ _ _ Hrun Hopen) as Hp.
  destruct (parse_tree_Ok _ _ _ _ Hp) as (t & Ht & _). by exists t.
Qed.

Lemma outline_parses_witness :
  ∃ t, parse_tree (text ["#s3 Deep"; "text"; "#s1 Top"; ""; "#s2 Mid"; "more"]) []
       = Ok t.
Proof.
  apply (outline_parses
           (text ["#s3 Deep"; "text"; "#s1 Top"; ""; "#s2 Mid"; "more"]) []).
  repeat constructor.
Defined.

(** ** Trimmed strings *)

Lemma rstrip_idem s : Str.rstrip (Str.rstrip s) = Str.rstrip s.
Proof.
  induction s as [|c r IH]; [done|]. cbn [Str.rstrip].
  destruct (Str.rstrip r) as [|c' r'] eqn:E.
  - destruct (Str.isspace c) eqn:Hc; [done|]. cbn [Str.rstrip]. by rewrite Hc.
  - cbn [Str.rstrip]. cbn [Str.rstrip] in IH. by rewrite IH.
Qed.

Lemma trimmed_tail c r : Str.rstrip (String c r) = String c r → Str.rstrip r = r.
Proof.
  cbn [Str.rstrip]. destruct (Str.rstrip r) as [|c' r'] eqn:E.
  - destruct (Str.isspace c); [done|]. by intros [= <-].
  - by intros [= <-].
Qed.

Lemma trimmed_lstrip s : Str.rstrip s = s → Str.rstrip (Str.lstrip s) = Str.lstrip s.
Proof.
  induction s as [|c r IH]; [done|]. intros H. cbn [Str.lstrip].
  destruct (Str.isspace c); [|done]. apply IH. by eapply trimmed_tail.
Qed.

Lemma trimmed_span_rest s :
  Str.rstrip s = s → Str.rstrip (snd (Str.span_word s)) = snd (Str.span_word s).
Proof.
  induction s as [|c r IH]; [done|]. intros H. cbn [Str.span_word].
  destruct (Str.isspace c); [done|].
  destruct (Str.span_word r) as [w rest] eqn:E. cbn [snd] in *.
  apply IH. by eapply trimmed_tail.
Qed.

Lemma trimmed_slice k s :
  Str.rstrip s = s → Str.rstrip (Str.slice_from k s) = Str.slice_from k s.
Proof.
  revert s. induction k as [|k IH]; intros s H; [by destruct s|].
  destruct s as [|c r]; [done|]. cbn [Str.slice_from]. apply IH.
  by eapply trimmed_tail.
Qed.

Lemma lstrip_idem s : Str.lstrip (Str.lstrip s) = Str.lstrip s.
Proof.
  induction s as [|c r IH]; [done|]. cbn [Str.lstrip].
  destruct (Str.isspace c) eqn:Hc; [done|]. cbn [Str.lstrip]. by rewrite Hc.
Qed.

(** The argument of a directive on a trimmed line has no white space at
    either end. *)
Lemma directive_arg_clean line cmd arg :
  Str.rstrip line = line → directive line = Ok (cmd, arg) → Str.strip arg = arg.
Proof.
  intros Htrim. unfold directive, Str.split1.
  pose proof (trimmed_lstrip _ Htrim) as Hl.
  destruct (Str.lstrip line) as [|c s'] eqn:E; [done|].
  pose proof (trimmed_span_rest _ Hl) as Hrest.
  destruct (Str.span_word (String c s')) as [w rest]. cbn [snd] in Hrest.
  pose proof (trimmed_lstrip _ Hrest) as Harg.
  pose proof (lstrip_idem rest) as Hidem.
  destruct (Str.lstrip rest) as [|c' a] eqn:E'.
  - by intros [= _ <-].
  - intros [= _ <-]. unfold Str.strip. by rewrite Harg.
Qed.

Lemma reads_clean raw ev :
  reads (Str.rstrip raw) ev →
  match ev with
  | Open v => clean v
  | Item item => Str.rstrip item = item
  | Meta _ value => Str.strip value = value
  | Para text => clean (Paragraph text)
  | _ => True
  end.
Proof.
  pose proof (rstrip_idem raw) as Htrim.
  destruct ev as [| |v|item|key value|text]; cbn [reads]; try done.
  - intros (_ & cmd & arg & Hdir & [(l & _ & _ & ->)|[[_ ->]|[[_ ->]|[_ ->]]]]);
      cbn [clean]; try constructor; by eapply directive_arg_clean.
  - intros (_ & _ & _ & ->). by apply trimmed_slice.
  - intros (_ & Hdir). by eapply directive_arg_clean.
  - intros (Hm & Hblank & ->). by split_and!.
Qed.

Lemma clean_step d raw st ev st' :
  (∀ r n, (d ≤ r)%nat → objects st !! r = Some n → clean (variant n)) →
  reads (Str.rstrip raw) ev → transition st ev st' →
  ∀ r n, (d ≤ r)%nat → objects st' !! r = Some n → clean (variant n).
Proof.
  intros Hclean Hreads Htr r n' Hr. apply reads_clean in Hreads.
  destruct Htr as [|t q rest n Hstk Ht Hsec|v popped p rest n Hstk Hp Hpop Hne Hv
                   |item p rest n items Hstk Hp Hv|key value p rest n m Hstk Hp Hv
                   |text p rest n Hstk Hp Hlb]; cbn [objects stack] in *.
  - by apply Hclean.
  - by apply Hclean.
  - intros Hn. apply lookup_grow in Hn; [|done].
    destruct Hn as [[-> ->]|[[-> ->]|[_ Hn]]]; [by apply (Hclean p n)|done|].
    by apply (Hclean r).
  - intros Hn. apply lookup_amend in Hn; [|done].
    destruct Hn as [[-> ->]|[_ Hn]]; [|by apply (Hclean r)].
    cbn [variant clean]. apply Forall_app. split; [|by constructor].
    specialize (Hclean p n Hr Hp). by rewrite Hv in Hclean.
  - intros Hn. apply lookup_amend in Hn; [|done].
    destruct Hn as [[-> ->]|[_ Hn]]; [|by apply (Hclean r)].
    cbn [variant clean]. intros k x.
    specialize (Hclean p n Hr Hp). rewrite Hv in Hclean. cbn [clean] in Hclean.
    destruct (decide (key = k)) as [->|Hne].
    + rewrite lookup_insert_eq. by intros [= <-].
    + rewrite lookup_insert_ne by done. apply Hclean.
  - intros Hn. apply lookup_grow in Hn; [|done].
    destruct Hn as [[-> ->]|[[-> ->]|[_ Hn]]]; [by apply (Hclean p n)|done|].
    by apply (Hclean r).
Qed.

(** X13. The strings of a returned tree are trimmed: the text of a
    Paragraph has no white space at its end, is not blank and does not
    start with the marker; a title (of a Section, a Definition or a
    Theorem) and a metadata value have no white space at either end; a
    list item has none at its end. *)
Theorem stored_strings_are_trimmed source h t s :
  parse_tree source h = Ok t → s ∈ nodes t → clean (root s).
Proof.
  intros Ht Hs. destruct (parse_tree_final _ _ _ Ht) as (st & Hrun & _ & Htree).
  pose proof (state_after_inv _ _ _ _ Hrun) as [Hh _].
  destruct (to_tree_nodes _ _ Hh _ _ _ s (Nat.le_refl _) Htree Hs)
    as (q & n & Hq & Hn & -> & _).
  revert q n Hq Hn.
  apply (state_after_invariant
           (λ st, ∀ r n, (length h ≤ r)%nat → objects st !! r = Some n →
                         clean (variant n)) source h) with (k := length (Str.splitlines source));
    [| |done].
  - intros raw st0 ev st1 _. apply clean_step.
  - intros r n Hr Hn. simpl in Hn. rewrite lookup_app_r in Hn by done.
    destruct (r - length h)%nat; simpl in Hn; [|done].
    injection Hn as <-. by intros k x.
Qed.

Lemma stored_strings_are_trimmed_witness :
  parse_tree (text ["#s1   Title  "; "  body  "]) []
  = Ok (TNode (Document ∅) [TNode (Section_ 1 "Title") [TNode (Paragraph "  body") []]])
  ∧ clean (Section_ 1 "Title").
Proof.
  split; [vm_compute; reflexivity|].
  apply (stored_strings_are_trimmed (text ["#s1   Title  "; "  body  "]) []
           (TNode (Document ∅)
              [TNode (Section_ 1 "Title") [TNode (Paragraph "  body") []]])
           (TNode (Section_ 1 "Title") [TNode (Paragraph "  body") []]));
    [vm_compute; reflexivity|].
  apply list_elem_of_In. simpl. auto.
Defined.

(** ** The outline *)

Lemma sec_level_grow σ p n v c :
  σ !! p = Some n → (c < length σ)%nat →
  sec_level (grow σ p n v) c = sec_level σ c.
Proof.
  intros Hp Hc. unfold sec_level. destruct (decide (c = p)) as [->|Hne].
  - by rewrite (lookup_grow_parent _ _ _ _ Hp), Hp.
  - by rewrite lookup_grow_ne.
Qed.

Lemma sec_level_grow_Section σ p n l title :
  σ !! p = Some n → sec_level (grow σ p n (Section_ l title)) (length σ) = Some l.
Proof. intros Hp. unfold sec_level. by rewrite (lookup_grow_new _ _ _ _ Hp). Qed.

Lemma sec_level_amend σ r n v c :
  σ !! r = Some n → same_class (variant n) v →
  sec_level (amend σ r n v) c = sec_level σ c.
Proof.
  intros Hr Hc. unfold sec_level. destruct (decide (c = r)) as [->|Hne].
  - rewrite (lookup_amend_eq _ _ _ _ Hr), Hr. simpl.
    destruct (variant n), v; simpl in Hc; try done; by injection Hc as -> ->.
  - by rewrite lookup_amend_ne.
Qed.

(** The levels of the nodes that were there are the same after a
    step. *)
Lemma transition_sec_level st ev st' c :
  transition st ev st' → (c < length (objects st))%nat →
  sec_level (objects st') c = sec_level (objects st) c.
Proof.
  intros Htr Hc.
  destruct Htr as [|t q rest n Hstk Ht Hsec|v popped p rest n Hstk Hp Hpop Hne Hv Hlev
                   |item p rest n items Hstk Hp Hv|key value p rest n m Hstk Hp Hv
                   |text p rest n Hstk Hp Hlb]; cbn [objects]; try done.
  - by apply sec_level_grow.
  - apply sec_level_amend; [done|]. by rewrite Hv.
  - apply sec_level_amend; [done|]. by rewrite Hv.
  - by apply sec_level_grow.
Qed.

Lemma spine_lookup_lt σ stk x y a b :
  spine σ stk → (x < y)%nat → stk !! x = Some a → stk !! y = Some b → (b < a)%nat.
Proof.
  revert x y. induction stk as [|c rest IH]; intros x y Hsp Hxy Hx Hy; [done|].
  destruct y as [|y]; [lia|]. destruct x as [|x].
  - simpl in Hx, Hy. injection Hx as ->.
    pose proof (spine_below _ _ _ Hsp) as Hbelow. rewrite Forall_forall in Hbelow.
    apply Hbelow. by eapply list_elem_of_lookup_2.
  - simpl in Hx, Hy. apply (IH x y); [by eapply spine_tail|lia|done|done].
Qed.

(** An open node is on the stack once. *)
Lemma spine_lookup_inj σ stk x y r :
  spine σ stk → stk !! x = Some r → stk !! y = Some r → x = y.
Proof.
  intros Hsp Hx Hy. destruct (Nat.lt_trichotomy x y) as [Hlt|[->|Hlt]]; [|done|].
  - pose proof (spine_lookup_lt _ _ _ _ _ _ Hsp Hlt Hx Hy). lia.
  - pose proof (spine_lookup_lt _ _ _ _ _ _ Hsp Hlt Hy Hx). lia.
Qed.

Lemma nest_step d st ev st' :
  inv d st → outline_ok d st → transition st ev st' →
  ∀ r n c l lc,
    (d ≤ r)%nat → objects st' !! r = Some n → c ∈ children n →
    sec_level (objects st') r = Some l → sec_level (objects st') c = Some lc →
    (l < lc)%Z.
Proof.
  intros [Hh Hs] Hol Htr r n' c l lc Hr Hn' Hc Hl Hlc.
  (* a node and a child that were there before the step *)
  assert (∀ n, objects st !! r = Some n → c ∈ children n → (l < lc)%Z) as Hold.
  { intros n Hn Hcn.
    pose proof (hk_children _ _ Hh r n Hn Hr) as Hfwd. rewrite Forall_forall in Hfwd.
    specialize (Hfwd c Hcn).
    rewrite (transition_sec_level _ _ _ r Htr) in Hl by lia.
    rewrite (transition_sec_level _ _ _ c Htr) in Hlc by lia.
    by apply (ol_nest _ _ Hol r n c). }
  destruct Htr as [|t q rest n Hstk Ht Hsec|v popped p rest n Hstk Hp Hpop Hne Hv Hlev
                   |item p rest n items Hstk Hp Hv|key value p rest n m Hstk Hp Hv
                   |text p rest n Hstk Hp Hlb]; cbn [objects stack] in *.
  - by apply (Hold n').
  - by apply (Hold n').
  - apply lookup_grow in Hn'; [|done].
    destruct Hn' as [[-> ->]|[[-> ->]|[_ Hn']]]; cbn [children] in Hc.
    + apply elem_of_app in Hc as [Hc|Hc]; [by apply (Hold n)|].
      apply list_elem_of_singleton in Hc as ->.
      destruct (sec_level_grow_new _ _ _ _ _ Hp Hlc) as (title & ->).
      rewrite (sec_level_grow _ _ _ _ _ Hp) in Hl by (by eapply lookup_lt_Some).
      by apply (Hlev lc title eq_refl).
    + by inversion Hc.
    + by apply (Hold n').
  - apply lookup_amend in Hn'; [|done].
    destruct Hn' as [[-> ->]|[_ Hn']]; [by apply (Hold n)|by apply (Hold n')].
  - apply lookup_amend in Hn'; [|done].
    destruct Hn' as [[-> ->]|[_ Hn']]; [by apply (Hold n)|by apply (Hold n')].
  - apply lookup_grow in Hn'; [|done].
    destruct Hn' as [[-> ->]|[[-> ->]|[_ Hn']]]; cbn [children] in Hc.
    + apply elem_of_app in Hc as [Hc|Hc]; [by apply (Hold n)|].
      apply list_elem_of_singleton in Hc as ->.
      by destruct (sec_level_grow_new _ _ _ _ _ Hp Hlc).
    + by inversion Hc.
    + by apply (Hold n').
Qed.

Lemma lookup_snoc_pair {A} (l : list A) (x : A) i a b :
  (l ++ [x]) !! i = Some a → (l ++ [x]) !! S i = Some b →
  (l !! i = Some a ∧ l !! S i = Some b) ∨ (last l = Some a ∧ b = x).
Proof.
  intros Ha Hb. pose proof (lookup_lt_Some _ _ _ Hb) as Hlen.
  rewrite length_app in Hlen. simpl in Hlen.
  destruct (decide (S i < length l)%nat) as [Hlt|Hge].
  - left. rewrite lookup_app_l in Ha by lia. by rewrite lookup_app_l in Hb by lia.
  - right. assert (S i = length l) as Hi by lia.
    rewrite lookup_app_l in Ha by lia. rewrite lookup_app_r in Hb by lia.
    rewrite Hi, Nat.sub_diag in Hb. simpl in Hb. injection Hb as <-.
    split; [|done]. rewrite last_lookup, <- Hi. done.
Qed.

Lemma after_step d st ev st' :
  inv d st → spine (objects st) (stack st) → outline_ok d st →
  transition st ev st' →
  ∀ r n i a b la,
    (d ≤ r)%nat → objects st' !! r = Some n →
    children n !! i = Some a → children n !! S i = Some b →
    sec_level (objects st') a = Some la →
    ∃ lb, sec_level (objects st') b = Some lb ∧ (lb ≤ la)%Z.
Proof.
  intros [Hh Hs] Hsp Hol Htr r n' i a b la Hr Hn' Ha Hb Hla.
  assert (∀ n c, objects st !! r = Some n → c ∈ children n →
                 (c < length (objects st))%nat) as Hfwd.
  { intros n c Hn Hc.
    pose proof (hk_children _ _ Hh r n Hn Hr) as H. rewrite Forall_forall in H.
    apply H in Hc. lia. }
  (* two neighbours that were there before the step *)
  assert (∀ n, objects st !! r = Some n →
               children n !! i = Some a → children n !! S i = Some b →
               ∃ lb, sec_level (objects st') b = Some lb ∧ (lb ≤ la)%Z) as Hold.
  { intros n Hn Hai Hbi.
    rewrite (transition_sec_level _ _ _ a Htr) in Hla
      by (eapply Hfwd; [done|by eapply list_elem_of_lookup_2]).
    rewrite (transition_sec_level _ _ _ b Htr)
      by (eapply Hfwd; [done|by eapply list_elem_of_lookup_2]).
    by apply (ol_after _ _ Hol r n i a b la). }
  destruct Htr as [|t q rest n Hstk Ht Hsec|v popped p rest n Hstk Hp Hpop Hne Hv Hlev
                   |item p rest n items Hstk Hp Hv|key value p rest n m Hstk Hp Hv
                   |text p rest n Hstk Hp Hlb]; cbn [objects stack] in *.
  - by apply (Hold n').
  - by apply (Hold n').
  - apply lookup_grow in Hn'; [|done].
    destruct Hn' as [[-> ->]|[[-> ->]|[_ Hn']]]; cbn [children] in Ha, Hb.
    + destruct (lookup_snoc_pair _ _ _ _ _ Ha Hb) as [[Hai Hbi]|[Hlast ->]];
        [by apply (Hold n)|].
      (* the new node comes after the last child: that child was closed
         by this very step *)
      assert (a ∈ children n) as Hin.
      { rewrite last_lookup in Hlast. by eapply list_elem_of_lookup_2. }
      rewrite (sec_level_grow _ _ _ _ _ Hp) in Hla by (by eapply Hfwd).
      destruct (ol_cover _ _ Hol p n a) as (j & Hj & HSj); [|done|done|by eexists|].
      { rewrite Hstk. apply elem_of_app. right. by left. }
      assert (stack st !! length popped = Some p) as Hpos.
      { rewrite Hstk. by apply list_lookup_middle. }
      pose proof (spine_lookup_inj _ _ _ _ _ Hsp HSj Hpos) as Hjp.
      rewrite Hstk, lookup_app_l in Hj by lia.
      assert (popped ≠ []) as Hnil by (by intros ->).
      specialize (Hne Hnil). destruct v as [| l title | | | |]; try done.
      destruct (Hlev l title eq_refl) as [Hge _]. rewrite Forall_forall in Hge.
      destruct (Hge a) as (lr & Hlr & Hle); [by eapply list_elem_of_lookup_2|].
      exists l. split; [by apply sec_level_grow_Section|]. by simplify_eq.
    + done.
    + by apply (Hold n').
  - apply lookup_amend in Hn'; [|done].
    destruct Hn' as [[-> ->]|[_ Hn']]; [by apply (Hold n)|by apply (Hold n')].
  - apply lookup_amend in Hn'; [|done].
    destruct Hn' as [[-> ->]|[_ Hn']]; [by apply (Hold n)|by apply (Hold n')].
  - apply lookup_grow in Hn'; [|done].
    destruct Hn' as [[-> ->]|[[-> ->]|[_ Hn']]]; cbn [children] in Ha, Hb.
    + destruct (lookup_snoc_pair _ _ _ _ _ Ha Hb) as [[Hai Hbi]|[Hlast ->]];
        [by apply (Hold n)|].
      (* a Paragraph goes to the top of the stack, whose last child is
         no Section *)
      assert (a ∈ children n) as Hin.
      { rewrite last_lookup in Hlast. by eapply list_elem_of_lookup_2. }
      rewrite (sec_level_grow _ _ _ _ _ Hp) in Hla by (by eapply Hfwd).
      destruct (ol_cover _ _ Hol p n a) as (j & Hj & HSj); [|done|done|by eexists|].
      { rewrite Hstk. by left. }
      assert (stack st !! 0%nat = Some p) as Hpos by (by rewrite Hstk).
      by pose proof (spine_lookup_inj _ _ _ _ _ Hsp HSj Hpos).
    + done.
    + by apply (Hold n').
Qed.

Lemma cover_step d st ev st' :
  inv d st → spine (objects st) (stack st) → outline_ok d st →
  transition st ev st' →
  ∀ r n c,
    r ∈ stack st' → objects st' !! r = Some n → last (children n) = Some c →
    is_Some (sec_level (objects st') c) →
    ∃ i, stack st' !! i = Some c ∧ stack st' !! S i = Some r.
Proof.
  intros [Hh Hs] Hsp Hol Htr r n' c Hr Hn' Hlast Hsec.
  pose proof (heap_ok_doc_lt _ _ Hh) as Hd.
  (* an open node that was there before the step, with the same last
     child *)
  assert (∀ n, r ∈ stack st → objects st !! r = Some n →
               last (children n) = Some c →
               ∃ i, stack st !! i = Some c ∧ stack st !! S i = Some r) as Hold.
  { intros n Hin Hn Hl.
    pose proof (stack_ok_lt _ _ _ r Hs Hd Hin) as Hrd.
    pose proof (hk_children _ _ Hh r n Hn (proj1 Hrd)) as Hfwd.
    rewrite Forall_forall in Hfwd.
    assert (c ∈ children n) as Hc.
    { rewrite last_lookup in Hl. by eapply list_elem_of_lookup_2. }
    rewrite (transition_sec_level _ _ _ c Htr) in Hsec by (apply Hfwd in Hc; lia).
    by apply (ol_cover _ _ Hol r n c). }
  destruct Htr as [|t q rest n Hstk Ht Hnsec|v popped p rest n Hstk Hp Hpop Hne Hv Hlev
                   |item p rest n items Hstk Hp Hv|key value p rest n m Hstk Hp Hv
                   |text p rest n Hstk Hp Hlb]; cbn [objects stack] in *.
  - by apply (Hold n').
  - destruct (Hold n') as (j & Hj & HSj); [rewrite Hstk; by right|done|done|].
    rewrite Hstk in Hj, HSj. destruct j as [|j]; simpl in Hj, HSj.
    + injection Hj as <-. destruct Hsec as [l Hl]. unfold sec_level in Hl.
      rewrite Ht in Hl. by destruct (variant n).
    + by exists j.
  - apply lookup_grow in Hn'; [|done].
    destruct Hn' as [[-> ->]|[[-> ->]|[Hrp Hn']]]; cbn [children] in Hlast.
    + rewrite last_snoc in Hlast. injection Hlast as <-. by exists 0%nat.
    + done.
    + assert (r ∈ rest) as Hin.
      { pose proof (lookup_lt_Some _ _ _ Hn').
        apply elem_of_cons in Hr as [->|Hr]; [lia|].
        apply elem_of_cons in Hr as [->|Hr]; [by destruct Hrp|done]. }
      destruct (Hold n') as (j & Hj & HSj); [|done|done|].
      { rewrite Hstk. apply elem_of_app. right. by right. }
      apply list_elem_of_lookup_1 in Hin as [x Hx].
      assert (stack st !! (length popped + S x)%nat = Some r) as Hpos.
      { rewrite Hstk, lookup_app_r by lia.
        by replace (length popped + S x - length popped)%nat with (S x) by lia. }
      pose proof (spine_lookup_inj _ _ _ _ _ Hsp HSj Hpos) as Hjx.
      assert (j = (length popped + x)%nat) as -> by lia.
      rewrite Hstk, lookup_app_r in Hj by lia.
      replace (length popped + x - length popped)%nat with x in Hj by lia.
      exists (S x). by split.
  - apply lookup_amend in Hn'; [|done].
    destruct Hn' as [[-> ->]|[_ Hn']]; [by apply (Hold n)|by apply (Hold n')].
  - apply lookup_amend in Hn'; [|done].
    destruct Hn' as [[-> ->]|[_ Hn']]; [by apply (Hold n)|by apply (Hold n')].
  - apply lookup_grow in Hn'; [|done].
    destruct Hn' as [[-> ->]|[[-> ->]|[_ Hn']]]; cbn [children] in Hlast.
    + rewrite last_snoc in Hlast. injection Hlast as <-.
      destruct Hsec as [l Hl]. by destruct (sec_level_grow_new _ _ _ _ _ Hp Hl).
    + done.
    + by apply (Hold n').
Qed.

Lemma outline_ok_initial h : outline_ok (length h) (initial h).
Proof.
  assert (∀ r n, objects (initial h) !! r = Some n → (length h ≤ r)%nat →
                 n = mkNode [] (Document ∅)) as Hnew.
  { intros r n Hr Hle. simpl in Hr. rewrite lookup_app_r in Hr by done.
    destruct (r - length h)%nat as [|k]; simpl in Hr; [congruence|done]. }
  split.
  - intros r n c l lc Hr Hn Hc. rewrite (Hnew _ _ Hn Hr) in Hc. by inversion Hc.
  - intros r n i a b la Hr Hn Ha. by rewrite (Hnew _ _ Hn Hr) in Ha.
  - intros r n c Hr Hn Hlast. simpl in Hr. apply list_elem_of_singleton in Hr as ->.
    by rewrite (Hnew _ _ Hn (Nat.le_refl _)) in Hlast.
Qed.

(** The steps keep the outline, given the shape of the stack. *)
Lemma outline_ok_step d st ev st' :
  inv d st → shape_ok d st → outline_ok d st → transition st ev st' →
  outline_ok d st'.
Proof.
  intros Hinv Hshape Hol Htr. pose proof (sh_spine _ _ Hshape) as Hsp. split.
  - by eapply nest_step.
  - by eapply after_step.
  - by eapply cover_step.
Qed.

Lemma state_after_outline source h k st :
  state_after source h k = Ok st → outline_ok (length h) st.
Proof.
  intros Hrun.
  apply (state_after_invariant
           (λ st, shape_ok (length h) st ∧ outline_ok (length h) st) source h)
    with (k := k); [| |done].
  - intros raw st0 ev st1 Hinv [Hshape Hol] Hev Htr. split.
    + by eapply shape_ok_step.
    + by eapply outline_ok_step.
  - split; [apply shape_ok_initial|apply outline_ok_initial].
Qed.

Lemma sec_level_Some σ r l :
  sec_level σ r = Some l ↔ ∃ n title, σ !! r = Some n ∧ variant n = Section_ l title.
Proof.
  unfold sec_level. split.
  - destruct (σ !! r) as [n|]; [|done].
    destruct (variant n) eqn:E; try done. intros [= ->]. eauto.
  - intros (n & title & -> & ->). done.
Qed.

(** The outline of the final objects, read in the tree. *)
Lemma tree_outline source h t s :
  parse_tree source h = Ok t → s ∈ nodes t →
  ∃ st q n,
    outline_ok (length h) st ∧ (length h ≤ q)%nat
    ∧ objects st !! q = Some n ∧ root s = variant n
    ∧ Forall2 (λ c k, ∃ m, objects st !! c = Some m ∧ root k = variant m)
        (children n) (kids s).
Proof.
  intros Ht Hs. destruct (parse_tree_final _ _ _ Ht) as (st & Hrun & _ & Htree).
  destruct (state_after_inv _ _ _ _ Hrun) as [Hh _].
  destruct (to_tree_nodes _ _ Hh _ _ _ s (Nat.le_refl _) Htree Hs)
    as (q & n & Hq & Hn & Hroot & Hkids).
  exists st, q, n. split_and!; try done. by eapply state_after_outline.
Qed.

(** X14. In every returned tree, a Section that is a child of a Section
    has a greater level than it. *)
Theorem section_in_section_is_deeper source h t s k l title lk titlek :
  parse_tree source h = Ok t → s ∈ nodes t → k ∈ kids s →
  root s = Section_ l title → root k = Section_ lk titlek →
  (l < lk)%Z.
Proof.
  intros Ht Hs Hk Hrs Hrk.
  destruct (tree_outline _ _ _ _ Ht Hs) as (st & q & n & Hol & Hq & Hn & Hroot & Hkids).
  apply list_elem_of_lookup_1 in Hk as [i Hi].
  destruct (Forall2_lookup_r _ _ _ _ _ Hkids Hi) as (c & Hc & m & Hm & Hcm).
  apply (ol_nest _ _ Hol q n c l lk Hq Hn).
  - by eapply list_elem_of_lookup_2.
  - apply sec_level_Some. exists n, title. split; [done|congruence].
  - apply sec_level_Some. exists m, titlek. split; [done|congruence].
Qed.

Lemma section_in_section_is_deeper_witness :
  parse_tree (text ["#s1 A"; "#s3 B"; "x"]) []
  = Ok (TNode (Document ∅)
          [TNode (Section_ 1 "A") [TNode (Section_ 3 "B") [TNode (Paragraph "x") []]]])
  ∧ (1 < 3)%Z.
Proof.
  split; [vm_compute; reflexivity|].
  apply (section_in_section_is_deeper (text ["#s1 A"; "#s3 B"; "x"]) []
           (TNode (Document ∅)
              [TNode (Section_ 1 "A")
                 [TNode (Section_ 3 "B") [TNode (Paragraph "x") []]]])
           (TNode (Section_ 1 "A") [TNode (Section_ 3 "B") [TNode (Paragraph "x") []]])
           (TNode (Section_ 3 "B") [TNode (Paragraph "x") []])
           1 "A" 3 "B").
  - vm_compute; reflexivity.
  - simpl. right. left.
  - simpl. left.
  - reflexivity.
  - reflexivity.
Defined.

(** X15. In every returned tree, what follows a Section among the
    children of a node is a Section of the same or a smaller level: a
    node gets no child after a Section until a section directive of
    that level or a smaller one closes it. *)
Theorem after_a_section_comes_a_section source h t s i a b la titlea :
  parse_tree source h = Ok t → s ∈ nodes t →
  kids s !! i = Some a → kids s !! S i = Some b →
  root a = Section_ la titlea →
  ∃ lb titleb, root b = Section_ lb titleb ∧ (lb ≤ la)%Z.
Proof.
  intros Ht Hs Ha Hb Hra.
  destruct (tree_outline _ _ _ _ Ht Hs) as (st & q & n & Hol & Hq & Hn & Hroot & Hkids).
  destruct (Forall2_lookup_r _ _ _ _ _ Hkids Ha) as (ca & Hca & ma & Hma & Hcma).
  destruct (Forall2_lookup_r _ _ _ _ _ Hkids Hb) as (cb & Hcb & mb & Hmb & Hcmb).
  destruct (ol_after _ _ Hol q n i ca cb la Hq Hn Hca Hcb) as (lb & Hlb & Hle).
  { apply sec_level_Some. exists ma, titlea. split; [done|congruence]. }
  apply sec_level_Some in Hlb as (mb' & titleb & Hmb' & Hvb).
  exists lb, titleb. split; [|done]. congruence.
Qed.

Lemma after_a_section_comes_a_section_witness :
  parse_tree (text ["x"; "#s2 A"; "y"; "#s1 B"]) []
  = Ok (TNode (Document ∅)
          [TNode (Paragraph "x") [];
           TNode (Section_ 2 "A") [TNode (Paragraph "y") []];
           TNode (Section_ 1 "B") []])
  ∧ ∃ lb titleb, root (TNode (Section_ 1 "B") []) = Section_ lb titleb ∧ (lb ≤ 2)%Z.
Proof.
  split; [vm_compute; reflexivity|].
  apply (after_a_section_comes_a_section (text ["x"; "#s2 A"; "y"; "#s1 B"]) []
           (TNode (Document ∅)
              [TNode (Paragraph "x") [];
               TNode (Section_ 2 "A") [TNode (Paragraph "y") []];
               TNode (Section_ 1 "B") []])
           (TNode (Document ∅)
              [TNode (Paragraph "x") [];
               TNode (Section_ 2 "A") [TNode (Paragraph "y") []];
               TNode (Section_ 1 "B") []])
           1%nat
           (TNode (Section_ 2 "A") [TNode (Paragraph "y") []])
           (TNode (Section_ 1 "B") [])
           2 "A").
  - vm_compute; reflexivity.
  - simpl. left.
  - reflexivity.
  - reflexivity.
  - reflexivity.
Defined.

(** X16. Only a section directive closes a Section: at every point of a
    parse, when the last child of an open node is a Section, that
    Section is open, directly above the node on the stack. *)
Theorem last_section_is_open source h k st r n c :
  state_after source h k = Ok st →
  r ∈ stack st → objects st !! r = Some n → last (children n) = Some c →
  is_Some (sec_level (objects st) c) →
  ∃ i, stack st !! i = Some c ∧ stack st !! S i = Some r.
Proof.
  intros Hrun. apply (ol_cover (length h)). by eapply state_after_outline.
Qed.

Lemma last_section_is_open_witness :
  ∃ st, state_after (text ["#s1 A"; "#s2 B"; "#thm T"; "#end"; "x"]) [] 5 = Ok st
  ∧ ∃ i, stack st !! i = Some 1%nat ∧ stack st !! S i = Some 0%nat.
Proof.
  eexists. split; [vm_compute; reflexivity|].
  apply (last_section_is_open (text ["#s1 A"; "#s2 B"; "#thm T"; "#end"; "x"]) [] 5 _
           0%nat (mkNode [1%nat] (Document ∅)) 1%nat).
  - vm_compute; reflexivity.
  - vm_compute. right. right. left.
  - vm_compute; reflexivity.
  - reflexivity.
  - vm_compute. by eexists.
Defined.

(** ** The Document under a Section *)

(** A later state of a parse is reached from an earlier one by the
    lines in between. *)
Lemma state_after_le source h k k' st :
  (k ≤ k')%nat → state_after source h k = Ok st →
  state_after source h k'
  = run_lines (drop k (take k' (Str.splitlines source)))
      (1 + Z.of_nat (length (take k (Str.splitlines source)))) st.
Proof.
  unfold state_after. intros Hle Hrun.
  rewrite <- (take_drop k (take k' (Str.splitlines source))) at 1.
  rewrite take_take, Nat.min_l by done. by rewrite run_lines_app, Hrun.
Qed.

Lemma metadata_at_grow σ p n v r :
  σ !! p = Some n → (r < length σ)%nat →
  metadata_at (grow σ p n v) r = metadata_at σ r.
Proof.
  intros Hp Hr. unfold metadata_at. destruct (decide (r = p)) as [->|Hne].
  - by rewrite (lookup_grow_parent _ _ _ _ Hp), Hp.
  - by rewrite lookup_grow_ne.
Qed.

Lemma metadata_at_amend σ p n v r :
  σ !! p = Some n → r ≠ p → metadata_at (amend σ p n v) r = metadata_at σ r.
Proof. intros Hp Hne. unfold metadata_at. by rewrite lookup_amend_ne. Qed.

(** Once a Section is open directly above the Document, every step
    leaves one there, and leaves the metadata as they are. *)
Lemma under_section_step d st ev st' :
  inv d st → under_section d st → transition st ev st' →
  under_section d st' ∧ metadata_at (objects st') d = metadata_at (objects st) d.
Proof.
  intros [Hh Hs] (above & s & Hab & Hsec) Htr.
  pose proof (heap_ok_doc_lt _ _ Hh) as Hd.
  assert (Forall (λ r, (d < r < length (objects st))%nat) (above ++ [s])) as Hbig.
  { destruct Hs as [(above0 & Heq & Hgt) _]. rewrite Hab in Heq.
    change [s; d] with ([s] ++ [d]) in Heq. rewrite app_assoc in Heq.
    by apply app_inj_tail in Heq as [<- _]. }
  assert (d < s < length (objects st))%nat as Hsd.
  { rewrite Forall_forall in Hbig. apply Hbig. apply elem_of_app. right. by left. }
  destruct Htr as [|t q rest n Hstk Ht Hnsec|v popped p rest n Hstk Hp Hpop Hne Hv Hlev
                   |item p rest n items Hstk Hp Hv|key value p rest n m Hstk Hp Hv
                   |text p rest n Hstk Hp Hlb]; cbn [objects stack] in *.
  - split; [by exists above, s|done].
  - split; [|done]. rewrite Hab in Hstk. destruct above as [|a above].
    + simpl in Hstk. injection Hstk as <- <- <-. destruct Hsec as [l Hl].
      unfold sec_level in Hl. rewrite Ht in Hl. by destruct (variant n).
    + simpl in Hstk. injection Hstk as <- Hrest. by exists above, s.
  - split; [|by apply metadata_at_grow].
    rewrite Hab in Hstk.
    destruct (app_eq_inv _ _ _ _ Hstk) as [(k & Hk1 & Hk2)|(k & Hk1 & Hk2)].
    + (* the stack is cut within the Sections above the one on the
         Document *)
      exists (length (objects st) :: k), s. split; [by rewrite Hk2|].
      cbn [objects]. by rewrite (sec_level_grow _ _ _ _ _ Hp) by lia.
    + destruct k as [|k0 [|k1 [|k2 k]]]; simplify_eq/=.
      * eexists [length (objects st)], _. split; [reflexivity|].
        cbn [objects]. by rewrite (sec_level_grow _ _ _ _ _ Hp) by lia.
      * (* the Section on the Document is closed: a Section takes its
           place *)
        exists [], (length (objects st)). split; [done|].
        assert (is_Section v = true) as Hsv.
        { apply Hne. intros Hnil. by apply app_eq_nil in Hnil as [_ [=]]. }
        destruct v as [| l title | | | |]; try done.
        exists l. cbn [objects]. by apply sec_level_grow_Section.
  - assert (p ≠ d) as Hpd.
    { rewrite Hab in Hstk. rewrite Forall_forall in Hbig.
      assert (p ∈ above ++ [s]) as Hin.
      { destruct above as [|a above]; simplify_eq/=; by left. }
      apply Hbig in Hin. lia. }
    split; [|by apply metadata_at_amend].
    exists above, s. split; [done|].
    cbn [objects]. rewrite sec_level_amend; [done|done|by rewrite Hv].
  - assert (p ≠ d) as Hpd.
    { rewrite Hab in Hstk. rewrite Forall_forall in Hbig.
      assert (p ∈ above ++ [s]) as Hin.
      { destruct above as [|a above]; simplify_eq/=; by left. }
      apply Hbig in Hin. lia. }
    split; [|by apply metadata_at_amend].
    exists above, s. split; [done|].
    cbn [objects]. rewrite sec_level_amend; [done|done|by rewrite Hv].
  - split; [|by apply metadata_at_grow].
    exists above, s. split; [done|]. cbn [objects]. by rewrite (sec_level_grow _ _ _ _ _ Hp) by lia.
Qed.

(** X17. The metadata come before the first heading. Once a Section is
    open directly above the Document, one is from then on -- a section
    directive that closes it puts its own Section there, and [#end]
    closes no Section -- so the Document is never the current node
    again, and its metadata stay as they are. *)
Theorem section_on_document_seals_metadata source h k k' st st' :
  state_after source h k = Ok st → under_section (length h) st →
  (k ≤ k')%nat → state_after source h k' = Ok st' →
  under_section (length h) st'
  ∧ metadata_at (objects st') (length h) = metadata_at (objects st) (length h).
Proof.
  intros Hrun Hunder Hle Hrun'.
  rewrite (state_after_le _ _ _ _ _ Hle Hrun) in Hrun'.
  apply (run_lines_invariant (length h)
           (λ st1, under_section (length h) st1
                   ∧ metadata_at (objects st1) (length h)
                     = metadata_at (objects st) (length h)))
    with (4 := Hrun').
  - intros raw st0 ev st1 Hinv [Hu Hm] _ Htr.
    destruct (under_section_step _ _ _ _ Hinv Hu Htr) as [Hu1 Hm1].
    split; [done|congruence].
  - by eapply state_after_inv.
  - done.
Qed.

Lemma section_on_document_seals_metadata_witness :
  ∃ st st',
    state_after (text ["#title T"; "#s2 A"; "#def D"; "#end"; "#s1 B"; "x"]) [] 2 = Ok st
    ∧ state_after (text ["#title T"; "#s2 A"; "#def D"; "#end"; "#s1 B"; "x"]) [] 6
      = Ok st'
    ∧ under_section 0 st'
    ∧ metadata_at (objects st') 0 = metadata_at (objects st) 0.
Proof.
  eexists. eexists. split; [vm_compute; reflexivity|]. split; [vm_compute; reflexivity|].
  apply (section_on_document_seals_metadata
           (text ["#title T"; "#s2 A"; "#def D"; "#end"; "#s1 B"; "x"]) [] 2 6).
  - vm_compute; reflexivity.
  - exists [], 1%nat. split; [reflexivity|]. vm_compute. by eexists.
  - lia.
  - vm_compute; reflexivity.
Defined.

(** ** The other branches *)

(** X18. A [#list], [#def] or [#thm] line never fails, whatever is open:
    it makes a node without children (a ListBlock without items, or a
    Definition or Theorem whose title is the argument of the line),
    appends it to the children of the current node and makes it the
    current node. *)
Theorem block_openers source h k st raw cmd arg v :
  state_after source h k = Ok st →
  Str.splitlines source !! k = Some raw →
  Str.startswith "#" (Str.rstrip raw) = true →
  directive (Str.rstrip raw) = Ok (cmd, arg) →
  (cmd = "list" ∧ v = ListBlock [])
  ∨ (cmd = "def" ∧ v = Definition_ arg)
  ∨ (cmd = "thm" ∧ v = Theorem_ arg) →
  ∃ p rest n,
    stack st = p :: rest ∧ objects st !! p = Some n
    ∧ state_after source h (S k)
      = Ok (mkState (grow (objects st) p n v) (length (objects st) :: p :: rest)).
Proof.
  intros Hrun Hk Hm Hdir Hcmd.
  destruct (inv_top _ _ (state_after_inv _ _ _ _ Hrun)) as (p & rest & n & Hstk & Hp & _).
  exists p, rest, n. split_and!; [done|done|].
  enter_command Hk Hrun Hm Hdir. rewrite Hstk. cbn [top bind].
  assert (st = mkState (objects st) (p :: rest)) as Hst.
  { rewrite <- Hstk. by destruct st. }
  destruct Hcmd as [[-> ->]|[[-> ->]|[-> ->]]].
  - change (String.eqb "list" "end") with false.
    change (Str.startswith "s" "list") with false.
    change (String.eqb "list" "list") with true. cbv iota. cbn [andb]. cbv iota.
    rewrite Hst at 1. by apply open_node_eq.
  - change (String.eqb "def" "end") with false.
    change (Str.startswith "s" "def") with false.
    change (String.eqb "def" "list") with false.
    change (String.eqb "def" "def") with true. cbv iota. cbn [andb]. cbv iota.
    rewrite Hst at 1. by apply open_node_eq.
  - change (String.eqb "thm" "end") with false.
    change (Str.startswith "s" "thm") with false.
    change (String.eqb "thm" "list") with false.
    change (String.eqb "thm" "def") with false.
    change (String.eqb "thm" "thm") with true. cbv iota. cbn [andb]. cbv iota.
    rewrite Hst at 1. by apply open_node_eq.
Qed.

Lemma block_openers_witness :
  ∃ p rest n,
    stack (mkState [mkNode [1%nat] (Document ∅); mkNode [] (ListBlock [])]
             [1%nat; 0%nat]) = p :: rest
    ∧ [mkNode [1%nat] (Document ∅); mkNode [] (ListBlock [])] !! p = Some n
    ∧ state_after (text ["#list"; "#thm  Euclid "]) [] 2
      = Ok (mkState
              (grow [mkNode [1%nat] (Document ∅); mkNode [] (ListBlock [])] p n
                 (Theorem_ "Euclid"))
              (2%nat :: p :: rest)).
Proof.
  apply (block_openers (text ["#list"; "#thm  Euclid "]) [] 1
           (mkState [mkNode [1%nat] (Document ∅); mkNode [] (ListBlock [])]
              [1%nat; 0%nat])
           "#thm  Euclid " "thm" "Euclid" (Theorem_ "Euclid")).
  - vm_compute; reflexivity.
  - vm_compute; reflexivity.
  - vm_compute; reflexivity.
  - vm_compute; reflexivity.
  - right. right. by split.
Defined.

(** X19. A line of text never fails unless a ListBlock is current: a
    blank line changes nothing, and any other line becomes a Paragraph
    whose text is the line without the white space at its end, the new
    last child of the current node, which stays current. *)
Theorem text_lines source h k st raw :
  state_after source h k = Ok st →
  Str.splitlines source !! k = Some raw →
  Str.startswith "#" (Str.rstrip raw) = false →
  ∃ p rest n,
    stack st = p :: rest ∧ objects st !! p = Some n
    ∧ (Str.is_empty (Str.strip (Str.rstrip raw)) = true →
       state_after source h (S k) = Ok st)
    ∧ (Str.is_empty (Str.strip (Str.rstrip raw)) = false →
       is_ListBlock (variant n) = false →
       state_after source h (S k)
       = Ok (mkState (grow (objects st) p n (Paragraph (Str.rstrip raw))) (stack st))).
Proof.
  intros Hrun Hk Hm.
  destruct (inv_top _ _ (state_after_inv _ _ _ _ Hrun)) as (p & rest & n & Hstk & Hp & _).
  exists p, rest, n. split_and!; [done|done|..].
  - intros Hblank. rewrite (state_after_S _ _ _ _ Hk), Hrun. cbn [bind].
    unfold step. rewrite Hm. unfold _handle_text. by rewrite Hblank.
  - intros Hblank Hlb. rewrite (state_after_S _ _ _ _ Hk), Hrun. cbn [bind].
    unfold step. rewrite Hm. unfold _handle_text. rewrite Hblank, Hstk.
    cbn [top bind]. unfold deref. rewrite Hp. cbn [bind].
    rewrite (append_child_grow _ _ _ _ Hp).
    by destruct (variant n).
Qed.

Lemma text_lines_witness :
  state_after (text ["#s1 A"; "  prose  "]) [] 2
  = Ok (mkState
          [mkNode [1%nat] (Document ∅); mkNode [2%nat] (Section_ 1 "A");
           mkNode [] (Paragraph "  prose")]
          [1%nat; 0%nat]).
Proof.
  destruct (text_lines (text ["#s1 A"; "  prose  "]) [] 1
              (mkState [mkNode [1%nat] (Document ∅); mkNode [] (Section_ 1 "A")]
                 [1%nat; 0%nat])
              "  prose  "
              ltac:(vm_compute; reflexivity) ltac:(vm_compute; reflexivity)
              ltac:(vm_compute; reflexivity))
    as (p & rest & n & Hstk & Hp & _ & Hpara).
  cbn [stack] in Hstk. injection Hstk as <- <-.
  cbn [objects] in Hp. injection Hp as <-.
  rewrite Hpara; [vm_compute; reflexivity|vm_compute; reflexivity|reflexivity].
Defined.

(** ** Witnesses of the metadata and the level branches *)

Lemma other_directive_witness :
  state_after (text ["#s1 A"; "#author Ann"]) [] 2
  = Raise (ParseError "Line 2: unknown command #author").
Proof.
  destruct (other_directive (text ["#s1 A"; "#author Ann"]) [] 1
              (mkState [mkNode [1%nat] (Document ∅); mkNode [] (Section_ 1 "A")]
                 [1%nat; 0%nat])
              "#author Ann" "author" "Ann"
              ltac:(vm_compute; reflexivity) ltac:(vm_compute; reflexivity)
              ltac:(vm_compute; reflexivity) ltac:(vm_compute; reflexivity)
              ltac:(discriminate) ltac:(discriminate)
              ltac:(discriminate) ltac:(discriminate)
              ltac:(vm_compute; reflexivity))
    as (p & rest & n & Hstk & Hp & _ & _ & Hunknown).
  cbn [stack] in Hstk. injection Hstk as <- <-.
  cbn [objects] in Hp. injection Hp as <-.
  rewrite Hunknown; [vm_compute; reflexivity|reflexivity].
Defined.

Lemma nondecimal_level_raises_ValueError_witness :
  state_after (String "#" (String "s" (String superscript_two " x"))) [] 1
  = Raise ValueError.
Proof.
  apply (nondecimal_level_raises_ValueError
           (String "#" (String "s" (String superscript_two " x"))) [] 0
           (initial [])
           (String "#" (String "s" (String superscript_two " x")))
           (String superscript_two "") "x");
    vm_compute; reflexivity.
Defined.

(** ** White space at the end of a line *)

Lemma step_rstrip raw lineno st : step (Str.rstrip raw) lineno st = step raw lineno st.
Proof. unfold step. by rewrite rstrip_idem. Qed.

Lemma run_lines_rstrip lines lineno st :
  run_lines (map Str.rstrip lines) lineno st = run_lines lines lineno st.
Proof.
  revert lineno st. induction lines as [|raw lines IH]; intros lineno st; [done|].
  cbn [map run_lines]. rewrite step_rstrip.
  destruct (step raw lineno st) as [st'|e]; [|done]. cbn [bind]. apply IH.
Qed.

(** X20. White space at the end of a line has no effect: two texts
    whose lines are the same up to the white space at their ends parse
    alike, to the same tree or to the same failure. *)
Theorem trailing_space_does_not_matter s1 s2 h :
  map Str.rstrip (Str.splitlines s1) = map Str.rstrip (Str.splitlines s2) →
  parse_tree s1 h = parse_tree s2 h.
Proof.
  intros Hsame. unfold parse_tree, parse_blocks.
  by rewrite <- (run_lines_rstrip (Str.splitlines s1)), Hsame, run_lines_rstrip.
Qed.

Lemma trailing_space_does_not_matter_witness :
  parse_tree
    (String "#" (String "s" (String "1" (String " " (String "A" (String " "
       (String "013" (String "010" (String "x" (String "009" (String "010"
          (String "y" (String " " EmptyString)))))))))))))
    []
  = parse_tree (text ["#s1 A"; "x"; "y"]) [].
Proof.
  apply trailing_space_does_not_matter. vm_compute. reflexivity.
Defined.

(** ** The objects as a tree *)

Lemma tree_ok_initial h : tree_ok (length h) (objects (initial h)).
Proof.
  assert (∀ r n, objects (initial h) !! r = Some n → (length h ≤ r)%nat →
                 n = mkNode [] (Document ∅)) as Hnew.
  { intros r n Hr Hle. simpl in Hr. rewrite lookup_app_r in Hr by done.
    destruct (r - length h)%nat as [|k]; simpl in Hr; [congruence|done]. }
  split.
  - intros r n i j a b Hr Hn _ Ha. by rewrite (Hnew _ _ Hn Hr) in Ha.
  - intros c. simpl. rewrite length_app. simpl. lia.
  - intros q q' n n' c Hq _ Hn _ Hc. rewrite (Hnew _ _ Hn Hq) in Hc. by inversion Hc.
Qed.

(** The parents of a node after a node is made. *)
Lemma child_after_grow d σ p n v q m c :
  heap_ok d σ → σ !! p = Some n → (d ≤ q)%nat →
  grow σ p n v !! q = Some m → c ∈ children m →
  (c = length σ ∧ q = p)
  ∨ (∃ m0, σ !! q = Some m0 ∧ c ∈ children m0 ∧ (c < length σ)%nat).
Proof.
  intros Hh Hp Hq Hm Hc.
  assert (∀ m0, σ !! q = Some m0 → c ∈ children m0 → (c < length σ)%nat) as Hfwd.
  { intros m0 Hm0 Hc0. pose proof (hk_children _ _ Hh q m0 Hm0 Hq) as H.
    rewrite Forall_forall in H. apply H in Hc0. lia. }
  apply lookup_grow in Hm; [|done].
  destruct Hm as [[-> ->]|[[-> ->]|[_ Hm]]]; cbn [children] in Hc.
  - apply elem_of_app in Hc as [Hc|Hc].
    + right. exists n. split_and!; [done|done|by eapply Hfwd].
    + apply list_elem_of_singleton in Hc as ->. by left.
  - by inversion Hc.
  - right. exists m. split_and!; [done|done|by eapply Hfwd].
Qed.

Lemma tree_ok_grow d σ p n v :
  heap_ok d σ → tree_ok d σ → σ !! p = Some n → (d ≤ p)%nat →
  tree_ok d (grow σ p n v).
Proof.
  intros Hh Htree Hp Hdp. pose proof (lookup_lt_Some _ _ _ Hp) as Hplt. split.
  - intros r m i j a b Hr Hm Hij Ha Hb.
    apply lookup_grow in Hm; [|done].
    destruct Hm as [[-> ->]|[[-> ->]|[_ Hm]]]; cbn [children] in Ha, Hb.
    + pose proof (lookup_lt_Some _ _ _ Hb) as Hj. rewrite length_app in Hj.
      simpl in Hj. rewrite lookup_app_l in Ha by lia.
      destruct (decide (j < length (children n))%nat) as [Hlt|Hge].
      * rewrite lookup_app_l in Hb by done.
        by apply (tr_ordered _ _ Htree p n i j a b).
      * rewrite lookup_app_r in Hb by lia.
        replace (j - length (children n))%nat with 0%nat in Hb by lia.
        simpl in Hb. injection Hb as <-.
        pose proof (hk_children _ _ Hh p n Hp Hdp) as Hfwd.
        rewrite Forall_forall in Hfwd.
        apply list_elem_of_lookup_2, Hfwd in Ha. lia.
    + done.
    + by apply (tr_ordered _ _ Htree r m i j a b).
  - intros c. rewrite length_grow. intros Hc.
    destruct (decide (c = length σ)) as [->|Hne].
    + exists p, (mkNode (children n ++ [length σ]) (variant n)).
      split_and!; [done|by apply lookup_grow_parent|].
      cbn [children]. apply elem_of_app. right. by left.
    + destruct (tr_parent _ _ Htree c) as (q & m & Hq & Hm & Hcm); [lia|].
      destruct (decide (q = p)) as [->|Hqp].
      * exists p, (mkNode (children n ++ [length σ]) (variant n)).
        split_and!; [done|by apply lookup_grow_parent|].
        cbn [children]. apply elem_of_app. left. congruence.
      * exists q, m. split_and!; [done| |done].
        rewrite lookup_grow_ne; [done|done|done|by eapply lookup_lt_Some].
  - intros q q' m m' c Hq Hq' Hm Hm' Hc Hc'.
    destruct (child_after_grow _ _ _ _ _ _ _ _ Hh Hp Hq Hm Hc)
      as [[-> ->]|(m0 & Hm0 & Hc0 & Hlt)];
      destruct (child_after_grow _ _ _ _ _ _ _ _ Hh Hp Hq' Hm' Hc')
        as [[Hnew ->]|(m0' & Hm0' & Hc0' & Hlt')]; try done; try lia.
    by apply (tr_single _ _ Htree q q' m0 m0' c).
Qed.

Lemma tree_ok_amend d σ r n v :
  tree_ok d σ → σ !! r = Some n → tree_ok d (amend σ r n v).
Proof.
  intros Htree Hr.
  assert (∀ q m, amend σ r n v !! q = Some m →
                 ∃ m0, σ !! q = Some m0 ∧ children m = children m0) as Hsame.
  { intros q m Hm. apply lookup_amend in Hm; [|done].
    destruct Hm as [[-> ->]|[_ Hm]]; eauto. }
  split.
  - intros q m i j a b Hq Hm Hij Ha Hb.
    destruct (Hsame _ _ Hm) as (m0 & Hm0 & E). rewrite E in Ha, Hb.
    by apply (tr_ordered _ _ Htree q m0 i j a b).
  - intros c. rewrite length_amend. intros Hc.
    destruct (tr_parent _ _ Htree c Hc) as (q & m & Hq & Hm & Hcm).
    destruct (decide (q = r)) as [->|Hne].
    + exists r, (mkNode (children n) v). split_and!; [done|by apply lookup_amend_eq|].
      cbn [children]. congruence.
    + exists q, m. split_and!; [done|by rewrite lookup_amend_ne|done].
  - intros q q' m m' c Hq Hq' Hm Hm' Hc Hc'.
    destruct (Hsame _ _ Hm) as (m0 & Hm0 & E). rewrite E in Hc.
    destruct (Hsame _ _ Hm') as (m0' & Hm0' & E'). rewrite E' in Hc'.
    by apply (tr_single _ _ Htree q q' m0 m0' c).
Qed.

Lemma tree_ok_step d st ev st' :
  inv d st → tree_ok d (objects st) → transition st ev st' →
  tree_ok d (objects st').
Proof.
  intros [Hh Hs] Htree Htr.
  assert (∀ p, p ∈ stack st → (d ≤ p)%nat) as Hge.
  { intros p Hp. pose proof (stack_ok_lt _ _ _ p Hs (heap_ok_doc_lt _ _ Hh) Hp). lia. }
  destruct Htr as [|t q rest n Hstk Ht Hnsec|v popped p rest n Hstk Hp Hpop Hne Hv Hlev
                   |item p rest n items Hstk Hp Hv|key value p rest n m Hstk Hp Hv
                   |text p rest n Hstk Hp Hlb]; cbn [objects stack] in *.
  - done.
  - done.
  - apply tree_ok_grow; [done|done|done|]. apply Hge. rewrite Hstk.
    apply elem_of_app. right. by left.
  - by apply tree_ok_amend.
  - by apply tree_ok_amend.
  - apply tree_ok_grow; [done|done|done|]. apply Hge. rewrite Hstk. by left.
Qed.

Lemma state_after_tree source h k st :
  state_after source h k = Ok st → tree_ok (length h) (objects st).
Proof.
  apply (state_after_invariant (λ st, tree_ok (length h) (objects st))).
  - intros raw st0 ev st1 Hinv Htree _ Htr. by eapply tree_ok_step.
  - apply tree_ok_initial.
Qed.

(** X21. The objects of a parse form a tree. At every point of a parse,
    every node made after the Document is a child of a node made before
    it, and of no other node of the parse. *)
Theorem every_node_has_one_parent source h k st c :
  state_after source h k = Ok st →
  (length h < c < length (objects st))%nat →
  ∃ q n,
    (length h ≤ q < c)%nat ∧ objects st !! q = Some n ∧ c ∈ children n
    ∧ ∀ q' n', (length h ≤ q')%nat → objects st !! q' = Some n' →
        c ∈ children n' → q' = q.
Proof.
  intros Hrun Hc. pose proof (state_after_tree _ _ _ _ Hrun) as Htree.
  destruct (state_after_inv _ _ _ _ Hrun) as [Hh _].
  destruct (tr_parent _ _ Htree c Hc) as (q & n & Hq & Hn & Hcn).
  exists q, n. split_and!; try done.
  - pose proof (hk_children _ _ Hh q n Hn Hq) as Hfwd. rewrite Forall_forall in Hfwd.
    apply Hfwd in Hcn. lia.
  - intros q' n' Hq' Hn' Hcn'. by apply (tr_single _ _ Htree q' q n' n c).
Qed.

Lemma every_node_has_one_parent_witness :
  ∃ st, state_after (text ["#s1 A"; "x"; "#def D"; "y"]) [] 4 = Ok st
  ∧ ∃ q n,
      (0 ≤ q < 4)%nat ∧ objects st !! q = Some n ∧ 4%nat ∈ children n
      ∧ ∀ q' n', (0 ≤ q')%nat → objects st !! q' = Some n' →
          4%nat ∈ children n' → q' = q.
Proof.
  eexists. split; [vm_compute; reflexivity|].
  apply (every_node_has_one_parent (text ["#s1 A"; "x"; "#def D"; "y"]) [] 4).
  - vm_compute; reflexivity.
  - vm_compute. lia.
Defined.

(** X22. The children of a node are in the order in which they were
    made, which is the order of their lines: at every point of a parse,
    a child that comes later in the list of a node is a later object. *)
Theorem children_in_order_of_creation source h k st r n i j a b :
  state_after source h k = Ok st →
  (length h ≤ r)%nat → objects st !! r = Some n → (i < j)%nat →
  children n !! i = Some a → children n !! j = Some b →
  (a < b)%nat.
Proof.
  intros Hrun. apply (tr_ordered (length h)). by eapply state_after_tree.
Qed.

Lemma children_in_order_of_creation_witness :
  state_after (text ["x"; "#def D"; "y"; "#end"; "z"]) [] 5
  = Ok (mkState
          [mkNode [1; 2; 4]%nat (Document ∅); mkNode [] (Paragraph "x");
           mkNode [3%nat] (Definition_ "D"); mkNode [] (Paragraph "y");
           mkNode [] (Paragraph "z")]
          [0%nat])
  ∧ (2 < 4)%nat.
Proof.
  split; [vm_compute; reflexivity|].
  apply (children_in_order_of_creation (text ["x"; "#def D"; "y"; "#end"; "z"]) [] 5
           (mkState
              [mkNode [1; 2; 4]%nat (Document ∅); mkNode [] (Paragraph "x");
               mkNode [3%nat] (Definition_ "D"); mkNode [] (Paragraph "y");
               mkNode [] (Paragraph "z")]
              [0%nat])
           0%nat (mkNode [1; 2; 4]%nat (Document ∅)) 1%nat 2%nat 2%nat 4%nat).
  - vm_compute; reflexivity.
  - simpl. lia.
  - reflexivity.
  - lia.
  - reflexivity.
  - reflexivity.
Defined.
